(** * Fourwords: a shallow embedding of [fourwords.py]

    The program builds a word -> nonsense-token lexicon from USFM files and
    rewrites the files with it.  Every function of the script that carries
    logic is transcribed below as a Rocq function, and the properties of the
    program are stated and settled over those functions.

    Conventions of the embedding.
    - A Python [str] whose code points are below 256 is a [list ascii], one
      [ascii] per code point.  The regex classes [\w] and [\s] (and the
      white space of [str.strip]) follow Python's Unicode classes on all of
      0..255.  The case functions ([str.isupper], [str.lower], [str.upper],
      [str.capitalize]) follow Python on 0..127: the program applies them
      to matches of [[a-zA-Z]+] and to tokens, and the statements that
      depend on the case of a token ask for a token of ASCII characters.
    - A Python [dict] is an association list in insertion order with
      in-place update, since [create_lexicon] sorts [vocabulary.items()]
      stably and therefore depends on that order.
    - The module-level random source is an explicit stream [rnd : nat -> nat]
      read at a draw counter that is threaded through the computation.
    - A computation that may raise, or whose loop may not end, returns an
      [outcome]; loops that Python runs unboundedly take a fuel argument. *)

From Stdlib Require Import String.
From Stdlib Require Import List Ascii Bool Arith Lia PeanoNat.
From Stdlib Require Import Permutation Sorted.
Import ListNotations.

Local Open Scope list_scope.

(* ===================================================================== *)
(** ** Text                                                               *)
(* ===================================================================== *)

Definition str := list ascii.

(** String literals of the source, as character lists. *)
Definition lit (x : String.string) : str := String.list_ascii_of_string x.
Arguments lit x%_string.

Definition str_eq_dec : forall a b : str, {a = b} + {a <> b} :=
  list_eq_dec ascii_dec.

Definition str_eqb (a b : str) : bool :=
  if str_eq_dec a b then true else false.

Definition code (c : ascii) : nat := nat_of_ascii c.

Definition in_range (lo hi : nat) (c : ascii) : bool :=
  (lo <=? code c) && (code c <=? hi).

(** [c.isupper()], [c.islower()] for one character. *)
Definition is_upper (c : ascii) : bool := in_range 65 90 c.
Definition is_lower (c : ascii) : bool := in_range 97 122 c.

(** The regex classes [[a-zA-Z]], [\d] (and [[0-9]]), [\w], [\s],
    [[A-Z0-9]] and [[.!?;:,]].  The patterns of the program are [str]
    patterns, so [\w] and [\s] are the Unicode classes: above 127, [\w]
    also holds the letters and numeric characters of Latin-1 (the ordinal
    indicators, the micro sign, the superscript digits, the fractions and
    the accented letters), and [\s] also holds NEL (133) and the no-break
    space (160).  [\d] has no member above 127 that is below 256. *)
Definition is_letter (c : ascii) : bool := is_upper c || is_lower c.
Definition is_digit (c : ascii) : bool := in_range 48 57 c.
Definition is_latin1_alnum (c : ascii) : bool :=
  existsb (fun p => code c =? p) [170; 178; 179; 181; 185; 186; 188; 189; 190]
  || in_range 192 214 c || in_range 216 246 c || in_range 248 255 c.
Definition is_word (c : ascii) : bool :=
  is_letter c || is_digit c || (code c =? 95) || is_latin1_alnum c.
Definition is_space (c : ascii) : bool :=
  in_range 9 13 c || in_range 28 32 c || (code c =? 133) || (code c =? 160).
Definition is_code_char (c : ascii) : bool := is_upper c || is_digit c.
Definition is_punct (c : ascii) : bool :=
  existsb (fun p => code c =? p) [46; 33; 63; 59; 58; 44].

Definition backslash : ascii := ascii_of_nat 92.
Definition newline : ascii := ascii_of_nat 10.
Definition space : ascii := ascii_of_nat 32.
Definition dquote : ascii := ascii_of_nat 34.

Definition is_backslash (c : ascii) : bool := code c =? 92.
Definition is_newline (c : ascii) : bool := code c =? 10.
Definition is_dquote (c : ascii) : bool := code c =? 34.

(** Case mapping of one character, as Python has it on 0..127.  (Above
    127 Python's [upper] leaves the range of [ascii] on three characters
    and lengthens the string on one of them; see [is_ascii].) *)
Definition to_lower (c : ascii) : ascii :=
  if is_upper c then ascii_of_nat (code c + 32) else c.
Definition to_upper (c : ascii) : ascii :=
  if is_lower c then ascii_of_nat (code c - 32) else c.

(** [w.lower()], [w.upper()], [w.capitalize()], [w.isupper()]. *)
Definition lower (w : str) : str := map to_lower w.
Definition upper (w : str) : str := map to_upper w.
Definition capitalize (w : str) : str :=
  match w with
  | [] => []
  | c :: r => to_upper c :: lower r
  end.
Definition isupper (w : str) : bool :=
  existsb is_upper w && negb (existsb is_lower w).

(** The characters on which the case functions above are Python's. *)
Definition is_ascii (c : ascii) : bool := code c <? 128.

(** [w[0].isupper()]; the words the program applies it to come from
    [[a-zA-Z]+] and are never empty. *)
Definition first_isupper (w : str) : bool :=
  match w with
  | [] => false
  | c :: _ => is_upper c
  end.

(* ===================================================================== *)
(** ** Dictionaries                                                       *)
(* ===================================================================== *)

Section Dict.
Context {V : Type}.

Definition dict := list (str * V).

(** [d.get(k)] / [k in d]. *)
Fixpoint lookup (k : str) (d : dict) : option V :=
  match d with
  | [] => None
  | (k', v) :: r => if str_eqb k k' then Some v else lookup k r
  end.

Definition mem (k : str) (d : dict) : bool :=
  match lookup k d with Some _ => true | None => false end.

(** [d[k] = v]: the value of an existing key is replaced where it stands,
    a new key goes to the end. *)
Fixpoint store (k : str) (v : V) (d : dict) : dict :=
  match d with
  | [] => [(k, v)]
  | (k', v') :: r =>
      if str_eqb k k' then (k', v) :: r else (k', v') :: store k v r
  end.

Definition keys (d : dict) : list str := map fst d.
End Dict.

Arguments dict V : clear implicits.

(* ===================================================================== *)
(** ** Outcomes and the random source                                     *)
(* ===================================================================== *)

Inductive outcome (A : Type) : Type :=
| Ok (a : A)
| IndexError
| OutOfFuel.

Arguments Ok {A} a.
Arguments IndexError {A}.
Arguments OutOfFuel {A}.

(** A computation drawing from the random stream: it reads the stream at the
    current draw counter and returns the advanced counter. *)
Definition Rand (A : Type) : Type := (nat -> nat) -> nat -> outcome (A * nat).

Definition ret {A} (a : A) : Rand A := fun _ k => Ok (a, k).

Definition bind {A B} (m : Rand A) (f : A -> Rand B) : Rand B :=
  fun rnd k =>
    match m rnd k with
    | Ok (a, k') => f a rnd k'
    | IndexError => IndexError
    | OutOfFuel => OutOfFuel
    end.

Notation "'let!' x ':=' m 'in' f" := (bind m (fun x => f))
  (at level 10, x name, m at level 100, f at level 200).

(** [random.choice(seq)]: raises [IndexError] on an empty sequence. *)
Definition choice {A} (l : list A) : Rand A :=
  fun rnd k =>
    match nth_error l (rnd k mod length l) with
    | Some a => Ok (a, S k)
    | None => IndexError
    end.

(** [''.join(random.choice(cs) for _ in range(4))]. *)
Definition random_word (cs : str) : Rand str :=
  let! a := choice cs in
  let! b := choice cs in
  let! c := choice cs in
  let! d := choice cs in
  ret [a; b; c; d].

(* ===================================================================== *)
(** ** TokenGenerator: [generate_unique_nonsense_words]                   *)
(* ===================================================================== *)

Definition starts_with (c : ascii) (w : str) : bool :=
  match w with
  | [] => false
  | x :: _ => code x =? code c
  end.

Definition ends_with (c : ascii) (w : str) : bool :=
  match rev w with
  | [] => false
  | x :: _ => code x =? code c
  end.

Definition lbracket : ascii := ascii_of_nat 91.
Definition rbracket : ascii := ascii_of_nat 93.

(** Lines 59-60: [chars[1:-1]] when wrapped in brackets. *)
Definition strip_brackets (chars : str) : str :=
  if starts_with lbracket chars && ends_with rbracket chars
  then removelast (tl chars)
  else chars.

(** [words.add(word)] on a set kept in insertion order. *)
Definition set_add (w : str) (words : list str) : list str :=
  if in_dec str_eq_dec w words then words else words ++ [w].

(** Lines 71-73: the rejection-sampling loop. *)
Fixpoint sample_loop (fuel : nat) (char_list : str) (num_words : nat)
    (words : list str) : Rand (list str) :=
  if length words <? num_words then
    match fuel with
    | O => fun _ _ => OutOfFuel
    | S fuel' =>
        let! word := random_word char_list in
        sample_loop fuel' char_list num_words (set_add word words)
    end
  else ret words.

(** What the generator hands back: the tokens, and whether the warning of
    line 68 was printed.  [list(words)] lists a Python set in an order the
    language does not fix; the model lists it in insertion order. *)
Record generated := { tokens : list str; warned : bool }.

Definition generate_unique_nonsense_words (fuel : nat) (chars : str)
    (num_words : nat) : Rand generated :=
  let chars := strip_brackets chars in
  let char_list := chars in
  let max_possible := length char_list ^ 4 in
  let warn := max_possible <? num_words in
  let num_words := if warn then max_possible else num_words in
  let! words := sample_loop fuel char_list num_words [] in
  ret {| tokens := words; warned := warn |}.

(* ===================================================================== *)
(** ** Vocabulary records                                                 *)
(* ===================================================================== *)

(** The value stored per lower-case word: ['original'], ['preserve_caps'],
    ['count']. *)
Record word_info := {
  original : str;
  preserve_caps : bool;
  count : nat
}.

Definition vocabulary := dict word_info.
Definition lexicon := dict str.

(* ===================================================================== *)
(** ** LexiconBuilder: [create_lexicon]                                   *)
(* ===================================================================== *)

(** [vocab_items.sort(key=count, reverse=True)]: a stable sort, descending.
    An entry is placed after every entry whose count is at least its own. *)
Fixpoint insert_desc (x : str * word_info) (l : list (str * word_info))
    : list (str * word_info) :=
  match l with
  | [] => [x]
  | y :: r =>
      if count (snd y) <? count (snd x) then x :: y :: r
      else y :: insert_desc x r
  end.

Definition sort_desc (l : list (str * word_info)) : list (str * word_info) :=
  fold_left (fun acc x => insert_desc x acc) l [].

(** Lines 85-91, one iteration at index [i]. *)
Definition assign (nonsense_words : list str) (i : nat) (word_lower : str)
    (lex : lexicon) : Rand lexicon :=
  if i <? length nonsense_words then
    match nth_error nonsense_words i with
    | Some tok => ret (store word_lower tok lex)
    | None => fun _ _ => IndexError
    end
  else
    match nth_error nonsense_words 0 with
    | Some first =>
        let! additional_word := random_word first in
        ret (store word_lower additional_word lex)
    | None => fun _ _ => IndexError
    end.

Fixpoint assign_all (nonsense_words : list str) (i : nat)
    (items : list (str * word_info)) (lex : lexicon) : Rand lexicon :=
  match items with
  | [] => ret lex
  | (word_lower, _) :: rest =>
      let! lex' := assign nonsense_words i word_lower lex in
      assign_all nonsense_words (S i) rest lex'
  end.

Definition create_lexicon (vocab : vocabulary) (nonsense_words : list str)
    : Rand lexicon :=
  let vocab_items := sort_desc vocab in
  assign_all nonsense_words 0 vocab_items [].

(* ===================================================================== *)
(** ** Regular-expression scanning                                        *)
(* ===================================================================== *)

(** A pattern is given by its matcher: [match_at prev text] is the length of
    the match that starts at the head of [text], where [prev] is the text
    before it, nearest character first.  None of the program's patterns
    matches the empty string, so a length of 0 is read as no match. *)
Definition matcher := str -> str -> option nat.

(** Number of leading characters in a class: a greedy repetition. *)
Fixpoint run (p : ascii -> bool) (text : str) : nat :=
  match text with
  | c :: r => if p c then S (run p r) else 0
  | [] => 0
  end.

(** Backtracking of one greedy repetition: the longest length from [n] down
    to 1 at which the rest of the pattern succeeds. *)
Fixpoint longest_ok (ok : nat -> bool) (n : nat) : option nat :=
  match n with
  | O => None
  | S m => if ok (S m) then Some (S m) else longest_ok ok m
  end.

(** [prev] after [k] more characters of [text] have been consumed. *)
Definition advance (k : nat) (prev text : str) : str :=
  rev (firstn k text) ++ prev.

Definition word_before (prev : str) : bool :=
  match prev with c :: _ => is_word c | [] => false end.
Definition word_at (text : str) : bool :=
  match text with c :: _ => is_word c | [] => false end.

(** [\b]: exactly one side is a word character. *)
Definition boundary (prev text : str) : bool :=
  xorb (word_before prev) (word_at text).

(** [re.sub(pattern, repl, text)]: leftmost matches, not overlapping; the
    scan resumes where a match ended.  [skip] counts the characters of the
    current match still to be passed over.  [repl] sees the text before the
    match (as [match.start()] gives it to [replace_word]) and the match. *)
Section Scan.
Variable match_at : matcher.

Fixpoint re_sub_from (repl : str -> str -> str) (prev : str) (skip : nat)
    (text : str) : str :=
  match text with
  | [] => []
  | c :: rest =>
      match skip with
      | S n => re_sub_from repl (c :: prev) n rest
      | O =>
          match match_at prev text with
          | Some (S n) =>
              repl prev (firstn (S n) text)
                ++ re_sub_from repl (c :: prev) n rest
          | _ => c :: re_sub_from repl (c :: prev) 0 rest
          end
      end
  end.

Definition re_sub (repl : str -> str -> str) (text : str) : str :=
  re_sub_from repl [] 0 text.

(** [re.finditer]: for each match, the matched text and the text after
    the end of the match. *)
Fixpoint re_finditer_from (prev : str) (skip : nat) (text : str)
    : list (str * str) :=
  match text with
  | [] => []
  | c :: rest =>
      match skip with
      | S n => re_finditer_from (c :: prev) n rest
      | O =>
          match match_at prev text with
          | Some (S n) =>
              (firstn (S n) text, skipn (S n) text)
                :: re_finditer_from (c :: prev) n rest
          | _ => re_finditer_from (c :: prev) 0 rest
          end
      end
  end.

Definition re_finditer (text : str) : list (str * str) :=
  re_finditer_from [] 0 text.

Definition re_findall (text : str) : list str :=
  map fst (re_finditer text).
End Scan.

(** [r'\b[a-zA-Z]+\b'] (line 25). *)
Definition match_plain_word : matcher := fun prev text =>
  if boundary prev text then
    longest_ok (fun k => boundary (advance k prev text) (skipn k text))
               (run is_letter text)
  else None.

(** [(?<!\\[a-zA-Z])]: the two characters before the position are not a
    backslash followed by a letter. *)
Definition lookbehind_tag (prev : str) : bool :=
  match prev with
  | l :: b :: _ => is_letter l && is_backslash b
  | _ => false
  end.

(** [r'(?<!\\[a-zA-Z])\b[a-zA-Z]+\b'] (line 138). *)
Definition match_word : matcher := fun prev text =>
  if negb (lookbehind_tag prev) then match_plain_word prev text else None.

(** The literal [\id] at the head of [text], and the text after it. *)
Definition after_id_tag (text : str) : option str :=
  match text with
  | b :: i :: d :: rest =>
      if is_backslash b && (code i =? 105) && (code d =? 100)
      then Some rest else None
  | _ => None
  end.

(** [r'\\id\s+'] (line 107). *)
Definition match_id_tag : matcher := fun _ text =>
  match after_id_tag text with
  | Some rest =>
      match run is_space rest with
      | O => None
      | S n => Some (3 + S n)
      end
  | None => None
  end.

(** [r'\\id\s+([A-Z0-9]+).*'] (line 141).  [\s+] gives white space back
    until a code character follows; [[A-Z0-9]+] and [.*] are followed by
    nothing that can fail, and [.] stops at a line feed. *)
Definition match_id_line : matcher := fun _ text =>
  match after_id_tag text with
  | Some rest =>
      match longest_ok (fun k => 0 <? run is_code_char (skipn k rest))
                       (run is_space rest) with
      | Some ws =>
          let after_ws := skipn ws rest in
          let cd := run is_code_char after_ws in
          let tail := run (fun c => negb (is_newline c)) (skipn cd after_ws) in
          Some (3 + ws + cd + tail)
      | None => None
      end
  | None => None
  end.

(** Group 1 of a match of the pattern above. *)
Definition id_line_code (matched : str) : str :=
  match after_id_tag matched with
  | Some rest =>
      match longest_ok (fun k => 0 <? run is_code_char (skipn k rest))
                       (run is_space rest) with
      | Some ws =>
          let after_ws := skipn ws rest in
          firstn (run is_code_char after_ws) after_ws
      | None => []
      end
  | None => []
  end.

(** The two-character patterns of lines 145-153. *)
Definition match_pair (p q : ascii -> bool) : matcher := fun _ text =>
  match text with
  | a :: b :: _ => if p a && q b then Some 2 else None
  | _ => None
  end.

(** The patterns of lines 150 and 153 are pairs too; all four replacements
    put one space between the two characters. *)
Definition space_between (_ : str) (matched : str) : str :=
  match matched with
  | a :: r => a :: space :: r
  | [] => []
  end.

(** The tag pattern of line 18: a backslash, letters, optional digits,
    optional white space, and an optional numeric argument with its white
    space.  Every item after the letters may be empty, so each greedy run
    is final. *)
Definition match_tag : matcher := fun _ text =>
  match text with
  | b :: rest =>
      if is_backslash b then
        match run is_letter rest with
        | O => None
        | S n =>
            let r1 := skipn (S n) rest in
            let d := run is_digit r1 in
            let r2 := skipn d r1 in
            let w := run is_space r2 in
            let r3 := skipn w r2 in
            let arg :=
              match run is_digit r3 with
              | O => 0
              | S m => S m + run is_space (skipn (S m) r3)
              end in
            Some (1 + S n + d + w + arg)
        end
      else None
  | [] => None
  end.

(** [re.split(r'[.!?]+', text)]. *)
Definition is_sentence_end (c : ascii) : bool :=
  existsb (fun p => code c =? p) [46; 33; 63].

Fixpoint split_sentences_from (in_delim : bool) (cur : str) (text : str)
    : list str :=
  match text with
  | [] => [rev cur]
  | c :: rest =>
      if is_sentence_end c then
        if in_delim then split_sentences_from true cur rest
        else rev cur :: split_sentences_from true [] rest
      else split_sentences_from false (c :: cur) rest
  end.

Definition split_sentences (text : str) : list str :=
  split_sentences_from false [] text.

(** [sentence.strip()]. *)
Fixpoint lstrip (w : str) : str :=
  match w with
  | c :: r => if is_space c then lstrip r else w
  | [] => []
  end.

Definition strip (w : str) : str := rev (lstrip (rev (lstrip w))).

(* ===================================================================== *)
(** ** VocabularyExtractor: [extract_vocabulary_from_usfm]                *)
(* ===================================================================== *)

(** Lines 31-38. *)
Definition classify (i : nat) (word : str) : bool :=
  if first_isupper word && (0 <? i) then true
  else if isupper word && (1 <? length word) then true
  else false.

(** Lines 28-52: one word of a sentence, at index [i]. *)
Definition sight (i : nat) (word : str) (vocab : vocabulary) : vocabulary :=
  let word_lower := lower word in
  let preserve := classify i word in
  match lookup word_lower vocab with
  | None =>
      store word_lower
        {| original := if preserve then word else word_lower;
           preserve_caps := preserve;
           count := 1 |} vocab
  | Some r =>
      let r1 := {| original := original r;
                   preserve_caps := preserve_caps r;
                   count := count r + 1 |} in
      if preserve && negb (preserve_caps r1) then
        store word_lower
          {| original := word; preserve_caps := true; count := count r1 |}
          vocab
      else store word_lower r1 vocab
  end.

(** [for i, word in enumerate(words)]. *)
Fixpoint sight_words (i : nat) (words : list str) (vocab : vocabulary)
    : vocabulary :=
  match words with
  | [] => vocab
  | word :: rest => sight_words (S i) rest (sight i word vocab)
  end.

Definition sentence_words (sentence : str) : list str :=
  re_findall match_plain_word (strip sentence).

Definition sight_sentences (sentences : list str) (vocab : vocabulary)
    : vocabulary :=
  fold_left (fun v sentence => sight_words 0 (sentence_words sentence) v)
            sentences vocab.

Definition extract_vocabulary_from_usfm (content : str) : vocabulary :=
  let text_only := re_sub match_tag (fun _ _ => [space]) content in
  let sentences := split_sentences text_only in
  sight_sentences sentences [].

(* ===================================================================== *)
(** ** VocabularyMerger: lines 175-189 of [process_usfm_directory]        *)
(* ===================================================================== *)

(** Lines 182-189: one entry of a file's vocabulary. *)
Definition merge_entry (all_vocabulary : vocabulary)
    (entry : str * word_info) : vocabulary :=
  let (word_lower, info) := entry in
  match lookup word_lower all_vocabulary with
  | Some r =>
      let r1 := {| original := original r;
                   preserve_caps := preserve_caps r;
                   count := count r + count info |} in
      if preserve_caps info && negb (preserve_caps r1) then
        store word_lower
          {| original := original info; preserve_caps := true;
             count := count r1 |} all_vocabulary
      else store word_lower r1 all_vocabulary
  | None => store word_lower info all_vocabulary
  end.

Definition merge_file (all_vocabulary file_vocab : vocabulary) : vocabulary :=
  fold_left merge_entry file_vocab all_vocabulary.

Definition merge_vocabularies (file_vocabs : list vocabulary) : vocabulary :=
  fold_left merge_file file_vocabs [].

(* ===================================================================== *)
(** ** DocumentRewriter: [transform_usfm_content]                         *)
(* ===================================================================== *)

(** Lines 104-114: is the position after the last [\id] tag of the
    preceding text, with no line feed in between? *)
Definition on_id_line (preceding_text : str) : bool :=
  match rev (re_finditer match_id_tag preceding_text) with
  | (_, text_after_id) :: _ => negb (existsb is_newline text_after_id)
  | [] => false
  end.

(** Lines 116-134. *)
Definition apply_lexicon (lex : lexicon) (vocab : vocabulary) (word : str)
    : str :=
  let word_lower := lower word in
  match lookup word_lower lex with
  | Some replacement =>
      match lookup word_lower vocab with
      | Some info =>
          if preserve_caps info then
            let original := original info in
            let replacement :=
              if first_isupper original then capitalize replacement
              else replacement in
            if isupper original then upper replacement else replacement
          else if first_isupper word then capitalize replacement
          else if isupper word then upper replacement
          else replacement
      | None =>
          if first_isupper word then capitalize replacement
          else if isupper word then upper replacement
          else replacement
      end
  | None => word
  end.

(** [replace_word(match)]: [prev] is [content[:match.start()]], nearest
    character first, and [word] is [match.group(0)]. *)
Definition replace_word (lex : lexicon) (vocab : vocabulary)
    (prev : str) (word : str) : str :=
  let preceding_text := rev prev in
  if on_id_line preceding_text then word
  else apply_lexicon lex vocab word.

(** Line 138. *)
Definition replace_words (lex : lexicon) (vocab : vocabulary) (content : str)
    : str :=
  re_sub match_word (replace_word lex vocab) content.

(** Line 141: the replacement [r'\\id \1'] and the substitution. *)
Definition id_line_repl (_ : str) (matched : str) : str :=
  lit "\id " ++ id_line_code matched.

Definition clean_id_lines (text : str) : str :=
  re_sub match_id_line id_line_repl text.

(** Lines 145, 147, 150 and 153. *)
Definition space_before_punct : str -> str :=
  re_sub (match_pair is_word is_punct) space_between.
Definition space_after_punct : str -> str :=
  re_sub (match_pair is_punct is_word) space_between.
Definition space_after_quote : str -> str :=
  re_sub (match_pair is_dquote is_word) space_between.
Definition space_before_backslash : str -> str :=
  re_sub (match_pair is_word is_backslash) space_between.

(** Lines 145-153 together. *)
Definition fix_spacing (text : str) : str :=
  space_before_backslash
    (space_after_quote (space_after_punct (space_before_punct text))).

(** Lines 141-153 together. *)
Definition post_process (text : str) : str :=
  fix_spacing (clean_id_lines text).

Definition transform_usfm_content (content : str) (lex : lexicon)
    (vocab : vocabulary) : str :=
  post_process (replace_words lex vocab content).

(* ===================================================================== *)
(** ** The pipeline of [process_usfm_directory] on the files' contents    *)
(* ===================================================================== *)

Definition process_contents (fuel : nat) (contents : list str) (chars : str)
    : Rand (lexicon * list str) :=
  let all_vocabulary :=
    merge_vocabularies (map extract_vocabulary_from_usfm contents) in
  let! g := generate_unique_nonsense_words fuel chars (length all_vocabulary) in
  let! lex := create_lexicon all_vocabulary (tokens g) in
  ret (lex, map (fun c => transform_usfm_content c lex all_vocabulary)
                contents).

(** Counting occurrences of a character, and markup tags: a backslash
    followed by a letter. *)
Definition count_char (p : ascii -> bool) (text : str) : nat :=
  length (filter p text).

Fixpoint tag_names (text : str) : list str :=
  match text with
  | [] => []
  | c :: rest =>
      if is_backslash c && (0 <? run is_letter rest)
      then firstn (run is_letter rest) rest :: tag_names rest
      else tag_names rest
  end.


(* ===================================================================== *)
(** ** Vocabulary histories and the record invariant                      *)
(* ===================================================================== *)

(** What can happen to a vocabulary: a word is sighted during extraction,
    or an entry of another vocabulary is merged into it. *)
Inductive event : Type :=
| Sighting (i : nat) (word : str)
| Merging (entry : str * word_info).

Definition apply_event (vocab : vocabulary) (e : event) : vocabulary :=
  match e with
  | Sighting i word => sight i word vocab
  | Merging entry => merge_entry vocab entry
  end.

Definition apply_events (vocab : vocabulary) (es : list event) : vocabulary :=
  fold_left apply_event es vocab.

(** The record of [k] is latched: it preserves capitals, with display form
    [shown]. *)
Definition latched (k shown : str) (vocab : vocabulary) : Prop :=
  exists r, lookup k vocab = Some r
            /\ preserve_caps r = true /\ original r = shown.

(** The display form lower-cases to the key, and is the key itself unless
    capitals are preserved. *)
Definition wf_entry (e : str * word_info) : Prop :=
  lower (original (snd e)) = fst e
  /\ (preserve_caps (snd e) = false -> original (snd e) = fst e).

Definition wf_vocabulary (vocab : vocabulary) : Prop := Forall wf_entry vocab.

(* ===================================================================== *)
(** ** Texts that differ by inserted spaces                               *)
(* ===================================================================== *)

(** [spaced a b]: [b] is [a] with zero or more space characters inserted;
    every character of [a] is in [b], unchanged and in the same order. *)
Inductive spaced : str -> str -> Prop :=
| spaced_nil : spaced [] []
| spaced_keep c a b : spaced a b -> spaced (c :: a) (c :: b)
| spaced_ins a b : spaced a b -> spaced a (space :: b).

(* ===================================================================== *)
(** ** Tokens                                                             *)
(* ===================================================================== *)

(** A 4-character string over the characters of [cs]. *)
Definition token_over (cs : str) (w : str) : Prop :=
  length w = 4 /\ Forall (fun c => In c cs) w.

(** [desc x y]: [x] may stand before [y] in descending-count order. *)
Definition desc (x y : str * word_info) : Prop :=
  count (snd y) <= count (snd x).

(** The token that index [n] of the sorted vocabulary is due: the [n]-th
    token of the list while the list lasts, and after that some
    4-character string over the characters of the first token. *)
Definition assigned (nonsense_words : list str) (n : nat) (tok : str) : Prop :=
  (n < length nonsense_words -> nth_error nonsense_words n = Some tok)
  /\ (length nonsense_words <= n ->
      exists first, nth_error nonsense_words 0 = Some first
                    /\ token_over first tok).

(** Does the first character of [text] belong to class [q]? *)
Definition head_in (q : ascii -> bool) (text : str) : bool :=
  match text with b :: _ => q b | [] => false end.

Definition not_newline (c : ascii) : bool := negb (is_newline c).

(* ===================================================================== *)
(** ** Normal forms of the fix-up passes                                  *)
(* ===================================================================== *)

(** No character in class [p] is directly followed by one in class [q]. *)
Fixpoint pair_free (p q : ascii -> bool) (text : str) : bool :=
  match text with
  | a :: (b :: _) as rest => negb (p a && q b) && pair_free p q rest
  | _ => true
  end.

(** The pairs of characters between which a spacing pass puts a space. *)
Definition gap_ok (a b : ascii) : bool :=
  (is_word a && is_punct b) || (is_punct a && is_word b)
  || (is_dquote a && is_word b) || (is_word a && is_backslash b).

(** [gapped a b]: [b] is [a] with single spaces put into some of those
    pairs. *)
Inductive gapped : str -> str -> Prop :=
| gapped_nil : gapped [] []
| gapped_keep c a b : gapped a b -> gapped (c :: a) (c :: b)
| gapped_ins c d a b :
    gap_ok c d = true -> gapped (d :: a) (d :: b) ->
    gapped (c :: d :: a) (c :: space :: d :: b).

(** At the head of [text] the identifier-line pattern does not match, or
    its match is left as it is by the replacement. *)
Definition settled_at (text : str) : bool :=
  match match_id_line [] text with
  | Some n => str_eqb (id_line_repl [] (firstn n text)) (firstn n text)
  | None => true
  end.

(** The same at every position of [text]. *)
Fixpoint settled (text : str) : bool :=
  match text with
  | [] => true
  | _ :: rest => settled_at text && settled rest
  end.

(** The end of a line: nothing, or a line feed. *)
Definition line_end (text : str) : Prop :=
  match text with
  | [] => True
  | c :: _ => is_newline c = true
  end.

(** [text] starts with a clean identifier line: the tag, one space, a code
    and the end of the line. *)
Definition clean_id_line (text : str) : Prop :=
  exists cdl rest,
    text = lit "\id " ++ cdl ++ rest
    /\ cdl <> [] /\ forallb is_code_char cdl = true /\ line_end rest.

(** No space can be put after any of the first [k] characters of [text]. *)
Fixpoint nogap (k : nat) (text : str) : bool :=
  match k, text with
  | S k', c :: rest =>
      negb (match rest with d :: _ => gap_ok c d | [] => false end)
      && nogap k' rest
  | _, _ => true
  end.

(** [same_to_backslash a b]: [a] and [b] are the same up to their first
    backslash, which both have or both lack. *)
Inductive same_to_backslash : str -> str -> Prop :=
| stb_nil : same_to_backslash [] []
| stb_cons c a b :
    is_backslash c = false -> same_to_backslash a b ->
    same_to_backslash (c :: a) (c :: b)
| stb_backslash a b : same_to_backslash (backslash :: a) (backslash :: b).

(* ===================================================================== *)
(** ** Sample data                                                        *)
(* ===================================================================== *)

Definition god_vocab : vocabulary :=
  [(lit "god", {| original := lit "God"; preserve_caps := true; count := 2 |})].

Definition lord_vocab : vocabulary :=
  [(lit "lord",
    {| original := lit "lord"; preserve_caps := false; count := 1 |})].

Definition demo_vocabulary : vocabulary :=
  [(lit "said", {| original := lit "said"; preserve_caps := false;
                   count := 10 |});
   (lit "the", {| original := lit "the"; preserve_caps := false;
                  count := 50 |});
   (lit "lord", {| original := lit "Lord"; preserve_caps := true;
                   count := 30 |})].

(** A lexicon for the words of the identifier line [\id GEN Genesis book]. *)
Definition genesis_lexicon : lexicon :=
  [(lit "gen", lit "abab"); (lit "genesis", lit "baba");
   (lit "book", lit "aabb")].

(* ===================================================================== *)
(** ** The rest of [process_usfm_directory]                               *)
(* ===================================================================== *)

(** The words that extraction sights in a document, in order (lines 18-25). *)
Definition document_words (content : str) : list str :=
  let text_only := re_sub match_tag (fun _ _ => [space]) content in
  concat (map sentence_words (split_sentences text_only)).

(** The sum of the counts of a vocabulary. *)
Definition total_count (vocab : vocabulary) : nat :=
  list_sum (map (fun e => count (snd e)) vocab).

(** The count recorded for [k], 0 when [k] is not a key. *)
Definition count_of (k : str) (vocab : vocabulary) : nat :=
  match lookup k vocab with Some r => count r | None => 0 end.

(** Python's order on strings: by code point, a proper prefix first. *)
Fixpoint str_compare (a b : str) : comparison :=
  match a, b with
  | [], [] => Eq
  | [], _ :: _ => Lt
  | _ :: _, [] => Gt
  | x :: a', y :: b' =>
      match Nat.compare (code x) (code y) with
      | Eq => str_compare a' b'
      | c => c
      end
  end.

(** The order on the pairs of [lexicon.items()]: by word, then by token. *)
Definition item_leb (x y : str * str) : bool :=
  match str_compare (fst x) (fst y) with
  | Lt => true
  | Gt => false
  | Eq => match str_compare (snd x) (snd y) with Gt => false | _ => true end
  end.

(** [sorted(lexicon.items())] (line 204): a stable ascending sort. *)
Fixpoint insert_asc (x : str * str) (l : list (str * str))
    : list (str * str) :=
  match l with
  | [] => [x]
  | y :: r => if item_leb y x then y :: insert_asc x r else x :: y :: r
  end.

Definition sorted_items (lex : lexicon) : list (str * str) :=
  fold_left (fun acc x => insert_asc x acc) lex [].

Definition tab : ascii := ascii_of_nat 9.

(** Lines 203-205: one line per entry, word, tab, token, line feed. *)
Definition lexicon_line (item : str * str) : str :=
  fst item ++ [tab] ++ snd item ++ [newline].

Definition lexicon_file (lex : lexicon) : str :=
  concat (map lexicon_line (sorted_items lex)).

(** What a run leaves in the output directory: [lexicon.txt] and one
    transformed file per input file, under the same name. *)
Record run_output := {
  lexicon_txt : str;
  transformed : list (str * str)
}.

(** Lines 166-222 on the files found, given as (name, content) pairs.  With
    no file the function returns before anything is written. *)
Definition process_usfm_directory (fuel : nat) (usfm_files : list (str * str))
    (chars : str) : Rand (option run_output) :=
  match usfm_files with
  | [] => ret None
  | _ =>
      let all_vocabulary :=
        merge_vocabularies
          (map (fun f => extract_vocabulary_from_usfm (snd f)) usfm_files) in
      let! g := generate_unique_nonsense_words fuel chars
                  (length all_vocabulary) in
      let! lex := create_lexicon all_vocabulary (tokens g) in
      ret (Some
             {| lexicon_txt := lexicon_file lex;
                transformed :=
                  map (fun f =>
                         (fst f,
                          transform_usfm_content (snd f) lex all_vocabulary))
                      usfm_files |})
  end.

(** Distinct words have distinct tokens. *)
Definition one_to_one (lex : lexicon) : Prop :=
  forall k1 k2 tok,
    lookup k1 lex = Some tok -> lookup k2 lex = Some tok -> k1 = k2.

(** [enumerate(words)] from index [i]. *)
Fixpoint enumerate_from (i : nat) (words : list str) : list (nat * str) :=
  match words with
  | [] => []
  | w :: rest => (i, w) :: enumerate_from (S i) rest
  end.

(** Every sighting of a word in a document: the word with its index in its
    sentence, in the order of the loops of lines 23-27. *)
Definition sightings (content : str) : list (nat * str) :=
  let text_only := re_sub match_tag (fun _ _ => [space]) content in
  concat (map (fun sentence => enumerate_from 0 (sentence_words sentence))
              (split_sentences text_only)).

(** The sightings whose lower-case form is [k]. *)
Definition sightings_of (k : str) (l : list (nat * str)) : list (nat * str) :=
  filter (fun x => str_eqb (lower (snd x)) k) l.

(** The preserve-caps flag recorded for [k], false when [k] is not a key. *)
Definition flag_of (k : str) (vocab : vocabulary) : bool :=
  match lookup k vocab with Some r => preserve_caps r | None => false end.

(** The distinct elements of a list of strings, in the order of their first
    occurrence. *)
Definition first_occurrences (l : list str) : list str :=
  fold_left (fun acc k => if in_dec str_eq_dec k acc then acc else acc ++ [k])
            l [].

(** All the 4-character strings over the characters of [cs]. *)
Definition all_tokens (cs : str) : list str :=
  flat_map (fun a =>
    flat_map (fun b =>
      flat_map (fun c => map (fun d => [a; b; c; d]) cs) cs) cs) cs.

(** The display form recorded for [k]; [k] itself when it is not a key. *)
Definition display_of (k : str) (vocab : vocabulary) : str :=
  match lookup k vocab with Some r => original r | None => k end.

(** Does sighting [x] call for preserve-caps (lines 31-38)? *)
Definition preserving (x : nat * str) : bool := classify (fst x) (snd x).
(* ===================================================================== *)
(** * Properties                                                          *)
(* ===================================================================== *)

(** ** Characters and dictionaries *)

Lemma str_eqb_true (a b : str) : str_eqb a b = true <-> a = b.
Proof.
  unfold str_eqb. destruct (str_eq_dec a b); split; congruence.
Qed.

Lemma str_eqb_refl (a : str) : str_eqb a a = true.
Proof. now apply str_eqb_true. Qed.

Lemma str_eqb_false (a b : str) : str_eqb a b = false <-> a <> b.
Proof.
  unfold str_eqb. destruct (str_eq_dec a b); split; congruence.
Qed.

Ltac each_ascii c :=
  destruct c as [[|] [|] [|] [|] [|] [|] [|] [|]].

Lemma to_lower_idem (c : ascii) : to_lower (to_lower c) = to_lower c.
Proof. each_ascii c; reflexivity. Qed.

Lemma lower_idem (w : str) : lower (lower w) = lower w.
Proof.
  unfold lower. rewrite map_map. apply map_ext. intro; apply to_lower_idem.
Qed.

Section DictFacts.
Context {V : Type}.
Implicit Types (d : dict V) (k : str) (v : V).

Lemma lookup_store_same k v d : lookup k (store k v d) = Some v.
Proof.
  induction d as [|[k' v'] d IH]; simpl.
  - now rewrite str_eqb_refl.
  - destruct (str_eqb k k') eqn:E; simpl; rewrite E; auto.
Qed.

Lemma lookup_store_other k k' v d :
  k <> k' -> lookup k' (store k v d) = lookup k' d.
Proof.
  intros Hne. induction d as [|[k0 v0] d IH]; simpl.
  - assert (str_eqb k' k = false) as -> by (apply str_eqb_false; congruence).
    reflexivity.
  - destruct (str_eqb k k0) eqn:E; simpl.
    + apply str_eqb_true in E. subst k0.
      assert (str_eqb k' k = false) as -> by (apply str_eqb_false; congruence).
      reflexivity.
    + now rewrite IH.
Qed.

Lemma lookup_In k v d : lookup k d = Some v -> In (k, v) d.
Proof.
  induction d as [|[k' v'] d IH]; simpl; [discriminate|].
  destruct (str_eqb k k') eqn:E.
  - apply str_eqb_true in E. intros [= ->]. left; congruence.
  - intros H. right; auto.
Qed.

Lemma lookup_None_keys k d : lookup k d = None <-> ~ In k (keys d).
Proof.
  induction d as [|[k' v'] d IH]; simpl; [tauto|].
  destruct (str_eqb k k') eqn:E.
  - apply str_eqb_true in E. split; [discriminate|]. intros H; exfalso; auto.
  - apply str_eqb_false in E. rewrite IH. split; intros H; [|tauto].
    intros [H1|H1]; [congruence|tauto].
Qed.

(** Storing keeps every entry that satisfies [P] when the stored one
    does. *)
Lemma store_Forall (P : str * V -> Prop) k v d :
  P (k, v) -> Forall P d -> Forall P (store k v d).
Proof.
  intros Hk. induction 1 as [|[k' v'] d Hx Hd IH]; simpl.
  - repeat constructor; assumption.
  - destruct (str_eqb k k') eqn:E.
    + apply str_eqb_true in E. subst. constructor; assumption.
    + constructor; assumption.
Qed.

Lemma keys_store_old k v d :
  In k (keys d) -> keys (store k v d) = keys d.
Proof.
  induction d as [|[k' v'] d IH]; simpl; [tauto|].
  destruct (str_eqb k k') eqn:E; simpl; [reflexivity|].
  apply str_eqb_false in E. intros [H|H]; [congruence|]. now rewrite IH.
Qed.

Lemma keys_store_new k v d :
  ~ In k (keys d) -> keys (store k v d) = keys d ++ [k].
Proof.
  induction d as [|[k' v'] d IH]; simpl; [reflexivity|].
  destruct (str_eqb k k') eqn:E; simpl.
  - apply str_eqb_true in E. intros H; exfalso; auto.
  - intros H. rewrite IH; tauto.
Qed.
End DictFacts.

(** ** Extraction and merging *)

Lemma sight_latched k shown i word vocab :
  latched k shown vocab -> latched k shown (sight i word vocab).
Proof.
  intros (r & Hr & Hp & Ho). unfold sight, latched.
  destruct (str_eq_dec (lower word) k) as [->|Hne].
  - rewrite Hr. simpl. rewrite Hp, andb_false_r.
    rewrite lookup_store_same. eexists; repeat split; simpl; auto.
  - destruct (lookup (lower word) vocab) as [r0|];
      [destruct (classify i word && negb (preserve_caps _))|];
      rewrite lookup_store_other by assumption; eauto.
Qed.

Lemma merge_entry_latched k shown entry vocab :
  latched k shown vocab -> latched k shown (merge_entry vocab entry).
Proof.
  intros (r & Hr & Hp & Ho). destruct entry as [w info].
  unfold merge_entry, latched.
  destruct (str_eq_dec w k) as [->|Hne].
  - rewrite Hr. simpl. rewrite Hp, andb_false_r.
    rewrite lookup_store_same. eexists; repeat split; simpl; auto.
  - destruct (lookup w vocab) as [r0|];
      [destruct (preserve_caps info && negb (preserve_caps _))|];
      rewrite lookup_store_other by assumption; eauto.
Qed.

Lemma apply_events_latched k shown es : forall vocab,
  latched k shown vocab -> latched k shown (apply_events vocab es).
Proof.
  induction es as [|e es IH]; intros vocab H; simpl; [assumption|].
  apply IH. destruct e; [apply sight_latched | apply merge_entry_latched];
    assumption.
Qed.

Lemma sight_words_latched k shown words : forall i vocab,
  latched k shown vocab -> latched k shown (sight_words i words vocab).
Proof.
  induction words as [|w ws IH]; intros i vocab H; simpl; [assumption|].
  apply IH, sight_latched, H.
Qed.

Lemma sight_sentences_latched k shown sentences : forall vocab,
  latched k shown vocab -> latched k shown (sight_sentences sentences vocab).
Proof.
  unfold sight_sentences.
  induction sentences as [|x xs IH]; intros vocab H; simpl; [assumption|].
  apply IH, sight_words_latched, H.
Qed.

Lemma merge_file_latched k shown file_vocab : forall vocab,
  latched k shown vocab -> latched k shown (merge_file vocab file_vocab).
Proof.
  unfold merge_file.
  induction file_vocab as [|e es IH]; intros vocab H; simpl; [assumption|].
  apply IH, merge_entry_latched, H.
Qed.

(** C8.  The preserveCaps flag is a one-way latch.  Once the record of a
    canonical form preserves capitals with some display form, it still does
    so, with the same display form, after any sequence of sightings and
    merges, after the extraction loop has run over any further sentences,
    and after any further file vocabularies have been merged in. *)
Theorem preserve_caps_latch (k shown : str) (vocab : vocabulary)
    (H : latched k shown vocab) :
  (forall es, latched k shown (apply_events vocab es))
  /\ (forall sentences, latched k shown (sight_sentences sentences vocab))
  /\ (forall files, latched k shown (fold_left merge_file files vocab)).
Proof.
  split; [|split].
  - intros es. now apply apply_events_latched.
  - intros ss. now apply sight_sentences_latched.
  - intros files. revert vocab H.
    induction files as [|f fs IH]; intros vocab H; simpl; [assumption|].
    apply IH, merge_file_latched, H.
Qed.

Lemma preserve_caps_latch_witness :
  latched (lit "god") (lit "God")
    (apply_events god_vocab
       [Sighting 0 (lit "god"); Sighting 3 (lit "GOD");
        Merging (lit "god", {| original := lit "god"; preserve_caps := false;
                               count := 4 |})]).
Proof.
  apply (preserve_caps_latch (lit "god") (lit "God") god_vocab).
  exists {| original := lit "God"; preserve_caps := true; count := 2 |}.
  repeat split; reflexivity.
Defined.

Lemma sight_wf i word vocab :
  wf_vocabulary vocab -> wf_vocabulary (sight i word vocab).
Proof.
  intros Hwf. unfold sight.
  destruct (lookup (lower word) vocab) as [r|] eqn:Hl.
  - apply lookup_In in Hl.
    pose proof (proj1 (Forall_forall _ _) Hwf _ Hl) as [H1 H2]. simpl in *.
    destruct (classify i word && negb (preserve_caps r)) eqn:E;
      apply store_Forall; auto; split; simpl; auto; discriminate.
  - apply store_Forall; auto.
    destruct (classify i word); split; simpl; auto using lower_idem.
    discriminate.
Qed.

Lemma merge_entry_wf vocab entry :
  wf_vocabulary vocab -> wf_entry entry ->
  wf_vocabulary (merge_entry vocab entry).
Proof.
  intros Hwf He. destruct entry as [w info]. unfold merge_entry.
  destruct He as [E1 E2]. simpl in *.
  destruct (lookup w vocab) as [r|] eqn:Hl.
  - apply lookup_In in Hl.
    pose proof (proj1 (Forall_forall _ _) Hwf _ Hl) as [H1 H2]. simpl in *.
    destruct (preserve_caps info && negb (preserve_caps r)) eqn:E;
      apply store_Forall; auto; split; simpl; auto; discriminate.
  - apply store_Forall; auto. split; auto.
Qed.

Lemma sight_words_wf words : forall i vocab,
  wf_vocabulary vocab -> wf_vocabulary (sight_words i words vocab).
Proof.
  induction words as [|w ws IH]; intros i vocab H; simpl; auto using sight_wf.
Qed.

Lemma sight_sentences_wf sentences : forall vocab,
  wf_vocabulary vocab -> wf_vocabulary (sight_sentences sentences vocab).
Proof.
  unfold sight_sentences.
  induction sentences as [|x xs IH]; intros vocab H; simpl;
    auto using sight_words_wf.
Qed.

Lemma extract_wf content : wf_vocabulary (extract_vocabulary_from_usfm content).
Proof. apply sight_sentences_wf. constructor. Qed.

Lemma merge_file_wf file_vocab : forall vocab,
  wf_vocabulary vocab -> wf_vocabulary file_vocab ->
  wf_vocabulary (merge_file vocab file_vocab).
Proof.
  unfold merge_file.
  induction file_vocab as [|e es IH]; intros vocab H Hf; simpl; [assumption|].
  inversion Hf; subst. apply IH; auto using merge_entry_wf.
Qed.

Lemma merge_vocabularies_wf_from files : forall vocab,
  wf_vocabulary vocab -> Forall wf_vocabulary files ->
  wf_vocabulary (fold_left merge_file files vocab).
Proof.
  induction files as [|f fs IH]; intros vocab H Hf; simpl; [assumption|].
  inversion Hf; subst. apply IH; auto using merge_file_wf.
Qed.

(** C9.  Every record of an extracted vocabulary, and of the merge of
    extracted vocabularies, has a display form that lower-cases to its key
    and that is the key itself when capitals are not preserved; each
    sighting and each merge of a well-formed entry keeps that invariant. *)
Theorem display_form_invariant :
  (forall content, wf_vocabulary (extract_vocabulary_from_usfm content))
  /\ (forall contents,
        wf_vocabulary
          (merge_vocabularies (map extract_vocabulary_from_usfm contents)))
  /\ (forall i word vocab,
        wf_vocabulary vocab -> wf_vocabulary (sight i word vocab))
  /\ (forall vocab entry,
        wf_vocabulary vocab -> wf_entry entry ->
        wf_vocabulary (merge_entry vocab entry)).
Proof.
  split; [|split; [|split]].
  - apply extract_wf.
  - intros contents. apply merge_vocabularies_wf_from; [constructor|].
    apply Forall_forall. intros v Hv. apply in_map_iff in Hv.
    destruct Hv as (c & <- & _). apply extract_wf.
  - apply sight_wf.
  - apply merge_entry_wf.
Qed.

Lemma display_form_invariant_witness :
  wf_vocabulary (sight 1 (lit "God") god_vocab)
  /\ wf_vocabulary
       (merge_entry god_vocab
          (lit "god", {| original := lit "GOD"; preserve_caps := true;
                         count := 1 |})).
Proof.
  assert (wf_vocabulary god_vocab) as Hg
    by (repeat constructor; simpl; discriminate).
  destruct display_form_invariant as (_ & _ & Hs & Hm). split.
  - apply Hs, Hg.
  - apply Hm; [exact Hg|]. split; simpl; [reflexivity|discriminate].
Defined.

(** ** The spacing passes only insert spaces *)

Lemma spaced_refl a : spaced a a.
Proof. induction a; constructor; assumption. Qed.

Lemma spaced_trans b c : spaced b c -> forall a, spaced a b -> spaced a c.
Proof.
  induction 1 as [|x b c Hbc IH|b c Hbc IH]; intros a Hab.
  - assumption.
  - inversion Hab; subst.
    + apply spaced_keep, IH; assumption.
    + apply spaced_ins, IH; assumption.
  - apply spaced_ins, IH, Hab.
Qed.

Lemma spaced_count p a b :
  p space = false -> spaced a b -> count_char p b = count_char p a.
Proof.
  intros Hp. unfold count_char.
  induction 1 as [|x a b H IH|a b H IH]; simpl; auto.
  - destruct (p x); simpl; auto.
  - rewrite Hp. assumption.
Qed.

Lemma spaced_filter p a b :
  p space = false -> spaced a b -> filter p b = filter p a.
Proof.
  intros Hp.
  induction 1 as [|x a b H IH|a b H IH]; simpl; auto.
  - destruct (p x); simpl; congruence.
  - rewrite Hp. assumption.
Qed.

(** A pair pass, one step at a time. *)
Lemma pair_pass_step p q prev text :
  re_sub_from (match_pair p q) space_between prev 0 text =
  match text with
  | a :: b :: r =>
      if p a && q b
      then a :: space :: b
             :: re_sub_from (match_pair p q) space_between (b :: a :: prev) 0 r
      else a :: re_sub_from (match_pair p q) space_between (a :: prev) 0 (b :: r)
  | _ => text
  end.
Proof.
  destruct text as [|a [|b r]]; try reflexivity.
  cbn [re_sub_from match_pair]. destruct (p a && q b); reflexivity.
Qed.

Lemma pair_pass_spaced p q text : forall prev,
  spaced text (re_sub_from (match_pair p q) space_between prev 0 text).
Proof.
  remember (length text) as n eqn:Hn. revert text Hn.
  induction n as [n IH] using lt_wf_ind. intros text Hn prev.
  rewrite pair_pass_step. destruct text as [|a [|b r]].
  - constructor.
  - apply spaced_refl.
  - simpl in Hn. destruct (p a && q b).
    + apply spaced_keep, spaced_ins, spaced_keep.
      apply (IH (length r)); [lia|reflexivity].
    + apply spaced_keep. apply (IH (length (b :: r))); simpl; [lia|reflexivity].
Qed.


(** ** The word pattern and markup tags *)

Lemma run_not_head p text :
  match text with c :: _ => p c = false | [] => True end -> run p text = 0.
Proof. destruct text as [|c r]; simpl; [reflexivity|]. now intros ->. Qed.

Lemma is_letter_word c : is_letter c = true -> is_word c = true.
Proof. unfold is_word. now intros ->. Qed.

(** The look-behind of line 138 asks for a backslash and a letter before the
    position, but a word can only start where the character before it is
    not a letter: the look-behind never rejects a match. *)
Lemma lookbehind_never_rejects prev text :
  match_word prev text = match_plain_word prev text.
Proof.
  unfold match_word. destruct (lookbehind_tag prev) eqn:E; [|reflexivity].
  simpl. unfold match_plain_word.
  destruct prev as [|l [|b prev]]; try discriminate. simpl in E.
  apply andb_prop in E. destruct E as [El _].
  unfold boundary. simpl. rewrite (is_letter_word _ El). simpl.
  destruct text as [|c r]; simpl; [reflexivity|].
  destruct (is_word c) eqn:Ew; simpl; [reflexivity|].
  destruct (is_letter c) eqn:Ec; [|reflexivity].
  apply is_letter_word in Ec. congruence.
Qed.

(** C3.  The word-replacement pass does replace tag names.  In the text
    [\add add] the run [add] after the backslash is the name of a tag, and a
    lexicon with an entry for [add] rewrites it; with a token made of digits
    the rewritten text has no markup tag left where the original had one. *)
Theorem tag_name_is_replaced :
  replace_words [(lit "add", lit "zzzz")] [] (lit "\add add")
    = lit "\zzzz zzzz"
  /\ transform_usfm_content (lit "\add add") [(lit "add", lit "zzzz")] []
    = lit "\zzzz zzzz"
  /\ tag_names (lit "\add add") = [lit "add"]
  /\ tag_names (replace_words [(lit "add", lit "1234")] [] (lit "\add add"))
    = [].
Proof. repeat split; vm_compute; reflexivity. Qed.

(** ** Casing of a replacement *)

(** Outside the preserve-caps branch an occurrence that starts with a
    capital always gets the capitalized token; the test for a fully
    upper-case occurrence sits behind it and is never reached. *)
Lemma own_casing_capital lex vocab word tok :
  lookup (lower word) lex = Some tok ->
  match lookup (lower word) vocab with
  | Some info => preserve_caps info = false
  | None => True
  end ->
  first_isupper word = true ->
  apply_lexicon lex vocab word = capitalize tok.
Proof.
  intros Hl Hv Hu. unfold apply_lexicon. rewrite Hl.
  destruct (lookup (lower word) vocab) as [info|].
  - rewrite Hv, Hu. reflexivity.
  - rewrite Hu. reflexivity.
Qed.

(** C4.  When capitals are not preserved, a fully upper-case occurrence
    gets the capitalized token, not the upper-case one: [LORD] becomes
    [Abcd].  The same happens in a whole run on the one-letter word [I] at
    the start of a sentence, which extraction records without
    preserve-caps. *)
Theorem uppercase_occurrence_is_only_capitalized :
  replace_word [(lit "lord", lit "abcd")] lord_vocab [] (lit "LORD")
    = lit "Abcd"
  /\ upper (lit "abcd") = lit "ABCD"
  /\ extract_vocabulary_from_usfm (lit "\v 1 I am.")
     = [(lit "i", {| original := lit "i"; preserve_caps := false; count := 1 |});
        (lit "am", {| original := lit "am"; preserve_caps := false; count := 1 |})]
  /\ transform_usfm_content (lit "\v 1 I am.")
       [(lit "i", lit "wxyz"); (lit "am", lit "abcd")]
       (extract_vocabulary_from_usfm (lit "\v 1 I am."))
     = lit "\v 1 Wxyz abcd .".
Proof. repeat split; vm_compute; reflexivity. Qed.

(** ** The token generator *)

Lemma choice_ok {A} (l : list A) rnd k :
  l <> [] -> exists a, choice l rnd k = Ok (a, S k) /\ In a l.
Proof.
  intros Hl. unfold choice.
  assert (rnd k mod length l < length l) as Hlt.
  { apply Nat.mod_upper_bound. destruct l; simpl; congruence. }
  destruct (nth_error l (rnd k mod length l)) as [a|] eqn:E.
  - exists a. split; [reflexivity|]. eapply nth_error_In, E.
  - apply nth_error_None in E. lia.
Qed.

Lemma choice_inv {A} (l : list A) rnd k a k' :
  choice l rnd k = Ok (a, k') -> In a l /\ k' = S k.
Proof.
  unfold choice. destruct (nth_error l (rnd k mod length l)) eqn:E;
    [|discriminate].
  intros [= <- <-]. split; [eapply nth_error_In, E|reflexivity].
Qed.

Lemma random_word_ok cs rnd k :
  cs <> [] ->
  exists w, random_word cs rnd k = Ok (w, 4 + k) /\ token_over cs w.
Proof.
  intros Hcs. unfold random_word, bind.
  destruct (choice_ok cs rnd k Hcs) as (a & -> & Ha).
  destruct (choice_ok cs rnd (S k) Hcs) as (b & -> & Hb).
  destruct (choice_ok cs rnd (S (S k)) Hcs) as (c & -> & Hc).
  destruct (choice_ok cs rnd (S (S (S k))) Hcs) as (d & -> & Hd).
  exists [a; b; c; d]. split; [reflexivity|].
  split; [reflexivity|]. repeat constructor; assumption.
Qed.

Lemma random_word_inv cs rnd k w k' :
  random_word cs rnd k = Ok (w, k') -> token_over cs w /\ k' = 4 + k.
Proof.
  unfold random_word, bind, ret.
  destruct (choice cs rnd k) as [[a k1]| |] eqn:E1; try discriminate.
  destruct (choice cs rnd k1) as [[b k2]| |] eqn:E2; try discriminate.
  destruct (choice cs rnd k2) as [[c k3]| |] eqn:E3; try discriminate.
  destruct (choice cs rnd k3) as [[d k4]| |] eqn:E4; try discriminate.
  intros [= <- <-].
  apply choice_inv in E1, E2, E3, E4.
  destruct E1 as [? ->], E2 as [? ->], E3 as [? ->], E4 as [? ->].
  split; [|reflexivity]. split; [reflexivity|]. repeat constructor; assumption.
Qed.

Lemma set_add_NoDup w words : NoDup words -> NoDup (set_add w words).
Proof.
  intros H. unfold set_add. destruct (in_dec str_eq_dec w words); [assumption|].
  apply NoDup_app; [assumption|repeat constructor; simpl; tauto|].
  intros x Hx [<-|[]]. contradiction.
Qed.

Lemma set_add_Forall (P : str -> Prop) w words :
  P w -> Forall P words -> Forall P (set_add w words).
Proof.
  intros Hw H. unfold set_add. destruct (in_dec str_eq_dec w words); auto.
  apply Forall_app. auto.
Qed.

Lemma set_add_length w words :
  length words <= length (set_add w words) <= S (length words).
Proof.
  unfold set_add. destruct (in_dec str_eq_dec w words); [lia|].
  rewrite length_app. simpl. lia.
Qed.

(** When the sampling loop returns, it returns exactly the requested number
    of distinct tokens over the alphabet. *)
Lemma sample_loop_sound fuel cs n : forall words rnd k ws k',
  NoDup words -> Forall (token_over cs) words -> length words <= n ->
  sample_loop fuel cs n words rnd k = Ok (ws, k') ->
  NoDup ws /\ Forall (token_over cs) ws /\ length ws = n.
Proof.
  induction fuel as [|fuel IH]; intros words rnd k ws k' Hnd Hall Hlen;
    simpl; destruct (length words <? n) eqn:E.
  - discriminate.
  - apply Nat.ltb_ge in E. intros [= <- <-]. repeat split; auto; lia.
  - apply Nat.ltb_lt in E. unfold bind.
    destruct (random_word cs rnd k) as [[w k1]| |] eqn:Ew; try discriminate.
    apply random_word_inv in Ew. destruct Ew as [Hw ->].
    apply IH; auto using set_add_NoDup, set_add_Forall.
    pose proof (set_add_length w words). lia.
  - apply Nat.ltb_ge in E. intros [= <- <-]. repeat split; auto; lia.
Qed.

(** Whenever the generator returns, it returns [min N (|A|^4)] pairwise
    distinct tokens over the stripped alphabet [A], and it has warned
    exactly when [N] exceeds [|A|^4]. *)
Lemma generate_sound fuel chars n rnd k g k' :
  generate_unique_nonsense_words fuel chars n rnd k = Ok (g, k') ->
  NoDup (tokens g)
  /\ Forall (token_over (strip_brackets chars)) (tokens g)
  /\ length (tokens g) = Nat.min n (length (strip_brackets chars) ^ 4)
  /\ warned g = (length (strip_brackets chars) ^ 4 <? n).
Proof.
  unfold generate_unique_nonsense_words, bind, ret.
  generalize (length (strip_brackets chars) ^ 4). intros m.
  destruct (sample_loop _ _ _ _ _ _) as [[ws k1]| |] eqn:E; try discriminate.
  intros [= <- <-]. simpl.
  apply sample_loop_sound in E; [|constructor|constructor|simpl; lia].
  destruct E as (H1 & H2 & H3). repeat split; auto.
  rewrite H3. destruct (m <? n) eqn:El.
  - apply Nat.ltb_lt in El. lia.
  - apply Nat.ltb_ge in El. lia.
Qed.

(** Two runs of the generator: a bracketed alphabet and a request it can
    meet, and a request beyond what the alphabet allows. *)
Example generate_two_tokens :
  generate_unique_nonsense_words 5 (lit "[ab]") 2 (fun i => i / 4) 0
  = Ok ({| tokens := [lit "aaaa"; lit "bbbb"]; warned := false |}, 8).
Proof. reflexivity. Qed.

Example generate_clamped :
  generate_unique_nonsense_words 5 (lit "a") 20 (fun i => i) 0
  = Ok ({| tokens := [lit "aaaa"]; warned := true |}, 4).
Proof. reflexivity. Qed.

(** With the two-character alphabet [aa] every draw is [aaaa]. *)
Lemma random_word_aa rnd k :
  random_word (lit "aa") rnd k = Ok (lit "aaaa", 4 + k).
Proof.
  destruct (random_word_ok (lit "aa") rnd k) as (w & -> & Hl & Hw);
    [discriminate|].
  do 5 (destruct w as [|? w]; try discriminate).
  repeat match goal with
         | H : Forall _ (_ :: _) |- _ => inversion H; subst; clear H
         end.
  repeat match goal with
         | H : In _ (lit "aa") |- _ =>
             destruct H as [<-|[<-|[]]]
         end; reflexivity.
Qed.

Lemma sample_loop_aa fuel : forall words rnd k,
  words = [] \/ words = [lit "aaaa"] ->
  sample_loop fuel (lit "aa") 2 words rnd k = OutOfFuel.
Proof.
  induction fuel as [|fuel IH]; intros words rnd k Hw.
  - destruct Hw as [-> | ->]; reflexivity.
  - assert ((length words <? 2) = true) as E
      by (destruct Hw as [-> | ->]; reflexivity).
    simpl. rewrite E. unfold bind. rewrite random_word_aa.
    apply IH. right. destruct Hw as [-> | ->]; reflexivity.
Qed.

(** C2.  For the alphabet [aa] and the request of 2 tokens, which is within
    [|A|^4 = 16], the generator never returns: whatever the random source
    and however much fuel, the loop draws [aaaa] again and again and holds
    one token for ever. *)
Theorem generator_diverges_on_repeated_characters :
  length (strip_brackets (lit "aa")) ^ 4 = 16
  /\ forall fuel rnd k,
       generate_unique_nonsense_words fuel (lit "aa") 2 rnd k = OutOfFuel.
Proof.
  split; [reflexivity|]. intros fuel rnd k.
  unfold generate_unique_nonsense_words, bind.
  change (strip_brackets (lit "aa")) with (lit "aa").
  change (if length (lit "aa") ^ 4 <? 2 then length (lit "aa") ^ 4 else 2)
    with 2.
  rewrite sample_loop_aa; [reflexivity|now left].
Qed.

(** C7, as stated: on the empty alphabet the generator raises nothing; it
    warns and returns the empty list. *)
Lemma empty_alphabet_returns_normally :
  generate_unique_nonsense_words 0 (lit "") 5 (fun _ => 0) 0
    = Ok ({| tokens := []; warned := true |}, 0).
Proof. reflexivity. Qed.

(** C7, amended.  For an alphabet that is empty once its brackets are
    stripped, and any requested count, the generator returns at once,
    without a single draw and without fuel: it yields the empty token list,
    and has warned exactly when the count was positive.  It neither hangs
    nor raises. *)
Theorem empty_alphabet_yields_no_tokens (chars : str) (n fuel : nat)
    (rnd : nat -> nat) (k : nat) (H : strip_brackets chars = []) :
  generate_unique_nonsense_words fuel chars n rnd k
    = Ok ({| tokens := []; warned := 0 <? n |}, k).
Proof.
  unfold generate_unique_nonsense_words, bind, ret. rewrite H. simpl.
  destruct n; simpl; destruct fuel; reflexivity.
Qed.

Lemma empty_alphabet_yields_no_tokens_witness :
  generate_unique_nonsense_words 0 (lit "[]") 3 (fun i => i) 7
    = Ok ({| tokens := []; warned := true |}, 7).
Proof.
  apply (empty_alphabet_yields_no_tokens (lit "[]") 3 0 (fun i => i) 7).
  reflexivity.
Defined.

(** ** The lexicon builder *)

Lemma insert_desc_perm x l : Permutation (insert_desc x l) (x :: l).
Proof.
  induction l as [|y r IH]; simpl; [reflexivity|].
  destruct (count (snd y) <? count (snd x)); [reflexivity|].
  rewrite IH. apply perm_swap.
Qed.

Lemma sort_desc_perm_from l : forall acc,
  Permutation (fold_left (fun a x => insert_desc x a) l acc) (acc ++ l).
Proof.
  induction l as [|x l IH]; intros acc; simpl.
  - now rewrite app_nil_r.
  - rewrite IH, insert_desc_perm. apply Permutation_middle.
Qed.

Lemma sort_desc_perm l : Permutation (sort_desc l) l.
Proof. apply (sort_desc_perm_from l []). Qed.

Lemma insert_desc_sorted x l :
  StronglySorted desc l -> StronglySorted desc (insert_desc x l).
Proof.
  induction 1 as [|y r Hr IH Hy]; simpl.
  - repeat constructor.
  - destruct (count (snd y) <? count (snd x)) eqn:E.
    + apply Nat.ltb_lt in E. constructor; [constructor; assumption|].
      constructor; [unfold desc; lia|].
      eapply Forall_impl; [|exact Hy]. unfold desc. intros; lia.
    + apply Nat.ltb_ge in E. constructor; [assumption|].
      eapply Permutation_Forall; [symmetry; apply insert_desc_perm|].
      constructor; [exact E|assumption].
Qed.

Lemma sort_desc_sorted_from l : forall acc,
  StronglySorted desc acc ->
  StronglySorted desc (fold_left (fun a x => insert_desc x a) l acc).
Proof.
  induction l as [|x l IH]; intros acc H; simpl; auto using insert_desc_sorted.
Qed.

Lemma sort_desc_sorted l : StronglySorted desc (sort_desc l).
Proof. apply sort_desc_sorted_from. constructor. Qed.

Lemma filter_none {A} (p : A -> bool) (l : list A) :
  (forall e, In e l -> p e = false) -> filter p l = [].
Proof.
  induction l as [|a l IH]; intros H; simpl; [reflexivity|].
  rewrite (H a) by (left; reflexivity). apply IH. intros e He. apply H.
  now right.
Qed.

(** Stability: entries of equal count keep their order. *)
Lemma insert_desc_stable c x l :
  StronglySorted desc l ->
  filter (fun e => count (snd e) =? c) (insert_desc x l)
  = filter (fun e => count (snd e) =? c) l
    ++ (if count (snd x) =? c then [x] else []).
Proof.
  induction 1 as [|y r Hr IH Hy]; simpl; [reflexivity|].
  destruct (count (snd y) <? count (snd x)) eqn:E.
  - apply Nat.ltb_lt in E. simpl.
    destruct (count (snd x) =? c) eqn:Ex; [|now rewrite app_nil_r].
    apply Nat.eqb_eq in Ex.
    assert (filter (fun e => count (snd e) =? c) (y :: r) = []) as Hnil.
    { apply filter_none.
      intros e [<-|He]; apply Nat.eqb_neq.
      - lia.
      - pose proof (proj1 (Forall_forall _ _) Hy e He) as Hd.
        unfold desc in Hd. lia. }
    simpl in Hnil. rewrite Hnil. reflexivity.
  - simpl. rewrite IH. destruct (count (snd y) =? c); reflexivity.
Qed.

Lemma sort_desc_stable_from c l : forall acc,
  StronglySorted desc acc ->
  filter (fun e => count (snd e) =? c)
         (fold_left (fun a x => insert_desc x a) l acc)
  = filter (fun e => count (snd e) =? c) (acc ++ l).
Proof.
  induction l as [|x l IH]; intros acc H; simpl.
  - now rewrite app_nil_r.
  - rewrite IH by auto using insert_desc_sorted.
    rewrite !filter_app, insert_desc_stable by assumption.
    simpl. rewrite <- app_assoc.
    destruct (count (snd x) =? c); reflexivity.
Qed.

Lemma sort_desc_stable c l :
  filter (fun e => count (snd e) =? c) (sort_desc l)
  = filter (fun e => count (snd e) =? c) l.
Proof. apply (sort_desc_stable_from c l []). constructor. Qed.

Lemma store_new {V} (k : str) (v : V) (d : dict V) :
  ~ In k (keys d) -> store k v d = d ++ [(k, v)].
Proof.
  induction d as [|[k' v'] d IH]; simpl; [reflexivity|].
  intros H. destruct (str_eqb k k') eqn:E.
  - apply str_eqb_true in E. exfalso; auto.
  - rewrite IH; tauto.
Qed.

Lemma In_lookup {V} (k : str) (v : V) (d : dict V) :
  NoDup (keys d) -> In (k, v) d -> lookup k d = Some v.
Proof.
  induction d as [|[k' v'] d IH]; simpl; [tauto|].
  intros Hnd [H|H]; inversion Hnd; subst.
  - injection H as -> ->. now rewrite str_eqb_refl.
  - destruct (str_eqb k k') eqn:E; [|auto].
    apply str_eqb_true in E. subst k'. exfalso.
    apply H2. change k with (fst (k, v)). now apply in_map.
Qed.

(** One iteration of the loop of lines 85-91 on a key that is new to the
    lexicon. *)
Lemma assign_ok (nonsense_words : list str) i key (lex : lexicon) rnd k :
  ~ In key (keys lex) ->
  i < length nonsense_words
  \/ (exists first rest, nonsense_words = first :: rest /\ first <> []) ->
  exists tok k',
    assign nonsense_words i key lex rnd k = Ok (lex ++ [(key, tok)], k')
    /\ assigned nonsense_words i tok.
Proof.
  intros Hnew Hsup. unfold assign.
  destruct (i <? _) eqn:E.
  - apply Nat.ltb_lt in E.
    destruct (nth_error _ i) as [tok|] eqn:En;
      [|apply nth_error_None in En; unfold str in *; lia].
    exists tok, k. unfold ret. rewrite store_new by assumption.
    split; [reflexivity|]. split; [auto|lia].
  - apply Nat.ltb_ge in E. destruct Hsup as [Hlt|(first & rest & -> & Hne)];
      [lia|].
    simpl. unfold bind, ret.
    destruct (random_word_ok first rnd k Hne) as (tok & -> & Htok).
    exists tok, (4 + k). cbv beta. rewrite store_new by assumption.
    split; [reflexivity|]. split; [simpl in *; lia|].
    intros _. exists first. split; [reflexivity|assumption].
Qed.

Lemma assign_all_ok (nonsense_words : list str) items :
  forall i (lex : lexicon) rnd k,
  NoDup (keys lex ++ keys items) ->
  i + length items <= length nonsense_words
  \/ (exists first rest, nonsense_words = first :: rest /\ first <> []) ->
  exists L k',
    assign_all nonsense_words i items lex rnd k = Ok (lex ++ L, k')
    /\ keys L = keys items
    /\ forall j key info,
         nth_error items j = Some (key, info) ->
         exists tok, nth_error L j = Some (key, tok)
                     /\ assigned nonsense_words (i + j) tok.
Proof.
  induction items as [|[key info] items IH]; intros i lex rnd k Hnd Hsup.
  - exists [], k. simpl. unfold ret. rewrite app_nil_r.
    repeat split. intros [|j]; discriminate.
  - simpl in *.
    assert (~ In key (keys lex)) as Hnew.
    { intros Hin. apply NoDup_remove_2 in Hnd. apply Hnd.
      apply in_or_app. now left. }
    destruct (assign_ok nonsense_words i key lex rnd k Hnew)
      as (tok & k1 & Ha & Htok).
    { destruct Hsup as [H|H]; [left; lia|right; exact H]. }
    unfold bind. rewrite Ha.
    destruct (IH (S i) (lex ++ [(key, tok)]) rnd k1) as (L & k2 & HL & HkL & Hj).
    { unfold keys in *. rewrite map_app, <- app_assoc. simpl.
      exact Hnd. }
    { destruct Hsup as [H|H]; [left; lia|right; exact H]. }
    exists ((key, tok) :: L), k2. rewrite HL, <- app_assoc. simpl.
    split; [reflexivity|]. split; [unfold keys in *; simpl; congruence|].
    intros [|j] key' info' Hn; simpl in *.
    + injection Hn as <- <-. exists tok. rewrite Nat.add_0_r. auto.
    + destruct (Hj j key' info' Hn) as (tok' & H1 & H2).
      exists tok'. rewrite Nat.add_succ_r. auto.
Qed.

(** C1, as stated: with an empty token list the builder raises on the
    first vocabulary entry instead of returning a mapping. *)
Lemma create_lexicon_raises_without_tokens :
  create_lexicon
    [(lit "the", {| original := lit "the"; preserve_caps := false;
                    count := 1 |})]
    [] (fun _ => 0) 0
  = IndexError.
Proof. reflexivity. Qed.

(** C1, amended.  For a vocabulary (its keys distinct, as in any dictionary)
    and a token list that either covers the vocabulary or starts with a
    non-empty token, [create_lexicon] returns a lexicon.  Its keys are those
    of the vocabulary, each once, in the order of the stable descending sort
    by count; the [i]-th entry of that order is mapped to the [i]-th token
    while the list lasts, and beyond it to a 4-character string over the
    characters of the first token. *)
Theorem create_lexicon_assignment (vocab : vocabulary)
    (nonsense_words : list str) (rnd : nat -> nat) (k : nat)
    (Hkeys : NoDup (keys vocab))
    (Hsupply : length vocab <= length nonsense_words
               \/ exists first rest,
                    nonsense_words = first :: rest /\ first <> []) :
  exists lex k',
    create_lexicon vocab nonsense_words rnd k = Ok (lex, k')
    /\ Permutation (sort_desc vocab) vocab
    /\ StronglySorted desc (sort_desc vocab)
    /\ (forall c, filter (fun e => count (snd e) =? c) (sort_desc vocab)
                  = filter (fun e => count (snd e) =? c) vocab)
    /\ keys lex = keys (sort_desc vocab)
    /\ NoDup (keys lex)
    /\ (forall w, In w (keys lex) <-> In w (keys vocab))
    /\ forall i key info,
         nth_error (sort_desc vocab) i = Some (key, info) ->
         exists tok, lookup key lex = Some tok
                     /\ assigned nonsense_words i tok.
Proof.
  pose proof (sort_desc_perm vocab) as Hperm.
  assert (Permutation (keys (sort_desc vocab)) (keys vocab)) as Hkp
    by (apply Permutation_map, Hperm).
  assert (NoDup (keys (sort_desc vocab))) as Hnd.
  { eapply Permutation_NoDup; [symmetry; exact Hkp|exact Hkeys]. }
  destruct (assign_all_ok nonsense_words (sort_desc vocab) 0 [] rnd k)
    as (L & k' & HL & HkL & Hj).
  { exact Hnd. }
  { destruct Hsupply as [H|H]; [left|right; exact H].
    rewrite (Permutation_length Hperm). simpl. exact H. }
  exists L, k'. unfold create_lexicon. rewrite HL. simpl.
  split; [reflexivity|]. split; [exact Hperm|].
  split; [apply sort_desc_sorted|]. split; [intro; apply sort_desc_stable|].
  split; [exact HkL|]. split; [rewrite HkL; exact Hnd|].
  split.
  - intros w. rewrite HkL. split; intros H.
    + eapply Permutation_in; [exact Hkp|exact H].
    + eapply Permutation_in; [symmetry; exact Hkp|exact H].
  - intros i key info Hn. destruct (Hj i key info Hn) as (tok & H1 & H2).
    exists tok. split; [|exact H2].
    apply In_lookup; [rewrite HkL; exact Hnd|]. eapply nth_error_In, H1.
Qed.

Lemma create_lexicon_assignment_witness :
  exists lex k',
    create_lexicon demo_vocabulary [lit "abcd"; lit "dcba"] (fun i => i) 0
      = Ok (lex, k')
    /\ lookup (lit "the") lex = Some (lit "abcd")
    /\ lookup (lit "lord") lex = Some (lit "dcba")
    /\ lookup (lit "said") lex = Some (lit "abcd").
Proof.
  destruct (create_lexicon_assignment demo_vocabulary
              [lit "abcd"; lit "dcba"] (fun i => i) 0)
    as (lex & k' & H & _).
  - repeat constructor; simpl; intuition discriminate.
  - right. eexists _, _. split; [reflexivity|discriminate].
  - exists lex, k'. split; [exact H|].
    vm_compute in H. injection H as <- <-. repeat split; reflexivity.
Defined.

(** ** Scanning, one match at a time *)

Lemma advance_cons k c prev rest :
  advance (S k) prev (c :: rest) = advance k (c :: prev) rest.
Proof. unfold advance. simpl. now rewrite <- app_assoc. Qed.

Section ScanFacts.
Variable m : matcher.
Variable r : str -> str -> str.

(** Passing over [n] characters is starting afresh after them. *)
Lemma re_sub_from_skip text : forall prev n,
  re_sub_from m r prev n text
  = re_sub_from m r (advance n prev text) 0 (skipn n text).
Proof.
  induction text as [|c rest IH]; intros prev n.
  - destruct n; reflexivity.
  - destruct n as [|n]; [reflexivity|].
    cbn [re_sub_from skipn]. rewrite IH, advance_cons. reflexivity.
Qed.

Lemma re_sub_from_step prev c rest :
  re_sub_from m r prev 0 (c :: rest)
  = match m prev (c :: rest) with
    | Some (S n) =>
        r prev (firstn (S n) (c :: rest))
          ++ re_sub_from m r (advance (S n) prev (c :: rest)) 0
               (skipn (S n) (c :: rest))
    | _ => c :: re_sub_from m r (c :: prev) 0 rest
    end.
Proof.
  cbn [re_sub_from]. destruct (m prev (c :: rest)) as [[|n]|]; try reflexivity.
  rewrite re_sub_from_skip, advance_cons. reflexivity.
Qed.

Lemma re_finditer_from_skip text : forall prev n,
  re_finditer_from m prev n text
  = re_finditer_from m (advance n prev text) 0 (skipn n text).
Proof.
  induction text as [|c rest IH]; intros prev n.
  - destruct n; reflexivity.
  - destruct n as [|n]; [reflexivity|].
    cbn [re_finditer_from skipn]. rewrite IH, advance_cons. reflexivity.
Qed.

Lemma re_finditer_from_step prev c rest :
  re_finditer_from m prev 0 (c :: rest)
  = match m prev (c :: rest) with
    | Some (S n) =>
        (firstn (S n) (c :: rest), skipn (S n) (c :: rest))
          :: re_finditer_from m (advance (S n) prev (c :: rest)) 0
               (skipn (S n) (c :: rest))
    | _ => re_finditer_from m (c :: prev) 0 rest
    end.
Proof.
  cbn [re_finditer_from].
  destruct (m prev (c :: rest)) as [[|n]|]; try reflexivity.
  rewrite re_finditer_from_skip, advance_cons. reflexivity.
Qed.
End ScanFacts.

(** ** Normal forms of the spacing passes *)

Lemma pair_pass_gapped p q text :
  (forall a b, p a && q b = true -> gap_ok a b = true) ->
  forall prev,
    gapped text (re_sub_from (match_pair p q) space_between prev 0 text).
Proof.
  intros Hgap.
  remember (length text) as n eqn:Hn. revert text Hn.
  induction n as [n IH] using lt_wf_ind. intros text Hn prev.
  rewrite pair_pass_step. destruct text as [|a [|b t]].
  - constructor.
  - repeat constructor.
  - simpl in Hn. destruct (p a && q b) eqn:E.
    + apply gapped_ins; [auto|]. apply gapped_keep.
      apply (IH (length t)); [lia|reflexivity].
    + apply gapped_keep. apply (IH (length (b :: t))); simpl; [lia|reflexivity].
Qed.

Lemma pair_free_cons p q a rest :
  pair_free p q (a :: rest)
  = negb (p a && head_in q rest) && pair_free p q rest.
Proof.
  destruct rest as [|b t]; simpl; [|reflexivity].
  now rewrite andb_false_r.
Qed.

Lemma gapped_head q a b : gapped a b -> head_in q a = head_in q b.
Proof. now destruct 1. Qed.

Lemma gapped_refl a : gapped a a.
Proof. induction a; constructor; assumption. Qed.

Lemma gapped_spaced a b : gapped a b -> spaced a b.
Proof.
  induction 1 as [|c a b H IH|c d a b Hg H IH].
  - constructor.
  - now constructor.
  - now apply spaced_keep, spaced_ins.
Qed.

(** Spaces put into gaps do not bring a [p] character next to a [q]
    character. *)
Lemma gapped_pair_free p q a b :
  p space = false -> q space = false ->
  gapped a b -> pair_free p q a = true -> pair_free p q b = true.
Proof.
  intros Hp Hq. induction 1 as [|c a b H IH|c d a b Hg H IH]; intros Hf.
  - reflexivity.
  - rewrite pair_free_cons in *. apply andb_prop in Hf. destruct Hf as [H1 H2].
    rewrite <- (gapped_head q a b H), H1. simpl. auto.
  - rewrite pair_free_cons in Hf. apply andb_prop in Hf. destruct Hf as [_ H2].
    rewrite !pair_free_cons. cbn [head_in].
    rewrite Hq, Hp, andb_false_r. simpl.
    specialize (IH H2). rewrite pair_free_cons in IH. exact IH.
Qed.

Section PairPass.
Variables p q : ascii -> bool.
Hypothesis p_space : p space = false.
Hypothesis q_space : q space = false.
Hypothesis pq_apart : forall c, q c = true -> p c = false.
Hypothesis pq_gap : forall a b, p a && q b = true -> gap_ok a b = true.

Let pass := re_sub (match_pair p q) space_between.

Lemma pair_pass_is_gapped text : gapped text (pass text).
Proof. apply pair_pass_gapped, pq_gap. Qed.

(** After the pass no pair is left. *)
Lemma pair_pass_free text : pair_free p q (pass text) = true.
Proof.
  unfold pass, re_sub. generalize (@nil ascii) as prev.
  remember (length text) as n eqn:Hn. revert text Hn.
  induction n as [n IH] using lt_wf_ind. intros text Hn prev.
  rewrite pair_pass_step. destruct text as [|a [|b t]]; try reflexivity.
  simpl in Hn. destruct (p a && q b) eqn:E.
  - apply andb_prop in E. destruct E as [_ Eq].
    rewrite !pair_free_cons. cbn [head_in].
    rewrite q_space, p_space, (pq_apart b Eq), andb_false_r. simpl.
    apply (IH (length t)); [lia|reflexivity].
  - rewrite pair_free_cons.
    rewrite <- (gapped_head q (b :: t) _
                  (pair_pass_gapped p q (b :: t) pq_gap (a :: prev))).
    cbn [head_in]. rewrite E. cbn [negb andb].
    apply (IH (length (b :: t))); simpl; [lia|reflexivity].
Qed.

(** A text without pairs is left as it is. *)
Lemma pair_pass_fixed text : pair_free p q text = true -> pass text = text.
Proof.
  unfold pass, re_sub. generalize (@nil ascii) as prev.
  induction text as [|a t IH]; intros prev Hf; [reflexivity|].
  rewrite pair_pass_step. destruct t as [|b t]; [reflexivity|].
  rewrite pair_free_cons in Hf. apply andb_prop in Hf. destruct Hf as [H1 H2].
  cbn [head_in] in H1. apply negb_true_iff in H1. rewrite H1.
  f_equal. apply IH, H2.
Qed.
End PairPass.

(** ** The identifier-line pattern *)

Lemma space_not_code c : is_space c = true -> is_code_char c = false.
Proof. each_ascii c; intros H; try reflexivity; discriminate H. Qed.

Lemma run_le p text : run p text <= length text.
Proof.
  induction text as [|c t IH]; simpl; [lia|]. destruct (p c); simpl; lia.
Qed.

Lemma run_skipn_head p text : forall k,
  k < run p text -> head_in p (skipn k text) = true.
Proof.
  induction text as [|c t IH]; intros k Hk; simpl in Hk; [lia|].
  destruct (p c) eqn:E; [|lia].
  destruct k as [|k]; simpl; [exact E|]. apply IH. lia.
Qed.

Lemma skipn_run_head p text : head_in p (skipn (run p text) text) = false.
Proof.
  induction text as [|c t IH]; simpl; [reflexivity|].
  destruct (p c) eqn:E; simpl; [exact IH|exact E].
Qed.

Lemma run_head_false p text : head_in p text = false -> run p text = 0.
Proof. destruct text as [|c t]; simpl; [reflexivity|]. now intros ->. Qed.

Lemma run_pos_head p text : 0 < run p text -> head_in p text = true.
Proof. intros H. apply (run_skipn_head p text 0 H). Qed.

Lemma longest_ok_none ok n :
  (forall k, 0 < k <= n -> ok k = false) -> longest_ok ok n = None.
Proof.
  induction n as [|n IH]; intros H; simpl; [reflexivity|].
  rewrite H by lia. apply IH. intros k Hk. apply H. lia.
Qed.

Lemma longest_ok_last ok n :
  (forall k, 0 < k < n -> ok k = false) ->
  longest_ok ok n = if (0 <? n) && ok n then Some n else None.
Proof.
  intros H. destruct n as [|n]; simpl; [reflexivity|].
  destruct (ok (S n)); [reflexivity|].
  apply longest_ok_none. intros k Hk. apply H. lia.
Qed.

(** White space is never given back: a match needs a code character right
    after the whole run. *)
Lemma ws_backtrack rest :
  longest_ok (fun k => 0 <? run is_code_char (skipn k rest))
             (run is_space rest)
  = if (0 <? run is_space rest)
       && (0 <? run is_code_char (skipn (run is_space rest) rest))
    then Some (run is_space rest) else None.
Proof.
  apply (longest_ok_last (fun k => 0 <? run is_code_char (skipn k rest))).
  intros k Hk. apply Nat.ltb_ge. apply Nat.le_0_r. apply run_head_false.
  assert (head_in is_space (skipn k rest) = true) as Hs
    by (apply run_skipn_head; lia).
  destruct (skipn k rest) as [|c t]; [discriminate|].
  simpl in *. now apply space_not_code.
Qed.

Lemma match_id_line_eq prev text :
  match_id_line prev text
  = match after_id_tag text with
    | Some rest =>
        let ws := run is_space rest in
        let r1 := skipn ws rest in
        let cd := run is_code_char r1 in
        if (0 <? ws) && (0 <? cd)
        then Some (3 + ws + cd + run not_newline (skipn cd r1))
        else None
    | None => None
    end.
Proof.
  unfold match_id_line. destruct (after_id_tag text) as [rest|]; [|reflexivity].
  rewrite ws_backtrack. cbv zeta.
  destruct ((0 <? run is_space rest) && _); reflexivity.
Qed.

Lemma id_line_code_eq matched :
  id_line_code matched
  = match after_id_tag matched with
    | Some rest =>
        let ws := run is_space rest in
        let r1 := skipn ws rest in
        if (0 <? ws) && (0 <? run is_code_char r1)
        then firstn (run is_code_char r1) r1 else []
    | None => []
    end.
Proof.
  unfold id_line_code. destruct (after_id_tag matched) as [rest|]; [|reflexivity].
  rewrite ws_backtrack. cbv zeta.
  destruct ((0 <? run is_space rest) && _); reflexivity.
Qed.

Lemma after_id_tag_inv text rest :
  after_id_tag text = Some rest -> text = lit "\id" ++ rest.
Proof.
  destruct text as [|b [|i [|d t]]]; try discriminate. simpl.
  destruct (is_backslash b && (code i =? 105) && (code d =? 100)) eqn:E;
    [|discriminate].
  intros [= <-]. apply andb_prop in E. destruct E as [E Ed].
  apply andb_prop in E. destruct E as [Eb Ei].
  apply Nat.eqb_eq in Eb, Ei, Ed. unfold code in *.
  rewrite <- (ascii_nat_embedding b), <- (ascii_nat_embedding i),
    <- (ascii_nat_embedding d), Eb, Ei, Ed. reflexivity.
Qed.

Lemma after_id_tag_lit rest : after_id_tag (lit "\id" ++ rest) = Some rest.
Proof. reflexivity. Qed.

Lemma after_id_tag_head text :
  head_in is_backslash text = false -> after_id_tag text = None.
Proof.
  destruct text as [|b [|i [|d t]]]; try reflexivity.
  simpl. now intros ->.
Qed.

(** A settled text is left as it is by the identifier-line pass. *)
Lemma settled_fixed_from text : forall prev skip,
  settled text = true ->
  re_sub_from match_id_line id_line_repl prev skip text = skipn skip text.
Proof.
  induction text as [|c rest IH]; intros prev skip Hs.
  - destruct skip; reflexivity.
  - cbn [settled] in Hs. apply andb_prop in Hs. destruct Hs as [Hat Hrest].
    destruct skip as [|skip]; cbn [re_sub_from skipn]; [|now apply IH].
    unfold settled_at in Hat. unfold match_id_line in *.
    destruct (after_id_tag (c :: rest)) as [r0|]; [|now rewrite IH].
    destruct (longest_ok _ _) as [ws|]; [|now rewrite IH].
    cbv zeta in *.
    set (n := 3 + ws + _ + _) in *. change n with (S (pred n)) in *.
    apply str_eqb_true in Hat. unfold id_line_repl in *.
    rewrite Hat, IH by assumption.
    change (firstn (S (pred n)) (c :: rest) ++ skipn (pred n) rest)
      with (firstn (S (pred n)) (c :: rest) ++ skipn (S (pred n)) (c :: rest)).
    apply firstn_skipn.
Qed.

Lemma settled_fixed text : settled text = true -> clean_id_lines text = text.
Proof. intros H. apply (settled_fixed_from text [] 0 H). Qed.

Lemma run_app p w text :
  forallb p w = true -> head_in p text = false ->
  run p (w ++ text) = length w.
Proof.
  induction w as [|c w IH]; simpl; intros Hw Ht.
  - now apply run_head_false.
  - apply andb_prop in Hw. destruct Hw as [-> Hw]. now rewrite IH.
Qed.

Lemma run_firstn_all p text : forallb p (firstn (run p text) text) = true.
Proof.
  induction text as [|c t IH]; simpl; [reflexivity|].
  destruct (p c) eqn:E; simpl; [now rewrite E|reflexivity].
Qed.

Lemma run_firstn p text : forall k,
  run p (firstn k text) = Nat.min k (run p text).
Proof.
  induction text as [|c t IH]; intros [|k]; simpl; try reflexivity.
  destruct (p c); [now rewrite IH|reflexivity].
Qed.

Lemma run_zero_head p text : run p text = 0 -> head_in p text = false.
Proof.
  destruct text as [|c t]; simpl; [reflexivity|].
  destruct (p c); [discriminate|reflexivity].
Qed.

Lemma line_end_head text :
  line_end text <-> head_in not_newline text = false.
Proof.
  destruct text as [|c t]; simpl; [tauto|]. unfold not_newline.
  destruct (is_newline c); simpl; split; congruence.
Qed.

Lemma newline_not_code c : is_newline c = true -> is_code_char c = false.
Proof. each_ascii c; intros H; try reflexivity; discriminate H. Qed.

Lemma line_end_not_code text : line_end text -> head_in is_code_char text = false.
Proof.
  destruct text as [|c t]; simpl; [reflexivity|]. apply newline_not_code.
Qed.

Lemma code_not_space c : is_code_char c = true -> is_space c = false.
Proof. each_ascii c; intros H; try reflexivity; discriminate H. Qed.

Lemma nonempty_head p (w : str) text :
  w <> [] -> forallb p w = true -> head_in p (w ++ text) = true.
Proof.
  destruct w as [|c w]; [congruence|]. simpl. intros _ H.
  apply andb_prop in H. tauto.
Qed.

Lemma head_code_not_space text :
  head_in is_code_char text = true -> head_in is_space text = false.
Proof. destruct text as [|c t]; simpl; [discriminate|apply code_not_space]. Qed.

(** A clean identifier line is matched whole, and replaced by itself. *)
Lemma clean_id_line_match prev text cdl rest :
  text = lit "\id " ++ cdl ++ rest ->
  cdl <> [] -> forallb is_code_char cdl = true -> line_end rest ->
  match_id_line prev text = Some (4 + length cdl)
  /\ id_line_repl prev (firstn (4 + length cdl) text) = lit "\id " ++ cdl.
Proof.
  intros -> Hne Hcd Hend.
  assert (run is_code_char (cdl ++ rest) = length cdl) as Hrun
    by (apply run_app; [assumption|now apply line_end_not_code]).
  assert (0 < length cdl) as Hpos by (destruct cdl; simpl; [congruence|lia]).
  split.
  - rewrite match_id_line_eq.
    change (after_id_tag (lit "\id " ++ cdl ++ rest))
      with (Some (space :: cdl ++ rest)).
    assert (run is_space (space :: cdl ++ rest) = 1) as Hws.
    { change (space :: cdl ++ rest) with ([space] ++ cdl ++ rest).
      apply (run_app is_space [space]); [reflexivity|].
      apply head_code_not_space, nonempty_head; assumption. }
    cbv beta iota zeta. rewrite Hws. cbn [skipn]. rewrite Hrun.
    rewrite skipn_app, Nat.sub_diag, skipn_all. cbn [app skipn].
    apply line_end_head in Hend. rewrite (run_head_false _ _ Hend).
    destruct (length cdl); [lia|]. simpl. f_equal. lia.
  - unfold id_line_repl. f_equal. rewrite id_line_code_eq.
    change (firstn (4 + length cdl) (lit "\id " ++ cdl ++ rest))
      with (lit "\id " ++ firstn (length cdl) (cdl ++ rest)).
    rewrite firstn_app, Nat.sub_diag, firstn_all. cbn [firstn].
    rewrite app_nil_r.
    change (after_id_tag (lit "\id " ++ cdl)) with (Some (space :: cdl)).
    assert (run is_space (space :: cdl) = 1) as Hws.
    { change (space :: cdl) with ([space] ++ cdl).
      apply (run_app is_space [space]); [reflexivity|].
      rewrite <- (app_nil_r cdl).
      apply head_code_not_space, nonempty_head; assumption. }
    cbv beta iota zeta. rewrite Hws. cbn [skipn].
    assert (run is_code_char cdl = length cdl) as Hrun'.
    { rewrite <- (app_nil_r cdl) at 1. apply run_app; auto. }
    rewrite Hrun', firstn_all.
    destruct (length cdl); [lia|]. reflexivity.
Qed.

Lemma clean_id_line_settled text : clean_id_line text -> settled_at text = true.
Proof.
  intros (cdl & rest & Ht & Hne & Hcd & Hend).
  destruct (clean_id_line_match [] text cdl rest Ht Hne Hcd Hend) as [Hm Hr].
  unfold settled_at. rewrite Hm, Hr. apply str_eqb_true.
  rewrite Ht.
  change (firstn (4 + length cdl) (lit "\id " ++ cdl ++ rest))
    with (lit "\id " ++ firstn (length cdl) (cdl ++ rest)).
  now rewrite firstn_app, Nat.sub_diag, firstn_all, app_nil_r.
Qed.

(** A match that the replacement leaves as it is is a clean identifier
    line. *)
Lemma settled_match_clean text n :
  match_id_line [] text = Some n -> settled_at text = true ->
  clean_id_line text.
Proof.
  intros Hm Hs. unfold settled_at in Hs. rewrite Hm in Hs.
  apply str_eqb_true in Hs. rewrite match_id_line_eq in Hm.
  destruct (after_id_tag text) as [rest|] eqn:Ea; [|discriminate].
  apply after_id_tag_inv in Ea. subst text. cbv zeta in Hm.
  remember (run is_space rest) as ws eqn:Hws.
  remember (skipn ws rest) as r1 eqn:Hr1.
  remember (run is_code_char r1) as cd eqn:Hcd.
  remember (run not_newline (skipn cd r1)) as tl eqn:Htl.
  destruct ((0 <? ws) && (0 <? cd)) eqn:E; [|discriminate].
  injection Hm as <-. apply andb_prop in E. destruct E as [E1 E2].
  apply Nat.ltb_lt in E1, E2.
  pose proof (run_le is_space rest) as B1.
  pose proof (run_le is_code_char r1) as B2.
  pose proof (run_le not_newline (skipn cd r1)) as B3.
  rewrite length_skipn in B3.
  assert (length r1 = length rest - ws) as B4
    by (rewrite Hr1; apply length_skipn).
  rewrite <- Hws in B1. rewrite <- Hcd in B2. rewrite <- Htl in B3.
  change (firstn (S (S (S (ws + cd + tl)))) (lit "\id" ++ rest))
    with (lit "\id" ++ firstn (ws + cd + tl) rest) in Hs.
  unfold id_line_repl in Hs. rewrite id_line_code_eq in Hs.
  change (after_id_tag (lit "\id" ++ firstn (ws + cd + tl) rest))
    with (Some (firstn (ws + cd + tl) rest)) in Hs.
  cbv beta iota zeta in Hs.
  rewrite run_firstn, <- Hws in Hs.
  replace (Nat.min (ws + cd + tl) ws) with ws in Hs by lia.
  rewrite skipn_firstn_comm, <- Hr1, run_firstn, <- Hcd in Hs.
  replace (Nat.min (ws + cd + tl - ws) cd) with cd in Hs by lia.
  assert ((0 <? ws) && (0 <? cd) = true) as E
    by (apply andb_true_intro; split; apply Nat.ltb_lt; assumption).
  rewrite E, firstn_firstn in Hs.
  replace (Nat.min cd (ws + cd + tl - ws)) with cd in Hs by lia.
  injection Hs as Hs.
  assert (ws = 1 /\ tl = 0) as [W T].
  { apply (f_equal (@length ascii)) in Hs. simpl in Hs.
    rewrite !length_firstn in Hs. lia. }
  subst ws tl. rewrite W in *. rewrite T in *.
  destruct rest as [|c0 rest0]; [discriminate W|].
  cbn [skipn] in Hr1. subst r1.
  replace (1 + cd + 0) with (S cd) in Hs by lia. cbn [firstn] in Hs.
  injection Hs as Hc0.
  exists (firstn cd rest0), (skipn cd rest0). repeat split.
  - rewrite firstn_skipn. now rewrite <- Hc0.
  - intros Hnil. apply (f_equal (@length ascii)) in Hnil.
    rewrite length_firstn in Hnil. simpl in Hnil. lia.
  - rewrite Hcd. apply run_firstn_all.
  - apply line_end_head, run_zero_head. exact T.
Qed.

(** Where the pattern does not match, the text is settled. *)
Lemma no_match_settled text :
  match_id_line [] text = None -> settled_at text = true.
Proof. unfold settled_at. now intros ->. Qed.

Lemma settled_at_cases text :
  settled_at text = true <->
  match_id_line [] text = None \/ clean_id_line text.
Proof.
  split.
  - intros Hs. destruct (match_id_line [] text) as [n|] eqn:Hm; [|now left].
    right. eapply settled_match_clean; eassumption.
  - intros [H|H]; [now apply no_match_settled|now apply clean_id_line_settled].
Qed.

(** ** Spaces put into gaps leave identifier lines settled *)

Lemma space_classes c :
  is_space c = true ->
  is_word c = false /\ is_punct c = false /\ is_dquote c = false
  /\ is_backslash c = false.
Proof.
  each_ascii c; intros H; try discriminate H; repeat split; reflexivity.
Qed.

Lemma newline_classes c :
  is_newline c = true ->
  is_word c = false /\ is_punct c = false /\ is_backslash c = false.
Proof.
  each_ascii c; intros H; try discriminate H; repeat split; reflexivity.
Qed.

Lemma code_classes c :
  is_code_char c = true ->
  is_word c = true /\ is_punct c = false /\ is_dquote c = false
  /\ is_backslash c = false.
Proof.
  each_ascii c; intros H; try discriminate H; repeat split; reflexivity.
Qed.

Lemma backslash_classes c :
  is_backslash c = true ->
  is_word c = false /\ is_punct c = false /\ is_dquote c = false.
Proof.
  each_ascii c; intros H; try discriminate H; repeat split; reflexivity.
Qed.

Lemma gap_after_space c d : is_space c = true -> gap_ok c d = false.
Proof.
  intros H. destruct (space_classes c H) as (H1 & H2 & H3 & _).
  unfold gap_ok. now rewrite H1, H2, H3.
Qed.

Lemma gap_before_space c d : is_space d = true -> gap_ok c d = false.
Proof.
  intros H. destruct (space_classes d H) as (H1 & H2 & _ & H4).
  unfold gap_ok. rewrite H1, H2, H4. now rewrite !andb_false_r.
Qed.

Lemma gap_before_newline c d : is_newline d = true -> gap_ok c d = false.
Proof.
  intros H. destruct (newline_classes d H) as (H1 & H2 & H4).
  unfold gap_ok. rewrite H1, H2, H4. now rewrite !andb_false_r.
Qed.

Lemma gap_after_backslash c d : is_backslash c = true -> gap_ok c d = false.
Proof.
  intros H. destruct (backslash_classes c H) as (H1 & H2 & H3).
  unfold gap_ok. now rewrite H1, H2, H3.
Qed.

Lemma gap_code_code c d :
  is_code_char c = true -> is_code_char d = true -> gap_ok c d = false.
Proof.
  intros Hc Hd. destruct (code_classes c Hc) as (_ & H2 & H3 & _).
  destruct (code_classes d Hd) as (_ & H2' & _ & H4').
  unfold gap_ok. rewrite H2, H3, H2', H4'. now rewrite !andb_false_r.
Qed.

Lemma gap_word_code c d :
  is_word c = true -> is_punct c = false -> is_dquote c = false ->
  is_code_char d = true -> gap_ok c d = false.
Proof.
  intros _ H2 H3 Hd. destruct (code_classes d Hd) as (_ & H2' & _ & H4').
  unfold gap_ok. rewrite H2, H3, H2', H4'. now rewrite !andb_false_r.
Qed.

Lemma gapped_prefix k : forall a b,
  gapped a b -> nogap k a = true ->
  firstn k b = firstn k a /\ gapped (skipn k a) (skipn k b).
Proof.
  induction k as [|k IH]; intros a b Hg Hn.
  - split; [reflexivity|exact Hg].
  - destruct Hg as [|c a b Hg|c d a b Hgap Hg].
    + split; [reflexivity|constructor].
    + cbn [nogap] in Hn. apply andb_prop in Hn. destruct Hn as [_ Hn].
      destruct (IH a b Hg Hn) as [H1 H2].
      cbn [firstn skipn]. split; [now rewrite H1|exact H2].
    + cbn [nogap] in Hn. rewrite Hgap in Hn. discriminate Hn.
Qed.

Lemma nogap_space_run text : nogap (run is_space text) text = true.
Proof.
  induction text as [|c t IH]; [reflexivity|].
  cbn [run]. destruct (is_space c) eqn:E; [|reflexivity].
  cbn [nogap]. rewrite IH, andb_true_r.
  destruct t as [|d t]; [reflexivity|]. now rewrite gap_after_space.
Qed.

Lemma nogap_code_run cdl rest :
  forallb is_code_char cdl = true -> line_end rest ->
  nogap (length cdl) (cdl ++ rest) = true.
Proof.
  intros Hcd Hend. induction cdl as [|c cdl IH]; [reflexivity|].
  cbn [forallb] in Hcd. apply andb_prop in Hcd. destruct Hcd as [Hc Hcd].
  cbn [length app nogap]. rewrite (IH Hcd), andb_true_r.
  destruct cdl as [|d cdl]; cbn [app].
  - destruct rest as [|e rest]; [reflexivity|].
    simpl in Hend. now rewrite gap_before_newline.
  - cbn [forallb] in Hcd. apply andb_prop in Hcd. destruct Hcd as [Hd _].
    now rewrite gap_code_code.
Qed.

Lemma nogap_clean_id_line cdl rest :
  cdl <> [] -> forallb is_code_char cdl = true -> line_end rest ->
  nogap (4 + length cdl) (lit "\id " ++ cdl ++ rest) = true.
Proof.
  intros Hne Hcd Hend.
  change (nogap (4 + length cdl) (lit "\id " ++ cdl ++ rest))
    with (negb (match cdl ++ rest with
                | d :: _ => gap_ok space d
                | [] => false
                end)
          && nogap (length cdl) (cdl ++ rest)).
  rewrite nogap_code_run by assumption.
  destruct (cdl ++ rest); [reflexivity|]. now rewrite gap_after_space.
Qed.

Lemma gapped_id_inv t r' :
  gapped t (lit "\id" ++ r') ->
  (exists a, t = lit "\id" ++ a /\ gapped a r')
  \/ (exists d2 b, r' = space :: d2 :: b /\ gap_ok "d"%char d2 = true).
Proof.
  change (lit "\id" ++ r') with ("\"%char :: "i"%char :: "d"%char :: r').
  intros H. inversion H as [|c a b H1|]; subst; clear H.
  inversion H1 as [|c a1 b1 H2|]; subst; clear H1.
  inversion H2 as [|c a2 b2 H3|c d2 a2 b2 Hgap H3]; subst; clear H2.
  - left. exists a2. split; [reflexivity|assumption].
  - right. exists d2, b2. split; [reflexivity|assumption].
Qed.

Lemma head_true_run p text : head_in p text = true -> 0 < run p text.
Proof.
  destruct text as [|c t]; simpl; [discriminate|]. intros ->. lia.
Qed.

Lemma firstn_clean_id_line cdl rest :
  firstn (4 + length cdl) (lit "\id " ++ cdl ++ rest) = lit "\id " ++ cdl.
Proof.
  change (firstn (4 + length cdl) (lit "\id " ++ cdl ++ rest))
    with (lit "\id " ++ firstn (length cdl) (cdl ++ rest)).
  now rewrite firstn_app, Nat.sub_diag, firstn_all, app_nil_r.
Qed.

Lemma skipn_clean_id_line cdl rest :
  skipn (4 + length cdl) (lit "\id " ++ cdl ++ rest) = rest.
Proof.
  change (skipn (4 + length cdl) (lit "\id " ++ cdl ++ rest))
    with (skipn (length cdl) (cdl ++ rest)).
  now rewrite skipn_app, Nat.sub_diag, skipn_all.
Qed.

(** Is there a match at the head?  Only the tag, the white space and the
    first code character decide. *)
Lemma match_id_line_some prev text rest :
  after_id_tag text = Some rest ->
  0 < run is_space rest ->
  head_in is_code_char (skipn (run is_space rest) rest) = true ->
  exists n, match_id_line prev text = Some n.
Proof.
  intros Ha Hws Hcd. rewrite match_id_line_eq, Ha. cbv zeta.
  apply Nat.ltb_lt in Hws. apply head_true_run, Nat.ltb_lt in Hcd.
  rewrite Hws, Hcd. eexists. reflexivity.
Qed.

Lemma match_id_line_some_inv prev text n :
  match_id_line prev text = Some n ->
  exists rest, after_id_tag text = Some rest
               /\ 0 < run is_space rest
               /\ head_in is_code_char (skipn (run is_space rest) rest) = true.
Proof.
  rewrite match_id_line_eq.
  destruct (after_id_tag text) as [rest|]; [|discriminate]. cbv zeta.
  destruct (0 <? run is_space rest) eqn:E1; [|discriminate].
  destruct (0 <? run is_code_char _) eqn:E2; [|discriminate].
  intros _. exists rest. apply Nat.ltb_lt in E1, E2.
  repeat split; auto using run_pos_head.
Qed.

Lemma gapped_settled_at t t' :
  gapped t t' -> settled_at t = true -> settled_at t' = true.
Proof.
  intros Hg Hs. apply settled_at_cases.
  destruct (match_id_line [] t') as [n'|] eqn:Hm'; [right|now left].
  apply match_id_line_some_inv in Hm'.
  destruct Hm' as (r' & Ea & E1 & E2).
  apply after_id_tag_inv in Ea. subst t'.
  destruct (gapped_id_inv _ _ Hg) as [(a & -> & Ha)|(d2 & b & -> & Hgap)].
  - destruct (gapped_prefix (run is_space a) a r' Ha (nogap_space_run a))
      as [Hf Hsk].
    assert (run is_space r' = run is_space a) as Hws.
    { rewrite <- (firstn_skipn (run is_space a) r'), Hf.
      rewrite run_app.
      - rewrite length_firstn. pose proof (run_le is_space a). lia.
      - apply run_firstn_all.
      - rewrite <- (gapped_head _ _ _ Hsk). apply skipn_run_head. }
    rewrite Hws in *.
    rewrite <- (gapped_head _ _ _ Hsk) in E2.
    destruct (match_id_line_some [] (lit "\id" ++ a) a eq_refl E1 E2)
      as [n Hm].
    destruct (settled_match_clean _ _ Hm Hs)
      as (cdl & rest & Ht & Hne & Hcd & Hend).
    rewrite Ht in Hg.
    destruct (gapped_prefix (4 + length cdl) _ _ Hg
                (nogap_clean_id_line cdl rest Hne Hcd Hend)) as [Hf2 Hsk2].
    rewrite firstn_clean_id_line in Hf2. rewrite skipn_clean_id_line in Hsk2.
    exists cdl, (skipn (4 + length cdl) (lit "\id" ++ r')).
    repeat split; auto.
    + rewrite app_assoc, <- Hf2. symmetry. apply firstn_skipn.
    + apply line_end_head. rewrite <- (gapped_head _ _ _ Hsk2).
      now apply line_end_head.
  - exfalso.
    assert (is_space d2 = false) as Hsp.
    { destruct (is_space d2) eqn:E; [|reflexivity].
      rewrite gap_before_space in Hgap by assumption. discriminate. }
    assert (is_code_char d2 = false) as Hc.
    { destruct (is_code_char d2) eqn:E; [|reflexivity].
      rewrite gap_word_code in Hgap by (assumption || reflexivity).
      discriminate. }
    cbn [run] in E2. change (is_space space) with true in E2.
    cbn iota in E2. rewrite Hsp in E2. cbn [skipn head_in] in E2. congruence.
Qed.

Lemma settled_at_not_backslash text :
  head_in is_backslash text = false -> settled_at text = true.
Proof.
  intros H. apply no_match_settled. unfold match_id_line.
  now rewrite after_id_tag_head.
Qed.

Lemma settled_gapped t t' :
  gapped t t' -> settled t = true -> settled t' = true.
Proof.
  induction 1 as [|c a b H IH|c d a b Hgap H IH]; intros Hs.
  - reflexivity.
  - cbn [settled] in *. apply andb_prop in Hs. destruct Hs as [H1 H2].
    rewrite (gapped_settled_at (c :: a) (c :: b)), IH; auto.
    now constructor.
  - change (settled (c :: d :: a))
      with (settled_at (c :: d :: a) && settled (d :: a)) in Hs.
    apply andb_prop in Hs. destruct Hs as [H1 H2].
    change (settled (c :: space :: d :: b))
      with (settled_at (c :: space :: d :: b)
            && (settled_at (space :: d :: b) && settled (d :: b))).
    rewrite (gapped_settled_at (c :: d :: a) (c :: space :: d :: b)), IH; auto.
    + now rewrite settled_at_not_backslash.
    + now constructor.
Qed.

(** ** The identifier-line pass settles every line *)

(** What a match consists of: its replacement is the tag, a space and a
    non-empty code, and the match ends where the line ends. *)
Lemma match_id_line_parts prev text n :
  match_id_line prev text = Some n ->
  exists cdl,
    id_line_repl prev (firstn n text) = lit "\id " ++ cdl
    /\ cdl <> [] /\ forallb is_code_char cdl = true
    /\ line_end (skipn n text) /\ 0 < n.
Proof.
  intros Hm. rewrite match_id_line_eq in Hm.
  destruct (after_id_tag text) as [rest|] eqn:Ea; [|discriminate].
  apply after_id_tag_inv in Ea. subst text. cbv zeta in Hm.
  remember (run is_space rest) as ws eqn:Hws.
  remember (skipn ws rest) as r1 eqn:Hr1.
  remember (run is_code_char r1) as cd eqn:Hcd.
  remember (run not_newline (skipn cd r1)) as tl eqn:Htl.
  destruct ((0 <? ws) && (0 <? cd)) eqn:E; [|discriminate].
  injection Hm as Hn.
  assert (n = S (S (S (ws + cd + tl)))) as -> by lia. clear Hn.
  pose proof E as E'. apply andb_prop in E'. destruct E' as [E1 E2].
  apply Nat.ltb_lt in E1, E2.
  pose proof (run_le is_code_char r1) as B2. rewrite <- Hcd in B2.
  exists (firstn cd r1). repeat split.
  - unfold id_line_repl. f_equal. rewrite id_line_code_eq.
    change (firstn (S (S (S (ws + cd + tl)))) (lit "\id" ++ rest))
      with (lit "\id" ++ firstn (ws + cd + tl) rest).
    change (after_id_tag (lit "\id" ++ firstn (ws + cd + tl) rest))
      with (Some (firstn (ws + cd + tl) rest)).
    cbv beta iota zeta.
    rewrite run_firstn, <- Hws.
    replace (Nat.min (ws + cd + tl) ws) with ws by lia.
    rewrite skipn_firstn_comm, <- Hr1, run_firstn, <- Hcd.
    replace (Nat.min (ws + cd + tl - ws) cd) with cd by lia.
    rewrite E, firstn_firstn. f_equal. lia.
  - intros Hnil. apply (f_equal (@length ascii)) in Hnil.
    rewrite length_firstn in Hnil. simpl in Hnil. lia.
  - rewrite Hcd. apply run_firstn_all.
  - change (skipn (S (S (S (ws + cd + tl)))) (lit "\id" ++ rest))
      with (skipn (ws + cd + tl) rest).
    replace (ws + cd + tl) with (tl + (cd + ws)) by lia.
    rewrite <- !skipn_skipn, <- Hr1, Htl.
    apply line_end_head, skipn_run_head.
  - lia.
Qed.

Lemma is_backslash_eq c : is_backslash c = true -> c = backslash.
Proof.
  unfold is_backslash, code. intros H. apply Nat.eqb_eq in H.
  rewrite <- (ascii_nat_embedding c), H. reflexivity.
Qed.

Lemma stb_head q a b : same_to_backslash a b -> head_in q a = head_in q b.
Proof. now destruct 1. Qed.

Lemma stb_run p a b :
  (forall c, p c = true -> is_backslash c = false) ->
  same_to_backslash a b ->
  run p a = run p b
  /\ same_to_backslash (skipn (run p a) a) (skipn (run p a) b).
Proof.
  intros Hp. induction 1 as [|c a b Hc H IH|a b].
  - split; [reflexivity|constructor].
  - cbn [run]. destruct (p c) eqn:E.
    + destruct IH as [IH1 IH2]. split; [now rewrite IH1|exact IH2].
    + split; [reflexivity|now apply stb_cons].
  - assert (p backslash = false) as E.
    { destruct (p backslash) eqn:E; [|reflexivity].
      apply Hp in E. discriminate E. }
    cbn [run]. rewrite E. split; [reflexivity|apply stb_backslash].
Qed.

Lemma stb_sym a b : same_to_backslash a b -> same_to_backslash b a.
Proof.
  induction 1; [apply stb_nil|now apply stb_cons|apply stb_backslash].
Qed.

(** The pass copies its input up to the first backslash. *)
Lemma clean_same_to_backslash text : forall prev,
  same_to_backslash (re_sub_from match_id_line id_line_repl prev 0 text) text.
Proof.
  induction text as [|c rest IH]; intros prev; [constructor|].
  rewrite re_sub_from_step.
  destruct (match_id_line prev (c :: rest)) as [[|n]|] eqn:Hm.
  - apply match_id_line_parts in Hm. destruct Hm as (_ & _ & _ & _ & _ & H).
    lia.
  - destruct (match_id_line_parts _ _ _ Hm) as (cdl & -> & _).
    apply match_id_line_some_inv in Hm. destruct Hm as (r0 & Ha & _).
    apply after_id_tag_inv in Ha. rewrite Ha. apply stb_backslash.
  - destruct (is_backslash c) eqn:E.
    + apply is_backslash_eq in E. subst c. apply stb_backslash.
    + now apply stb_cons.
Qed.

Lemma stb_match_none a b c p1 p2 :
  same_to_backslash a b ->
  match_id_line p1 (c :: a) = None -> match_id_line p2 (c :: b) = None.
Proof.
  intros Hab Ha.
  destruct (match_id_line p2 (c :: b)) as [n|] eqn:Hb; [exfalso|reflexivity].
  apply match_id_line_some_inv in Hb. destruct Hb as (rb & Eb & E1 & E2).
  apply after_id_tag_inv in Eb.
  change (lit "\id" ++ rb) with ("\"%char :: "i"%char :: "d"%char :: rb) in Eb.
  injection Eb as -> ->.
  inversion Hab as [|x a1 b1 Hx H1|]; subst; clear Hab.
  inversion H1 as [|y a2 b2 Hy H2|]; subst; clear H1.
  assert (forall x, is_space x = true -> is_backslash x = false) as Hsp
    by (intros x Hx'; now apply space_classes).
  destruct (stb_run is_space a2 rb Hsp H2) as [R1 R2].
  rewrite <- R1 in E1, E2.
  rewrite <- (stb_head _ _ _ R2) in E2.
  destruct (match_id_line_some p1 ("\"%char :: "i"%char :: "d"%char :: a2) a2
              eq_refl E1 E2) as [n' Hn'].
  congruence.
Qed.

Lemma settled_app_plain pre text :
  forallb (fun c => negb (is_backslash c)) pre = true ->
  settled text = true -> settled (pre ++ text) = true.
Proof.
  intros Hq Hs. induction pre as [|c pre IH]; [exact Hs|].
  cbn [forallb] in Hq. apply andb_prop in Hq. destruct Hq as [Hc Hq].
  cbn [app settled]. rewrite (IH Hq), andb_true_r.
  apply settled_at_not_backslash. simpl. now apply negb_true_iff.
Qed.

Lemma code_run_plain cdl :
  forallb is_code_char cdl = true ->
  forallb (fun c => negb (is_backslash c)) cdl = true.
Proof.
  intros H. apply forallb_forall. intros c Hc.
  apply negb_true_iff, code_classes.
  now apply (proj1 (forallb_forall _ _) H).
Qed.

Lemma settled_clean_from text : forall prev,
  settled (re_sub_from match_id_line id_line_repl prev 0 text) = true.
Proof.
  remember (length text) as len eqn:Hlen. revert text Hlen.
  induction len as [len IH] using lt_wf_ind. intros text Hlen prev.
  destruct text as [|c rest]; [reflexivity|].
  rewrite re_sub_from_step.
  destruct (match_id_line prev (c :: rest)) as [[|n]|] eqn:Hm.
  - apply match_id_line_parts in Hm. destruct Hm as (_ & _ & _ & _ & _ & H).
    lia.
  - destruct (match_id_line_parts _ _ _ Hm)
      as (cdl & -> & Hne & Hcd & Hend & _).
    set (u := re_sub_from _ _ _ 0 _).
    assert (settled u = true) as Hu.
    { apply (IH (length (skipn (S n) (c :: rest)))); [|reflexivity].
      subst len. cbn [skipn]. rewrite length_skipn. simpl. lia. }
    assert (line_end u) as Hlu.
    { apply line_end_head. unfold u.
      rewrite (stb_head _ _ _ (clean_same_to_backslash _ _)).
      now apply line_end_head. }
    rewrite <- app_assoc.
    change (settled (lit "\id " ++ cdl ++ u))
      with (settled_at (lit "\id " ++ cdl ++ u)
            && settled (lit "id " ++ cdl ++ u)).
    rewrite clean_id_line_settled by (exists cdl, u; auto).
    cbn [andb].
    apply (settled_app_plain (lit "id ")); [reflexivity|].
    apply settled_app_plain; [now apply code_run_plain|exact Hu].
  - cbn [settled]. rewrite (IH (length rest)) by (subst len; simpl; lia).
    rewrite andb_true_r. apply no_match_settled.
    apply (stb_match_none rest _ c prev []); [|exact Hm].
    apply stb_sym, clean_same_to_backslash.
Qed.

Lemma settled_clean text : settled (clean_id_lines text) = true.
Proof. apply settled_clean_from. Qed.

(** ** The fix-up passes together *)

Lemma word_not_punct c : is_word c = true -> is_punct c = false.
Proof. each_ascii c; intros H; try reflexivity; discriminate H. Qed.

Lemma punct_not_word c : is_punct c = true -> is_word c = false.
Proof. each_ascii c; intros H; try reflexivity; discriminate H. Qed.

Lemma word_not_dquote c : is_word c = true -> is_dquote c = false.
Proof. each_ascii c; intros H; try reflexivity; discriminate H. Qed.

Lemma backslash_not_word c : is_backslash c = true -> is_word c = false.
Proof. intros H. now apply backslash_classes. Qed.

Lemma gap_word_punct a b : is_word a && is_punct b = true -> gap_ok a b = true.
Proof. unfold gap_ok. now intros ->. Qed.

Lemma gap_punct_word a b : is_punct a && is_word b = true -> gap_ok a b = true.
Proof. unfold gap_ok. intros ->. now rewrite orb_true_r. Qed.

Lemma gap_dquote_word a b :
  is_dquote a && is_word b = true -> gap_ok a b = true.
Proof. unfold gap_ok. intros ->. now rewrite orb_true_r. Qed.

Lemma gap_word_backslash a b :
  is_word a && is_backslash b = true -> gap_ok a b = true.
Proof. unfold gap_ok. intros ->. now rewrite orb_true_r. Qed.

Lemma before_punct_gapped t : gapped t (space_before_punct t).
Proof. apply pair_pass_is_gapped, gap_word_punct. Qed.

Lemma after_punct_gapped t : gapped t (space_after_punct t).
Proof. apply pair_pass_is_gapped, gap_punct_word. Qed.

Lemma after_quote_gapped t : gapped t (space_after_quote t).
Proof. apply pair_pass_is_gapped, gap_dquote_word. Qed.

Lemma before_backslash_gapped t : gapped t (space_before_backslash t).
Proof. apply pair_pass_is_gapped, gap_word_backslash. Qed.

(** C10.  Each of the four spacing substitutions returns its input with
    single spaces put between some adjacent characters (a word character
    and a punctuation mark, a quote and a word character, a word character
    and a backslash), and nothing else changed.  So for each of them, and
    for the four applied in order, every character of the input is in the
    output, unchanged and in the same order: the text without its spaces
    and the number of line feeds are the same before and after. *)
Theorem spacing_passes_insert_spaces_only (text : str) :
  Forall (fun pass : str -> str => gapped text (pass text))
         [space_before_punct; space_after_punct; space_after_quote;
          space_before_backslash]
  /\ Forall (fun pass : str -> str =>
               spaced text (pass text)
               /\ filter (fun c => negb (code c =? 32)) (pass text)
                  = filter (fun c => negb (code c =? 32)) text
               /\ count_char is_newline (pass text)
                  = count_char is_newline text)
            [space_before_punct; space_after_punct; space_after_quote;
             space_before_backslash; fix_spacing].
Proof.
  assert (forall pass, spaced text (pass text) ->
            spaced text (pass text)
            /\ filter (fun c => negb (code c =? 32)) (pass text)
               = filter (fun c => negb (code c =? 32)) text
            /\ count_char is_newline (pass text) = count_char is_newline text)
    as Hall.
  { intros pass H. split; [assumption|split].
    - apply spaced_filter; [reflexivity|assumption].
    - apply spaced_count; [reflexivity|assumption]. }
  split.
  - repeat apply Forall_cons; try apply Forall_nil;
      auto using before_punct_gapped, after_punct_gapped, after_quote_gapped,
                 before_backslash_gapped.
  - repeat (apply Forall_cons; [apply Hall|]); try apply Forall_nil;
      try apply pair_pass_spaced.
    unfold fix_spacing.
    eapply spaced_trans; [apply pair_pass_spaced|].
    eapply spaced_trans; [apply pair_pass_spaced|].
    eapply spaced_trans; [apply pair_pass_spaced|].
    apply pair_pass_spaced.
Qed.

(** The spacing passes keep settled identifier lines settled. *)
Lemma fix_spacing_settled t : settled t = true -> settled (fix_spacing t) = true.
Proof.
  intros H. unfold fix_spacing.
  apply (settled_gapped _ _ (before_backslash_gapped _)).
  apply (settled_gapped _ _ (after_quote_gapped _)).
  apply (settled_gapped _ _ (after_punct_gapped _)).
  apply (settled_gapped _ _ (before_punct_gapped _)).
  exact H.
Qed.

(** After the four spacing passes none of them has anything left to do. *)
Lemma fix_spacing_free t :
  let u := fix_spacing t in
  pair_free is_word is_punct u = true
  /\ pair_free is_punct is_word u = true
  /\ pair_free is_dquote is_word u = true
  /\ pair_free is_word is_backslash u = true.
Proof.
  cbv zeta. unfold fix_spacing.
  set (t1 := space_before_punct t).
  set (t2 := space_after_punct t1).
  set (t3 := space_after_quote t2).
  repeat split.
  - apply (gapped_pair_free _ _ t3 _ eq_refl eq_refl
             (before_backslash_gapped t3)).
    apply (gapped_pair_free _ _ t2 _ eq_refl eq_refl (after_quote_gapped t2)).
    apply (gapped_pair_free _ _ t1 _ eq_refl eq_refl (after_punct_gapped t1)).
    apply pair_pass_free;
      auto using punct_not_word, gap_word_punct.
  - apply (gapped_pair_free _ _ t3 _ eq_refl eq_refl
             (before_backslash_gapped t3)).
    apply (gapped_pair_free _ _ t2 _ eq_refl eq_refl (after_quote_gapped t2)).
    apply pair_pass_free;
      auto using word_not_punct, gap_punct_word.
  - apply (gapped_pair_free _ _ t3 _ eq_refl eq_refl
             (before_backslash_gapped t3)).
    apply pair_pass_free;
      auto using word_not_dquote, gap_dquote_word.
  - apply pair_pass_free;
      auto using backslash_not_word, gap_word_backslash.
Qed.

Lemma fix_spacing_fixed u :
  pair_free is_word is_punct u = true ->
  pair_free is_punct is_word u = true ->
  pair_free is_dquote is_word u = true ->
  pair_free is_word is_backslash u = true ->
  fix_spacing u = u.
Proof.
  intros H1 H2 H3 H4. unfold fix_spacing, space_before_punct,
    space_after_punct, space_after_quote, space_before_backslash.
  rewrite (pair_pass_fixed _ _ u H1), (pair_pass_fixed _ _ u H2),
    (pair_pass_fixed _ _ u H3), (pair_pass_fixed _ _ u H4).
  reflexivity.
Qed.

(** C6.  The fix-up passes of lines 141-153, taken together as one
    function, are idempotent: on their own output they change nothing.
    The same holds for the identifier-line pass alone and for the four
    spacing passes alone. *)
Theorem post_process_idempotent (text : str) :
  post_process (post_process text) = post_process text
  /\ clean_id_lines (clean_id_lines text) = clean_id_lines text
  /\ fix_spacing (fix_spacing text) = fix_spacing text.
Proof.
  assert (forall t, fix_spacing (fix_spacing t) = fix_spacing t) as Hfix.
  { intros t. destruct (fix_spacing_free t) as (H1 & H2 & H3 & H4).
    now apply fix_spacing_fixed. }
  split; [|split].
  - unfold post_process.
    rewrite (settled_fixed (fix_spacing (clean_id_lines text))).
    + apply Hfix.
    + apply fix_spacing_settled, settled_clean.
  - apply settled_fixed, settled_clean.
  - apply Hfix.
Qed.

(** ** Words on an identifier line *)

Lemma run_app_head p x text :
  head_in p text = false -> run p (x ++ text) = run p x.
Proof.
  intros Ht. induction x as [|c x IH]; simpl.
  - now apply run_head_false.
  - destruct (p c); [now rewrite IH|reflexivity].
Qed.

Lemma run_app_ge p (w : str) text :
  forallb p w = true -> length w <= run p (w ++ text).
Proof.
  induction w as [|c w IH]; simpl; intros H; [lia|].
  apply andb_prop in H. destruct H as [-> H]. specialize (IH H). lia.
Qed.

Lemma match_id_tag_eq prev text n :
  match_id_tag prev text = Some n <->
  exists rest, after_id_tag text = Some rest
               /\ 0 < run is_space rest /\ n = 3 + run is_space rest.
Proof.
  unfold match_id_tag. destruct (after_id_tag text) as [rest|].
  - destruct (run is_space rest) as [|k] eqn:E; split.
    + discriminate.
    + intros (r & [= <-] & H & _). lia.
    + intros [= <-]. exists rest. repeat split; lia.
    + intros (r & [= <-] & _ & ->). now rewrite E.
  - split; [discriminate|]. intros (r & H & _). discriminate.
Qed.

(** Every match reported by [re.finditer] is followed by a suffix of the
    text. *)
Lemma finditer_after_suffix (m : matcher) text : forall prev,
  Forall (fun x => exists p, text = p ++ snd x)
         (re_finditer_from m prev 0 text).
Proof.
  remember (length text) as len eqn:Hlen. revert text Hlen.
  induction len as [len IH] using lt_wf_ind. intros text Hlen prev.
  destruct text as [|c rest]; [constructor|].
  rewrite re_finditer_from_step.
  destruct (m prev (c :: rest)) as [[|n]|].
  - eapply Forall_impl; [|apply (IH (length rest)); subst; simpl; auto].
    intros x (p & ->). now exists (c :: p).
  - constructor.
    + exists (firstn (S n) (c :: rest)). symmetry. apply firstn_skipn.
    + eapply Forall_impl;
        [|apply (IH (length (skipn (S n) (c :: rest)))); [|reflexivity]].
      * intros x (p & Hp). exists (firstn (S n) (c :: rest) ++ p).
        rewrite <- app_assoc, <- Hp. symmetry. apply firstn_skipn.
      * subst len. cbn [skipn]. rewrite length_skipn. simpl. lia.
  - eapply Forall_impl; [|apply (IH (length rest)); subst; simpl; auto].
    intros x (p & ->). now exists (c :: p).
Qed.

Lemma no_newline_suffix (p after : str) :
  existsb is_newline (p ++ after) = false -> existsb is_newline after = false.
Proof. rewrite existsb_app. apply orb_false_elim. Qed.

(** The matches of the tag pattern in a text that continues with an
    identifier tag: those before the tag, then those from the tag on. *)
Lemma finditer_before_tag tail pre : forall prev,
  exists before,
    re_finditer_from match_id_tag prev 0 (pre ++ lit "\id" ++ tail)
    = before
        ++ re_finditer_from match_id_tag (rev pre ++ prev) 0
             (lit "\id" ++ tail).
Proof.
  remember (length pre) as len eqn:Hlen. revert pre Hlen.
  induction len as [len IH] using lt_wf_ind. intros pre Hlen prev.
  destruct pre as [|c pre]; [now exists []|].
  cbn [app]. rewrite re_finditer_from_step.
  destruct (match_id_tag prev (c :: pre ++ lit "\id" ++ tail))
    as [[|n]|] eqn:Hm.
  - apply match_id_tag_eq in Hm. destruct Hm as (r & _ & _ & H). lia.
  - apply match_id_tag_eq in Hm. destruct Hm as (r & Ha & Hpos & Hn).
    assert (exists p3, pre = "i"%char :: "d"%char :: p3 /\ r = p3 ++ lit "\id" ++ tail)
      as (p3 & -> & ->).
    { destruct pre as [|i [|d p3]].
      - cbn in Ha. rewrite andb_false_r in Ha. discriminate Ha.
      - cbn in Ha. rewrite andb_false_r in Ha. discriminate Ha.
      - apply after_id_tag_inv in Ha. injection Ha as -> -> -> <-.
        exists p3. split; reflexivity. }
    rewrite (run_app_head is_space p3 (lit "\id" ++ tail) eq_refl) in Hn.
    pose proof (run_le is_space p3) as Hle.
    assert (n = S (S (run is_space p3))) as -> by lia. clear Hn.
    cbn [app]. set (k := run is_space p3) in *.
    assert (skipn (S (S (S k))) (c :: "i"%char :: "d"%char :: p3 ++ lit "\id" ++ tail)
            = skipn k p3 ++ lit "\id" ++ tail) as Hsk.
    { cbn [skipn]. rewrite skipn_app.
      replace (k - length p3) with 0 by lia. reflexivity. }
    rewrite Hsk.
    destruct (IH (length (skipn k p3))
                ltac:(subst len; rewrite length_skipn; simpl; lia)
                (skipn k p3) eq_refl
                (advance (S (S (S k))) prev
                   (c :: "i"%char :: "d"%char :: p3 ++ lit "\id" ++ tail)))
      as (before & Hb).
    eexists (_ :: before). rewrite Hb. cbn [app]. do 3 f_equal.
    unfold advance. cbn [firstn rev]. rewrite firstn_app.
    replace (k - length p3) with 0 by lia. cbn [firstn]. rewrite app_nil_r.
    replace (rev p3) with (rev (skipn k p3) ++ rev (firstn k p3))
      by (now rewrite <- rev_app_distr, firstn_skipn).
    rewrite <- !app_assoc. reflexivity.
  - destruct (IH (length pre) ltac:(subst len; simpl; lia) pre eq_refl
                (c :: prev)) as (before & Hb).
    exists before. rewrite Hb. cbn [rev]. now rewrite <- app_assoc.
Qed.

(** After an identifier tag and its white space, and while no line feed
    has been seen, the position is on the identifier line. *)
Lemma on_id_line_after_tag pre ws seen :
  ws <> [] -> forallb is_space ws = true ->
  existsb is_newline seen = false ->
  on_id_line (pre ++ lit "\id" ++ ws ++ seen) = true.
Proof.
  intros Hne Hws Hseen. unfold on_id_line, re_finditer.
  destruct (finditer_before_tag (ws ++ seen) pre []) as (before & ->).
  change (lit "\id" ++ ws ++ seen)
    with ("\"%char :: lit "id" ++ ws ++ seen).
  rewrite re_finditer_from_step.
  change ("\"%char :: lit "id" ++ ws ++ seen)
    with (lit "\id" ++ ws ++ seen).
  pose proof (run_app_ge is_space ws seen Hws) as Hge.
  assert (0 < length ws) as Hpos by (destruct ws; simpl; [congruence|lia]).
  assert (match_id_tag (rev pre ++ []) (lit "\id" ++ ws ++ seen)
          = Some (S (S (S (run is_space (ws ++ seen)))))) as ->.
  { apply match_id_tag_eq. exists (ws ++ seen).
    repeat split; [lia]. }
  set (k := run is_space (ws ++ seen)) in *.
  change (skipn (S (S (S k))) (lit "\id" ++ ws ++ seen))
    with (skipn k (ws ++ seen)).
  assert (existsb is_newline (skipn k (ws ++ seen)) = false) as Hafter.
  { rewrite skipn_app.
    replace (skipn k ws) with (@nil ascii)
      by (symmetry; apply skipn_all2; lia).
    cbn [app]. apply (no_newline_suffix (firstn (k - length ws) seen)).
    now rewrite firstn_skipn. }
  set (later := re_finditer_from _ _ 0 _).
  assert (Forall (fun x => existsb is_newline (snd x) = false) later) as Hl.
  { eapply Forall_impl; [|apply finditer_after_suffix].
    intros x (p & Hp). apply (no_newline_suffix p). now rewrite <- Hp. }
  rewrite rev_app_distr. cbn [rev].
  destruct (rev later) as [|[m after] l] eqn:Er.
  - cbn [app]. now rewrite Hafter.
  - cbn [app].
    assert (In (m, after) later) as Hin
      by (apply in_rev; rewrite Er; now left).
    apply (proj1 (Forall_forall _ _) Hl) in Hin. cbn [snd] in Hin.
    now rewrite Hin.
Qed.

(** [replace_word] keeps a word that stands on an identifier line. *)
Lemma replace_word_on_id_line lex vocab pre ws seen word :
  ws <> [] -> forallb is_space ws = true ->
  existsb is_newline seen = false ->
  replace_word lex vocab (rev (pre ++ lit "\id" ++ ws ++ seen)) word = word.
Proof.
  intros Hne Hws Hseen. unfold replace_word. rewrite rev_involutive.
  now rewrite on_id_line_after_tag.
Qed.

(** ** Truncation of an identifier line *)

Lemma clean_prev_irrelevant text : forall p1 p2 skip,
  re_sub_from match_id_line id_line_repl p1 skip text
  = re_sub_from match_id_line id_line_repl p2 skip text.
Proof.
  induction text as [|c rest IH]; intros p1 p2 skip; [reflexivity|].
  cbn [re_sub_from]. destruct skip as [|k]; [|apply IH].
  change (match_id_line p1 (c :: rest)) with (match_id_line p2 (c :: rest)).
  destruct (match_id_line p2 (c :: rest)) as [[|n]|];
    unfold id_line_repl; f_equal; apply IH.
Qed.

Lemma head_in_app_false p (x y : str) :
  head_in p (x ++ y) = false -> head_in p (x ++ []) = false.
Proof. destruct x; simpl; [reflexivity|auto]. Qed.

Lemma firstn_exact (x y : str) : firstn (length x) (x ++ y) = x.
Proof. now rewrite firstn_app, Nat.sub_diag, firstn_all, app_nil_r. Qed.

Lemma skipn_exact (x y : str) : skipn (length x) (x ++ y) = y.
Proof. now rewrite skipn_app, Nat.sub_diag, skipn_all. Qed.

(** The pattern on an identifier line: the tag, white space [ws], a code
    [cdl], and the rest of the line [tail]. *)
Lemma match_id_line_at prev ws cdl tail rest :
  ws <> [] -> forallb is_space ws = true ->
  cdl <> [] -> forallb is_code_char cdl = true ->
  head_in is_code_char (tail ++ rest) = false ->
  forallb not_newline tail = true -> line_end rest ->
  match_id_line prev (lit "\id" ++ ws ++ cdl ++ tail ++ rest)
  = Some (3 + length (ws ++ cdl ++ tail)).
Proof.
  intros Hw1 Hw2 Hc1 Hc2 Ht1 Ht2 Hr.
  rewrite match_id_line_eq, after_id_tag_lit. cbv zeta.
  assert (run is_space (ws ++ cdl ++ tail ++ rest) = length ws) as ->.
  { apply run_app; [assumption|].
    now apply head_code_not_space, nonempty_head. }
  rewrite skipn_exact.
  assert (run is_code_char (cdl ++ tail ++ rest) = length cdl) as ->
    by now apply run_app.
  rewrite skipn_exact.
  assert (run not_newline (tail ++ rest) = length tail) as ->
    by (apply run_app; [assumption|now apply line_end_head]).
  assert (0 < length ws) by (destruct ws; simpl; [congruence|lia]).
  assert (0 < length cdl) by (destruct cdl; simpl; [congruence|lia]).
  rewrite !length_app.
  destruct (length ws); [lia|]. destruct (length cdl); [lia|].
  cbn [Nat.ltb Nat.leb andb]. f_equal. lia.
Qed.

Lemma id_line_code_at ws cdl tail :
  ws <> [] -> forallb is_space ws = true ->
  cdl <> [] -> forallb is_code_char cdl = true ->
  head_in is_code_char (tail ++ []) = false ->
  id_line_code (lit "\id" ++ ws ++ cdl ++ tail) = cdl.
Proof.
  intros Hw1 Hw2 Hc1 Hc2 Ht1.
  rewrite id_line_code_eq, after_id_tag_lit. cbv zeta.
  assert (run is_space (ws ++ cdl ++ tail) = length ws) as ->.
  { apply run_app; [assumption|].
    now apply head_code_not_space, nonempty_head. }
  rewrite skipn_exact.
  assert (run is_code_char (cdl ++ tail) = length cdl) as ->.
  { apply run_app; [assumption|]. now rewrite app_nil_r in Ht1. }
  rewrite firstn_exact.
  assert (0 < length ws) by (destruct ws; simpl; [congruence|lia]).
  assert (0 < length cdl) by (destruct cdl; simpl; [congruence|lia]).
  destruct (length ws); [lia|]. destruct (length cdl); [lia|]. reflexivity.
Qed.

(** An identifier line at the head of the text becomes the tag, one space
    and the code; the pass goes on after the line. *)
Lemma clean_id_line_truncates ws cdl tail rest :
  ws <> [] -> forallb is_space ws = true ->
  cdl <> [] -> forallb is_code_char cdl = true ->
  head_in is_code_char (tail ++ rest) = false ->
  forallb not_newline tail = true -> line_end rest ->
  clean_id_lines (lit "\id" ++ ws ++ cdl ++ tail ++ rest)
  = lit "\id " ++ cdl ++ clean_id_lines rest.
Proof.
  intros Hw1 Hw2 Hc1 Hc2 Ht1 Ht2 Hr. unfold clean_id_lines, re_sub.
  change (lit "\id" ++ ws ++ cdl ++ tail ++ rest)
    with ("\"%char :: lit "id" ++ ws ++ cdl ++ tail ++ rest).
  rewrite re_sub_from_step.
  change ("\"%char :: lit "id" ++ ws ++ cdl ++ tail ++ rest)
    with (lit "\id" ++ ws ++ cdl ++ tail ++ rest).
  rewrite (match_id_line_at [] ws cdl tail rest) by assumption.
  set (m := ws ++ cdl ++ tail).
  change (3 + length m) with (S (S (S (length m)))).
  replace (ws ++ cdl ++ tail ++ rest) with (m ++ rest)
    by (unfold m; now rewrite <- !app_assoc).
  change (firstn (S (S (S (length m)))) (lit "\id" ++ m ++ rest))
    with (lit "\id" ++ firstn (length m) (m ++ rest)).
  change (skipn (S (S (S (length m)))) (lit "\id" ++ m ++ rest))
    with (skipn (length m) (m ++ rest)).
  rewrite firstn_exact, skipn_exact. unfold id_line_repl, m.
  rewrite id_line_code_at by eauto using head_in_app_false.
  rewrite <- app_assoc. do 2 f_equal. apply clean_prev_irrelevant.
Qed.

(** ** The word pass on an identifier line *)

Lemma longest_ok_le ok n k : longest_ok ok n = Some k -> 0 < k <= n.
Proof.
  induction n as [|n IH]; simpl; [discriminate|].
  destruct (ok (S n)).
  - intros [= <-]. lia.
  - intros H. apply IH in H. lia.
Qed.

Lemma match_word_le prev text n :
  match_word prev text = Some n -> 0 < n <= run is_letter text.
Proof.
  unfold match_word, match_plain_word.
  destruct (negb (lookbehind_tag prev)); [|discriminate].
  destruct (boundary prev text); [|discriminate].
  apply longest_ok_le.
Qed.

Lemma match_word_not_letter prev text :
  head_in is_letter text = false -> match_word prev text = None.
Proof.
  intros H. destruct (match_word prev text) as [n|] eqn:E; [|reflexivity].
  apply match_word_le in E. rewrite (run_head_false _ _ H) in E. lia.
Qed.

Section WordPass.
Variable repl : str -> str -> str.

Let pass := re_sub_from match_word repl.

(** Characters that are not letters are copied. *)
Lemma word_pass_plain region text : forall prev,
  forallb (fun c => negb (is_letter c)) region = true ->
  pass prev 0 (region ++ text)
  = region ++ pass (rev region ++ prev) 0 text.
Proof.
  unfold pass.
  induction region as [|c region IH]; intros prev H; [reflexivity|].
  cbn [forallb] in H. apply andb_prop in H. destruct H as [Hc H].
  apply negb_true_iff in Hc.
  cbn [app]. rewrite re_sub_from_step, match_word_not_letter by exact Hc.
  rewrite IH by exact H. cbn [rev]. now rewrite <- app_assoc.
Qed.

(** A stretch of text in which every match is replaced by itself is
    copied, provided that a line end, which no word crosses, follows. *)
Lemma word_pass_kept text region : forall prev,
  (forall x y, region = x ++ y -> forall w, repl (rev x ++ prev) w = w) ->
  head_in is_letter text = false ->
  pass prev 0 (region ++ text)
  = region ++ pass (rev region ++ prev) 0 text.
Proof.
  unfold pass.
  remember (length region) as len eqn:Hlen. revert region Hlen.
  induction len as [len IH] using lt_wf_ind.
  intros region Hlen prev Hkept Htext.
  destruct region as [|c region]; [reflexivity|].
  cbn [app]. rewrite re_sub_from_step.
  destruct (match_word prev (c :: region ++ text)) as [[|n]|] eqn:Hm.
  - apply match_word_le in Hm. lia.
  - pose proof (match_word_le _ _ _ Hm) as [_ Hle].
    change (c :: region ++ text) with ((c :: region) ++ text) in *.
    rewrite (run_app_head _ _ _ Htext) in Hle.
    pose proof (run_le is_letter (c :: region)) as Hlen'.
    remember (c :: region) as r eqn:Er.
    assert (S n <= length r) as Hn by lia.
    rewrite (Hkept [] r eq_refl).
    rewrite firstn_app, skipn_app.
    replace (S n - length r) with 0 by lia.
    change (firstn 0 text) with (@nil ascii). change (skipn 0 text) with text.
    rewrite app_nil_r.
    assert (advance (S n) prev (r ++ text) = rev (firstn (S n) r) ++ prev)
      as Hadv.
    { unfold advance. rewrite firstn_app.
      replace (S n - length r) with 0 by lia.
      change (firstn 0 text) with (@nil ascii). now rewrite app_nil_r. }
    rewrite Hadv.
    rewrite (IH (length (skipn (S n) r))); [| |reflexivity| |exact Htext].
    + replace (rev (skipn (S n) r) ++ rev (firstn (S n) r) ++ prev)
        with (rev r ++ prev)
        by (now rewrite app_assoc, <- rev_app_distr, firstn_skipn).
      rewrite app_assoc, firstn_skipn, Er. reflexivity.
    + subst len. rewrite length_skipn. lia.
    + intros x y Hxy w.
      rewrite app_assoc, <- rev_app_distr.
      apply (Hkept (firstn (S n) r ++ x) y).
      now rewrite <- app_assoc, <- Hxy, firstn_skipn.
  - rewrite (IH (length region)); [| |reflexivity| |exact Htext].
    + cbn [rev]. now rewrite <- app_assoc.
    + subst len. simpl. lia.
    + intros x y Hxy w.
      replace (rev x ++ c :: prev) with (rev (c :: x) ++ prev)
        by (cbn [rev]; now rewrite <- app_assoc).
      apply (Hkept (c :: x) y). now rewrite Hxy.
Qed.
End WordPass.

Lemma space_not_letter c : is_space c = true -> is_letter c = false.
Proof. each_ascii c; intros H; try reflexivity; discriminate H. Qed.

Lemma newline_not_letter c : is_newline c = true -> is_letter c = false.
Proof. each_ascii c; intros H; try reflexivity; discriminate H. Qed.

Lemma line_end_not_letter text : line_end text -> head_in is_letter text = false.
Proof.
  destruct text as [|c t]; simpl; [reflexivity|apply newline_not_letter].
Qed.

Lemma existsb_prefix (x y : str) :
  existsb is_newline (x ++ y) = false -> existsb is_newline x = false.
Proof. rewrite existsb_app. apply orb_false_elim. Qed.

Lemma word_pass_line_end repl prev rest :
  line_end rest -> line_end (re_sub_from match_word repl prev 0 rest).
Proof.
  destruct rest as [|c rest]; [trivial|]. intros H.
  rewrite re_sub_from_step, match_word_not_letter; [exact H|].
  now apply line_end_not_letter.
Qed.

Lemma clean_line_end text : line_end text -> line_end (clean_id_lines text).
Proof.
  intros H. apply line_end_head. unfold clean_id_lines, re_sub.
  rewrite (stb_head _ _ _ (clean_same_to_backslash _ _)).
  now apply line_end_head.
Qed.

Lemma gapped_line_end a b : gapped a b -> line_end a -> line_end b.
Proof.
  intros Hg H. apply line_end_head. rewrite <- (gapped_head _ _ _ Hg).
  now apply line_end_head.
Qed.

Lemma gapped_nil_inv b : gapped [] b -> b = [].
Proof. now inversion 1. Qed.

(** Spaces put into gaps leave a clean identifier line at the head of the
    text as it is. *)
Lemma gapped_clean_line cdl rest t' :
  cdl <> [] -> forallb is_code_char cdl = true -> line_end rest ->
  gapped (lit "\id " ++ cdl ++ rest) t' ->
  exists rest', t' = lit "\id " ++ cdl ++ rest' /\ gapped rest rest'.
Proof.
  intros Hne Hcd Hend Hg.
  destruct (gapped_prefix (4 + length cdl) _ _ Hg
              (nogap_clean_id_line cdl rest Hne Hcd Hend)) as [Hf Hsk].
  rewrite firstn_clean_id_line in Hf. rewrite skipn_clean_id_line in Hsk.
  exists (skipn (4 + length cdl) t'). split; [|exact Hsk].
  rewrite app_assoc, <- Hf. symmetry. apply firstn_skipn.
Qed.

Lemma fix_spacing_clean_line cdl rest :
  cdl <> [] -> forallb is_code_char cdl = true -> line_end rest ->
  exists rest',
    fix_spacing (lit "\id " ++ cdl ++ rest) = lit "\id " ++ cdl ++ rest'
    /\ line_end rest' /\ (rest = [] -> rest' = []).
Proof.
  intros Hne Hcd Hend. unfold fix_spacing.
  destruct (gapped_clean_line cdl rest _ Hne Hcd Hend (before_punct_gapped _))
    as (r1 & -> & G1).
  pose proof (gapped_line_end _ _ G1 Hend) as E1.
  destruct (gapped_clean_line cdl r1 _ Hne Hcd E1 (after_punct_gapped _))
    as (r2 & -> & G2).
  pose proof (gapped_line_end _ _ G2 E1) as E2.
  destruct (gapped_clean_line cdl r2 _ Hne Hcd E2 (after_quote_gapped _))
    as (r3 & -> & G3).
  pose proof (gapped_line_end _ _ G3 E2) as E3.
  destruct (gapped_clean_line cdl r3 _ Hne Hcd E3 (before_backslash_gapped _))
    as (r4 & -> & G4).
  exists r4. split; [reflexivity|]. split; [now apply (gapped_line_end r3)|].
  intros ->. apply gapped_nil_inv in G1. subst r1.
  apply gapped_nil_inv in G2. subst r2.
  apply gapped_nil_inv in G3. subst r3.
  now apply gapped_nil_inv in G4.
Qed.

Lemma no_newline_forallb tail :
  existsb is_newline tail = false -> forallb not_newline tail = true.
Proof.
  induction tail as [|c t IH]; simpl; [reflexivity|].
  intros H. apply orb_false_elim in H. destruct H as [Hc Ht].
  unfold not_newline at 1. rewrite Hc. simpl. auto.
Qed.

(** ** An identifier line after a line feed *)

Section AppFacts.
Variable m : matcher.
Variable r : str -> str -> str.

(** A text [X ++ Z] is scanned as [X] and then [Z] when no match that
    starts in [X] depends on [Z] or reaches into it. *)
Lemma re_sub_from_app Z X : forall prev skip,
  skip <= length X ->
  (forall a b prev', X = a ++ b -> b <> [] ->
     m prev' (b ++ Z) = m prev' b
     /\ forall n, m prev' b = Some n -> n <= length b) ->
  re_sub_from m r prev skip (X ++ Z)
  = re_sub_from m r prev skip X ++ re_sub_from m r (rev X ++ prev) 0 Z.
Proof.
  induction X as [|c X IH]; intros prev skip Hskip Hloc.
  - simpl in Hskip. assert (skip = 0) as -> by lia.
    destruct Z; reflexivity.
  - assert (forall a b prev', X = a ++ b -> b <> [] ->
              m prev' (b ++ Z) = m prev' b
              /\ forall n, m prev' b = Some n -> n <= length b) as Hloc'.
    { intros a b prev' E Hb. apply (Hloc (c :: a) b prev'); [|exact Hb].
      now rewrite E. }
    assert (rev (c :: X) ++ prev = rev X ++ c :: prev) as Hrev
      by (cbn [rev]; now rewrite <- app_assoc).
    rewrite Hrev. simpl in Hskip.
    destruct skip as [|k].
    + destruct (Hloc [] (c :: X) prev eq_refl) as [Hm Hb]; [discriminate|].
      cbn [app re_sub_from].
      change (c :: X ++ Z) with ((c :: X) ++ Z). rewrite Hm.
      destruct (m prev (c :: X)) as [[|n]|] eqn:E.
      * cbn [app]. now rewrite IH by (auto; lia).
      * specialize (Hb _ eq_refl). simpl in Hb.
        cbn [app firstn]. rewrite firstn_app.
        replace (n - length X) with 0 by lia.
        change (firstn 0 Z) with (@nil ascii). rewrite app_nil_r.
        rewrite IH by (auto; lia). now rewrite <- app_assoc.
      * cbn [app]. now rewrite IH by (auto; lia).
    + cbn [app re_sub_from]. apply IH; [lia|exact Hloc'].
Qed.
End AppFacts.

Lemma longest_ok_ext f g n :
  (forall k, 0 < k <= n -> f k = g k) -> longest_ok f n = longest_ok g n.
Proof.
  induction n as [|n IH]; intros H; simpl; [reflexivity|].
  rewrite (H (S n)) by lia. rewrite IH; [reflexivity|].
  intros k Hk. apply H. lia.
Qed.

Lemma is_newline_eq c : is_newline c = true -> c = newline.
Proof.
  unfold is_newline, code. intros H. apply Nat.eqb_eq in H.
  rewrite <- (ascii_nat_embedding c), H. reflexivity.
Qed.

Lemma word_at_app x Z : word_at Z = false -> word_at (x ++ Z) = word_at x.
Proof. intros H. destruct x; [exact H|reflexivity]. Qed.

(** A word match depends on the text up to the first character after the
    letters only. *)
Lemma match_word_local prev b Z :
  b <> [] -> word_at Z = false ->
  match_word prev (b ++ Z) = match_word prev b.
Proof.
  intros Hb HZ. unfold match_word, match_plain_word.
  destruct (negb (lookbehind_tag prev)); [|reflexivity].
  assert (boundary prev (b ++ Z) = boundary prev b) as ->.
  { destruct b; [congruence|reflexivity]. }
  destruct (boundary prev b); [|reflexivity].
  assert (head_in is_letter Z = false) as HZ'.
  { destruct Z as [|z Z]; [reflexivity|]. simpl in *.
    destruct (is_letter z) eqn:E; [|reflexivity].
    apply is_letter_word in E. congruence. }
  rewrite (run_app_head _ _ _ HZ').
  apply longest_ok_ext. intros k Hk.
  pose proof (run_le is_letter b) as Hle.
  unfold advance. rewrite firstn_app, skipn_app.
  replace (k - length b) with 0 by lia.
  change (firstn 0 Z) with (@nil ascii). change (skipn 0 Z) with Z.
  rewrite app_nil_r. unfold boundary.
  now rewrite (word_at_app (skipn k b) Z HZ).
Qed.

(** The word pass across a line feed. *)
Lemma word_pass_app_newline repl s Z prev :
  re_sub_from match_word repl prev 0 (s ++ newline :: Z)
  = re_sub_from match_word repl prev 0 s
      ++ newline :: re_sub_from match_word repl (newline :: rev s ++ prev) 0 Z.
Proof.
  rewrite re_sub_from_app.
  - f_equal. rewrite re_sub_from_step, match_word_not_letter; reflexivity.
  - lia.
  - intros a b prev' _ Hb. split.
    + now apply match_word_local.
    + intros n Hn. apply match_word_le in Hn.
      pose proof (run_le is_letter b). lia.
Qed.

Lemma run_app_lt p (x y : str) : run p x < length x -> run p (x ++ y) = run p x.
Proof.
  induction x as [|c x IH]; simpl; [lia|].
  destruct (p c); [|reflexivity]. intros H. rewrite IH; [reflexivity|lia].
Qed.

Lemma run_all_forallb p (x : str) : run p x = length x -> forallb p x = true.
Proof.
  induction x as [|c x IH]; simpl; [reflexivity|].
  destruct (p c); [|discriminate]. intros [= H]. now apply IH.
Qed.

(** An identifier-line match does not reach beyond a line feed, and does
    not depend on what follows the line feed when that is neither white
    space nor a code character. *)
Lemma match_id_line_local prev b Z :
  head_in is_space Z = false -> head_in is_code_char Z = false ->
  match_id_line prev (b ++ newline :: Z) = match_id_line prev b
  /\ forall n, match_id_line prev b = Some n -> n <= length b.
Proof.
  intros Hs Hc. rewrite !match_id_line_eq.
  destruct b as [|b0 [|b1 [|b2 t]]].
  - cbn [app]. rewrite (after_id_tag_head (newline :: Z)) by reflexivity.
    split; [reflexivity|discriminate].
  - split; [|discriminate]. cbn [app after_id_tag].
    destruct Z; [reflexivity|].
    change (code newline =? 105) with false. now rewrite andb_false_r.
  - split; [|discriminate]. cbn [app after_id_tag].
    change (code newline =? 100) with false. now rewrite andb_false_r.
  - cbn [app after_id_tag].
    destruct (is_backslash b0 && (code b1 =? 105) && (code b2 =? 100));
      [|split; [reflexivity|discriminate]].
    cbv zeta. pose proof (run_le is_space t) as Hle.
    destruct (Nat.eq_dec (run is_space t) (length t)) as [Hall|Hnot].
    + rewrite Hall, skipn_all. cbn [run]. rewrite andb_false_r.
      split; [|discriminate].
      replace (t ++ newline :: Z) with ((t ++ [newline]) ++ Z)
        by now rewrite <- app_assoc.
      rewrite (run_app is_space (t ++ [newline]) Z);
        [|rewrite forallb_app, (run_all_forallb _ _ Hall); reflexivity
         |exact Hs].
      rewrite skipn_exact, (run_head_false _ _ Hc).
      now rewrite andb_false_r.
    + rewrite (run_app_lt is_space t) by lia.
      set (ws := run is_space t).
      rewrite skipn_app. replace (ws - length t) with 0 by lia.
      change (skipn 0 (newline :: Z)) with (newline :: Z).
      set (r1 := skipn ws t).
      rewrite (run_app_head is_code_char r1 (newline :: Z)) by reflexivity.
      set (cd := run is_code_char r1).
      pose proof (run_le is_code_char r1) as Hcd. fold cd in Hcd.
      rewrite skipn_app. replace (cd - length r1) with 0 by lia.
      change (skipn 0 (newline :: Z)) with (newline :: Z).
      rewrite (run_app_head not_newline (skipn cd r1) (newline :: Z))
        by reflexivity.
      split; [reflexivity|].
      destruct ((0 <? ws) && (0 <? cd)); [|discriminate].
      intros n [= <-].
      pose proof (run_le not_newline (skipn cd r1)) as Htl.
      rewrite length_skipn in Htl.
      assert (length r1 = length t - ws) as Hr1
        by (unfold r1; apply length_skipn).
      fold ws in Hle. simpl. lia.
Qed.

(** The identifier-line pass across a line feed. *)
Lemma clean_app_newline s Z :
  head_in is_space Z = false -> head_in is_code_char Z = false ->
  clean_id_lines (s ++ newline :: Z)
  = clean_id_lines s ++ newline :: clean_id_lines Z.
Proof.
  intros Hs Hc. unfold clean_id_lines, re_sub.
  rewrite re_sub_from_app.
  - f_equal. rewrite re_sub_from_step, match_id_line_eq.
    rewrite (after_id_tag_head (newline :: Z)) by reflexivity.
    f_equal. apply clean_prev_irrelevant.
  - lia.
  - intros a b prev' _ _. now apply match_id_line_local.
Qed.

Lemma pair_prev_irrelevant p q text : forall p1 p2 skip,
  re_sub_from (match_pair p q) space_between p1 skip text
  = re_sub_from (match_pair p q) space_between p2 skip text.
Proof.
  induction text as [|c rest IH]; intros p1 p2 skip; [reflexivity|].
  cbn [re_sub_from]. destruct skip as [|k]; [|apply IH].
  change (match_pair p q p1 (c :: rest)) with (match_pair p q p2 (c :: rest)).
  destruct (match_pair p q p2 (c :: rest)) as [[|n]|];
    unfold space_between; f_equal; apply IH.
Qed.

Section PairAcross.
Variables p q : ascii -> bool.
Hypothesis p_newline : p newline = false.
Hypothesis q_newline : q newline = false.

(** A pair pass across a line feed, which is in none of the pairs. *)
Lemma pair_pass_app_newline s Z :
  re_sub (match_pair p q) space_between (s ++ newline :: Z)
  = re_sub (match_pair p q) space_between s
      ++ newline :: re_sub (match_pair p q) space_between Z.
Proof.
  unfold re_sub. rewrite re_sub_from_app.
  - f_equal. rewrite pair_pass_step.
    destruct Z as [|z Z]; [reflexivity|].
    rewrite p_newline. cbn [andb]. f_equal. apply pair_prev_irrelevant.
  - lia.
  - intros a b prev' _ Hb. destruct b as [|x [|y t]]; [congruence| |].
    + cbn [app match_pair]. rewrite q_newline, andb_false_r.
      split; [reflexivity|discriminate].
    + cbn [app match_pair]. split; [reflexivity|].
      destruct (p x && q y); [|discriminate]. intros n [= <-]. simpl. lia.
Qed.
End PairAcross.

Lemma fix_spacing_app_newline s Z :
  fix_spacing (s ++ newline :: Z) = fix_spacing s ++ newline :: fix_spacing Z.
Proof.
  unfold fix_spacing, space_before_backslash, space_after_quote,
    space_after_punct, space_before_punct.
  now rewrite !pair_pass_app_newline by reflexivity.
Qed.

(** The word pass on an identifier line, whatever stands before it: with
    no lexicon entry for the tag name itself, the whole line is left as it
    is and the pass goes on after it. *)
Lemma word_pass_id_line lex vocab prev ws line rest :
  lookup (lit "id") lex = None ->
  ws <> [] -> forallb is_space ws = true ->
  existsb is_newline line = false -> line_end rest ->
  re_sub_from match_word (replace_word lex vocab) prev 0
    (lit "\id" ++ ws ++ line ++ rest)
  = lit "\id" ++ ws ++ line
      ++ re_sub_from match_word (replace_word lex vocab)
           (rev (lit "\id" ++ ws ++ line) ++ prev) 0 rest.
Proof.
  intros Hid Hne Hws Hline Hrest.
  assert (exists s0 ws', ws = s0 :: ws' /\ is_space s0 = true)
    as (s0 & ws' & Ews & Hs0).
  { destruct ws as [|s0 ws']; [congruence|]. exists s0, ws'.
    cbn [forallb] in Hws. apply andb_prop in Hws. tauto. }
  change (lit "\id" ++ ws ++ line ++ rest)
    with ("\"%char :: lit "id" ++ ws ++ line ++ rest).
  rewrite re_sub_from_step.
  rewrite match_word_not_letter by reflexivity.
  f_equal. change (lit "id" ++ ws ++ line ++ rest)
    with ("i"%char :: "d"%char :: ws ++ line ++ rest).
  rewrite re_sub_from_step.
  assert (match_word ("\"%char :: prev)
            ("i"%char :: "d"%char :: ws ++ line ++ rest)
          = Some 2) as ->.
  { rewrite Ews. cbn [app].
    unfold match_word, match_plain_word.
    assert (lookbehind_tag ("\"%char :: prev) = false) as ->
      by (destruct prev; reflexivity).
    cbn [negb].
    change (boundary ("\"%char :: prev)
              ("i"%char :: "d"%char :: s0 :: ws' ++ line ++ rest))
      with true. cbv iota.
    cbn [run]. change (is_letter "i") with true. change (is_letter "d") with true.
    cbv iota. rewrite (space_not_letter s0 Hs0).
    cbn [longest_ok advance firstn skipn rev app].
    unfold boundary. cbn [word_before word_at].
    destruct (space_classes s0 Hs0) as (-> & _). reflexivity. }
  assert (replace_word lex vocab ("\"%char :: prev)
            (firstn 2 ("i"%char :: "d"%char :: ws ++ line ++ rest))
          = lit "id") as ->.
  { cbn [firstn]. unfold replace_word.
    destruct (on_id_line _); [reflexivity|].
    unfold apply_lexicon. change (lower ["i"%char; "d"%char]) with (lit "id").
    now rewrite Hid. }
  cbn [skipn]. change (lit "id" ++ ?x) with ("i"%char :: "d"%char :: x).
  cbn [app]. do 2 f_equal.
  rewrite word_pass_plain.
  2:{ apply forallb_forall. intros c Hc. apply negb_true_iff.
      apply space_not_letter. now apply (proj1 (forallb_forall _ _) Hws). }
  f_equal.
  rewrite word_pass_kept.
  - f_equal. f_equal. unfold advance. cbn [firstn rev app].
    rewrite !rev_app_distr. cbn [rev app]. now rewrite <- !app_assoc.
  - intros x y Hxy w.
    replace (rev x ++ rev ws
               ++ advance 2 ("\"%char :: prev)
                    ("i"%char :: "d"%char :: ws ++ line ++ rest))
      with (rev (rev prev ++ lit "\id" ++ ws ++ x)).
    + apply replace_word_on_id_line; auto.
      apply (existsb_prefix x y). now rewrite <- Hxy.
    + unfold advance. cbn [firstn rev app].
      rewrite !rev_app_distr, rev_involutive. cbn [rev app].
      now rewrite <- !app_assoc.
  - now apply line_end_not_letter.
Qed.

(** Post-processing of an identifier line and of the text [after] that the
    word pass leaves behind it. *)
Lemma post_process_id_line ws cdl tail after :
  ws <> [] -> forallb is_space ws = true ->
  cdl <> [] -> forallb is_code_char cdl = true ->
  head_in is_code_char (tail ++ after) = false ->
  existsb is_newline tail = false -> line_end after ->
  exists out_rest,
    post_process (lit "\id" ++ ws ++ cdl ++ tail ++ after)
    = lit "\id " ++ cdl ++ out_rest
    /\ line_end out_rest /\ (after = [] -> out_rest = []).
Proof.
  intros Hw1 Hw2 Hc1 Hc2 Ht1 Ht2 Ha. unfold post_process.
  rewrite clean_id_line_truncates by auto using no_newline_forallb.
  destruct (fix_spacing_clean_line cdl (clean_id_lines after) Hc1 Hc2
              (clean_line_end _ Ha)) as (out & Hout & Hend & Hnil).
  exists out. split; [exact Hout|]. split; [exact Hend|].
  intros ->. now apply Hnil.
Qed.

(** The whole rewriting of a text with an identifier line that starts the
    text or follows a line feed: the text before the line is rewritten as
    it is on its own. *)
Lemma transform_id_line_at lex vocab pre ws cdl tail rest :
  line_end (rev pre) ->
  lookup (lit "id") lex = None ->
  ws <> [] -> forallb is_space ws = true ->
  cdl <> [] -> forallb is_code_char cdl = true ->
  head_in is_code_char (tail ++ rest) = false ->
  existsb is_newline tail = false -> line_end rest ->
  exists after out_rest,
    replace_words lex vocab (pre ++ lit "\id" ++ ws ++ cdl ++ tail ++ rest)
    = replace_words lex vocab pre ++ lit "\id" ++ ws ++ cdl ++ tail ++ after
    /\ line_end after
    /\ transform_usfm_content
         (pre ++ lit "\id" ++ ws ++ cdl ++ tail ++ rest) lex vocab
       = transform_usfm_content pre lex vocab ++ lit "\id " ++ cdl ++ out_rest
    /\ line_end out_rest
    /\ (rest = [] -> out_rest = []).
Proof.
  intros Hpre Hid Hw1 Hw2 Hc1 Hc2 Ht1 Ht2 Hr.
  assert (existsb is_newline (cdl ++ tail) = false) as Hline.
  { rewrite existsb_app, Ht2, orb_false_r.
    destruct (existsb is_newline cdl) eqn:E; [|reflexivity].
    apply existsb_exists in E. destruct E as (c & Hin & Hc).
    apply newline_not_code in Hc.
    rewrite (proj1 (forallb_forall _ _) Hc2 c Hin) in Hc. discriminate. }
  assert (forall prev, exists after,
            re_sub_from match_word (replace_word lex vocab) prev 0
              (lit "\id" ++ ws ++ cdl ++ tail ++ rest)
            = lit "\id" ++ ws ++ cdl ++ tail ++ after
            /\ line_end after /\ (rest = [] -> after = [])) as HW.
  { intros prev.
    pose proof (word_pass_id_line lex vocab prev ws (cdl ++ tail) rest
                  Hid Hw1 Hw2 Hline Hr) as Hw.
    rewrite <- !app_assoc in Hw. eexists. split; [exact Hw|].
    split; [now apply word_pass_line_end|]. intros ->. reflexivity. }
  assert (forall after, line_end after -> (rest = [] -> after = []) ->
            exists out_rest,
              post_process (lit "\id" ++ ws ++ cdl ++ tail ++ after)
              = lit "\id " ++ cdl ++ out_rest
              /\ line_end out_rest /\ (rest = [] -> out_rest = [])) as HP.
  { intros after Ha Hnil.
    destruct (post_process_id_line ws cdl tail after)
      as (out & Ho & He & Hn); auto.
    - destruct tail as [|c t]; [|exact Ht1]. now apply line_end_not_code.
    - exists out. auto. }
  destruct (rev pre) as [|c t] eqn:E.
  - assert (pre = []) as ->.
    { rewrite <- (rev_involutive pre), E. reflexivity. }
    destruct (HW []) as (after & Ha & Hend & Hnil).
    destruct (HP after Hend Hnil) as (out & Ho & He & Hn).
    exists after, out. cbn [app].
    unfold transform_usfm_content, replace_words, re_sub. rewrite Ha.
    auto.
  - simpl in Hpre. apply is_newline_eq in Hpre. subst c.
    assert (pre = rev t ++ [newline]) as ->.
    { rewrite <- (rev_involutive pre), E. reflexivity. }
    set (s := rev t).
    destruct (HW (newline :: rev s ++ [])) as (after & Ha & Hend & Hnil).
    destruct (HP after Hend Hnil) as (out & Ho & He & Hn).
    exists after, out.
    assert (replace_words lex vocab (s ++ [newline])
            = replace_words lex vocab s ++ [newline]) as Hs.
    { unfold replace_words, re_sub. now rewrite word_pass_app_newline. }
    assert (replace_words lex vocab
              ((s ++ [newline]) ++ lit "\id" ++ ws ++ cdl ++ tail ++ rest)
            = replace_words lex vocab (s ++ [newline])
                ++ lit "\id" ++ ws ++ cdl ++ tail ++ after) as Hall.
    { rewrite Hs. unfold replace_words, re_sub. rewrite <- !app_assoc.
      cbn [app]. now rewrite word_pass_app_newline, Ha. }
    split; [exact Hall|]. split; [exact Hend|].
    split; [|split; [exact He|exact Hn]].
    unfold transform_usfm_content. rewrite Hall, Hs.
    unfold post_process at 1 2. rewrite <- !app_assoc. cbn [app].
    rewrite !clean_app_newline by reflexivity.
    rewrite !fix_spacing_app_newline.
    change (fix_spacing (clean_id_lines [])) with (@nil ascii).
    fold (post_process (lit "\id" ++ ws ++ cdl ++ tail ++ after)).
    rewrite Ho, <- app_assoc. reflexivity.
Qed.

(** C5, as stated: an identifier line whose code is in lower case is not
    truncated; the line stays whole. *)
Lemma lowercase_id_line_not_truncated :
  transform_usfm_content (lit "\id gen Genesis book") genesis_lexicon []
    = lit "\id gen Genesis book"
  /\ transform_usfm_content (lit "\id gen Genesis book") genesis_lexicon []
     <> lit "\id gen".
Proof. split; [vm_compute; reflexivity|vm_compute; discriminate]. Qed.

(** C5, amended.  (1) At any position that follows an [\id] tag and its
    white space with no line feed in between, [replace_word] returns the
    word unchanged, whatever the lexicon.  (2) An identifier line -- the
    tag, white space, a code made of upper-case letters and digits, and
    the rest of the line -- that starts the text or follows a line feed is
    left as it is by the word pass, given a lexicon without an entry for
    the tag name [id]; in the rewritten text it has become the tag, one
    space and the code, followed by the end of the line, and before it
    stands the rewriting of the text before the line; with nothing after
    the line the output ends with the code.  (3) In every rewritten text,
    each match of the identifier-line pattern is such a clean line.  (4) So
    [\id GEN Genesis book] becomes [\id GEN]. *)
Theorem id_line_kept_and_truncated :
  (forall lex vocab pre ws seen word,
     ws <> [] -> forallb is_space ws = true ->
     existsb is_newline seen = false ->
     replace_word lex vocab (rev (pre ++ lit "\id" ++ ws ++ seen)) word
     = word)
  /\ (forall lex vocab pre ws cdl tail rest,
        line_end (rev pre) ->
        lookup (lit "id") lex = None ->
        ws <> [] -> forallb is_space ws = true ->
        cdl <> [] -> forallb is_code_char cdl = true ->
        head_in is_code_char (tail ++ rest) = false ->
        existsb is_newline tail = false -> line_end rest ->
        exists after out_rest,
          replace_words lex vocab
            (pre ++ lit "\id" ++ ws ++ cdl ++ tail ++ rest)
          = replace_words lex vocab pre
              ++ lit "\id" ++ ws ++ cdl ++ tail ++ after
          /\ line_end after
          /\ transform_usfm_content
               (pre ++ lit "\id" ++ ws ++ cdl ++ tail ++ rest) lex vocab
             = transform_usfm_content pre lex vocab
                 ++ lit "\id " ++ cdl ++ out_rest
          /\ line_end out_rest
          /\ (rest = [] -> out_rest = []))
  /\ (forall content lex vocab,
        settled (transform_usfm_content content lex vocab) = true)
  /\ (forall lex vocab,
        lookup (lit "id") lex = None ->
        transform_usfm_content (lit "\id GEN Genesis book") lex vocab
        = lit "\id GEN").
Proof.
  split; [|split; [|split]].
  - intros. now apply replace_word_on_id_line.
  - intros. now apply transform_id_line_at.
  - intros. unfold transform_usfm_content, post_process.
    apply fix_spacing_settled, settled_clean.
  - intros lex vocab Hid.
    destruct (transform_id_line_at lex vocab [] (lit " ") (lit "GEN")
                (lit " Genesis book") [] I Hid)
      as (after & out & _ & _ & Ht & _ & Hnil);
      try reflexivity; try discriminate.
    etransitivity; [exact Ht|]. rewrite (Hnil eq_refl). reflexivity.
Qed.

Lemma id_line_kept_and_truncated_witness :
  replace_word genesis_lexicon []
    (rev (lit "\v 1 x" ++ lit "\id" ++ lit " " ++ lit "GEN ")) (lit "Genesis")
    = lit "Genesis"
  /\ transform_usfm_content
       (lit "\c 1 book" ++ newline :: lit "\id GEN Genesis book")
       genesis_lexicon []
     = lit "\c 1 aabb" ++ newline :: lit "\id GEN"
  /\ transform_usfm_content (lit "\id GEN Genesis book") genesis_lexicon []
     = lit "\id GEN".
Proof.
  destruct id_line_kept_and_truncated as (H1 & H2 & _ & H4).
  split; [|split].
  - apply (H1 genesis_lexicon [] (lit "\v 1 x") (lit " ") (lit "GEN ")
              (lit "Genesis"));
      [discriminate|reflexivity|reflexivity].
  - assert (lit " " <> []) as Hw by discriminate.
    assert (lit "GEN" <> []) as Hc by discriminate.
    destruct (H2 genesis_lexicon [] (lit "\c 1 book" ++ [newline]) (lit " ")
                (lit "GEN") (lit " Genesis book") []
                eq_refl eq_refl Hw eq_refl Hc eq_refl eq_refl eq_refl I)
      as (after & out & _ & _ & Ht & _ & Hnil).
    etransitivity; [exact Ht|]. rewrite (Hnil eq_refl).
    vm_compute. reflexivity.
  - apply (H4 genesis_lexicon []). reflexivity.
Defined.

(* ===================================================================== *)
(** * Further properties of the program                                   *)
(* ===================================================================== *)

(** ** The token generator *)

(** X1.  Whenever the generator returns, it returns pairwise distinct
    4-character tokens over the alphabet without its brackets, as many as
    requested or as the alphabet size to the 4th power allows, whichever is
    less, and it has warned exactly in the second case. *)
Theorem generated_tokens_distinct (fuel : nat) (chars : str) (n : nat)
    (rnd : nat -> nat) (k : nat) (g : generated) (k' : nat)
    (H : generate_unique_nonsense_words fuel chars n rnd k = Ok (g, k')) :
  NoDup (tokens g)
  /\ Forall (token_over (strip_brackets chars)) (tokens g)
  /\ length (tokens g) = Nat.min n (length (strip_brackets chars) ^ 4)
  /\ warned g = (length (strip_brackets chars) ^ 4 <? n).
Proof. exact (generate_sound fuel chars n rnd k g k' H). Qed.

Lemma generated_tokens_distinct_witness :
  NoDup [lit "aaaa"; lit "bbbb"]
  /\ Forall (token_over (strip_brackets (lit "[ab]"))) [lit "aaaa"; lit "bbbb"]
  /\ 2 = Nat.min 2 (length (strip_brackets (lit "[ab]")) ^ 4)
  /\ false = (length (strip_brackets (lit "[ab]")) ^ 4 <? 2).
Proof.
  apply (generated_tokens_distinct 5 (lit "[ab]") 2 (fun i => i / 4) 0
           {| tokens := [lit "aaaa"; lit "bbbb"]; warned := false |} 8).
  reflexivity.
Defined.

Lemma code_eq (a b : ascii) : code a = code b -> a = b.
Proof.
  unfold code. intros H.
  rewrite <- (ascii_nat_embedding a), <- (ascii_nat_embedding b), H.
  reflexivity.
Qed.

(** X2.  The brackets are stripped exactly when the alphabet is wrapped in
    them: a wrapped alphabet loses one pair, and any other alphabet is
    taken as it is. *)
Theorem strip_brackets_unwraps :
  (forall inner, strip_brackets (lbracket :: inner ++ [rbracket]) = inner)
  /\ (forall chars,
        strip_brackets chars = chars
        \/ exists inner, chars = lbracket :: inner ++ [rbracket]).
Proof.
  split.
  - intros inner. unfold strip_brackets.
    assert (ends_with rbracket (lbracket :: inner ++ [rbracket]) = true) as ->.
    { unfold ends_with. cbn [rev]. rewrite rev_app_distr. reflexivity. }
    cbn [starts_with tl]. rewrite Nat.eqb_refl. cbn [andb].
    apply removelast_last.
  - intros chars. unfold strip_brackets.
    destruct (starts_with lbracket chars) eqn:Es; [|now left].
    destruct (ends_with rbracket chars) eqn:Ee; [|now left].
    right. destruct chars as [|x t]; [discriminate|].
    cbn [starts_with] in Es. apply Nat.eqb_eq, code_eq in Es. subst x.
    unfold ends_with in Ee.
    destruct (rev (lbracket :: t)) as [|y r] eqn:Er; [discriminate|].
    apply Nat.eqb_eq, code_eq in Ee. subst y.
    apply (f_equal (@rev ascii)) in Er. rewrite rev_involutive in Er.
    cbn [rev] in Er. destruct (rev r) as [|z r'] eqn:Err.
    + discriminate Er.
    + injection Er as <- ->. now exists r'.
Qed.

(** ** Extraction, word by word *)

Lemma lookup_sight k i word vocab :
  lookup k (sight i word vocab)
  = if str_eqb (lower word) k
    then Some {| original :=
                   match lookup k vocab with
                   | Some r =>
                       if classify i word && negb (preserve_caps r)
                       then word else original r
                   | None => if classify i word then word else lower word
                   end;
                 preserve_caps := flag_of k vocab || classify i word;
                 count := S (count_of k vocab) |}
    else lookup k vocab.
Proof.
  unfold sight, flag_of, count_of.
  destruct (str_eqb (lower word) k) eqn:E.
  - apply str_eqb_true in E. subst k.
    destruct (lookup (lower word) vocab) as [r|] eqn:El.
    + cbn [preserve_caps count original].
      destruct (classify i word) eqn:Ec; destruct (preserve_caps r) eqn:Ep;
        cbn [andb negb orb]; rewrite lookup_store_same; do 2 f_equal;
        auto using Nat.add_1_r.
    + rewrite lookup_store_same. now destruct (classify i word).
  - apply str_eqb_false in E.
    destruct (lookup (lower word) vocab) as [r|];
      [destruct (classify i word && negb _)|];
      now rewrite lookup_store_other.
Qed.

Lemma count_of_sight k i word vocab :
  count_of k (sight i word vocab)
  = count_of k vocab + (if str_eqb (lower word) k then 1 else 0).
Proof.
  unfold count_of at 1. rewrite lookup_sight.
  destruct (str_eqb (lower word) k); cbn [count]; [lia|].
  unfold count_of. lia.
Qed.

Lemma flag_of_sight k i word vocab :
  flag_of k (sight i word vocab)
  = flag_of k vocab || (str_eqb (lower word) k && classify i word).
Proof.
  unfold flag_of at 1. rewrite lookup_sight.
  destruct (str_eqb (lower word) k); cbn [preserve_caps andb].
  - reflexivity.
  - now rewrite orb_false_r.
Qed.

Lemma keys_store {V} (k : str) (v : V) (d : dict V) :
  keys (store k v d) = if mem k d then keys d else keys d ++ [k].
Proof.
  unfold mem. destruct (lookup k d) as [x|] eqn:E.
  - apply keys_store_old. apply lookup_In in E.
    change k with (fst (k, x)). now apply in_map.
  - apply keys_store_new. now apply lookup_None_keys.
Qed.

Lemma keys_sight i word vocab :
  keys (sight i word vocab)
  = if mem (lower word) vocab then keys vocab
    else keys vocab ++ [lower word].
Proof.
  unfold sight, mem. destruct (lookup (lower word) vocab) as [r|] eqn:E.
  - destruct (classify i word && negb _);
      rewrite keys_store; unfold mem; now rewrite E.
  - rewrite keys_store. unfold mem. now rewrite E.
Qed.

Lemma mem_false_keys {V} (k : str) (d : dict V) :
  mem k d = false -> ~ In k (keys d).
Proof.
  unfold mem. destruct (lookup k d) eqn:E; [discriminate|].
  intros _. now apply lookup_None_keys.
Qed.

Lemma NoDup_snoc {A} (l : list A) (a : A) :
  NoDup l -> ~ In a l -> NoDup (l ++ [a]).
Proof.
  intros Hl Ha. apply NoDup_app; [assumption|repeat constructor; simpl; tauto|].
  intros x Hx [<-|[]]. contradiction.
Qed.

Lemma sight_NoDup i word vocab :
  NoDup (keys vocab) -> NoDup (keys (sight i word vocab)).
Proof.
  intros H. rewrite keys_sight. destruct (mem (lower word) vocab) eqn:E;
    [assumption|]. apply NoDup_snoc; auto using mem_false_keys.
Qed.

(** Extraction is the fold of [sight] over the sightings. *)
Lemma sight_words_fold words : forall i vocab,
  sight_words i words vocab
  = fold_left (fun v x => sight (fst x) (snd x) v)
              (enumerate_from i words) vocab.
Proof.
  induction words as [|w ws IH]; intros i vocab; [reflexivity|].
  cbn [sight_words enumerate_from fold_left fst snd]. apply IH.
Qed.

Lemma sight_sentences_fold sentences : forall vocab,
  sight_sentences sentences vocab
  = fold_left (fun v x => sight (fst x) (snd x) v)
      (concat (map (fun s => enumerate_from 0 (sentence_words s)) sentences))
      vocab.
Proof.
  unfold sight_sentences.
  induction sentences as [|s ss IH]; intros vocab; [reflexivity|].
  cbn [fold_left map concat]. rewrite fold_left_app, <- sight_words_fold.
  apply IH.
Qed.

Lemma extract_fold content :
  extract_vocabulary_from_usfm content
  = fold_left (fun v x => sight (fst x) (snd x) v) (sightings content) [].
Proof. apply sight_sentences_fold. Qed.

Lemma fold_sight_count k l : forall vocab,
  count_of k (fold_left (fun v x => sight (fst x) (snd x) v) l vocab)
  = count_of k vocab + length (sightings_of k l).
Proof.
  induction l as [|[i w] l IH]; intros vocab; cbn [fold_left]; [simpl; lia|].
  rewrite IH, count_of_sight. unfold sightings_of. cbn [filter fst snd].
  destruct (str_eqb (lower w) k); simpl; lia.
Qed.

Lemma fold_sight_flag k l : forall vocab,
  flag_of k (fold_left (fun v x => sight (fst x) (snd x) v) l vocab)
  = flag_of k vocab
    || existsb (fun x => classify (fst x) (snd x)) (sightings_of k l).
Proof.
  induction l as [|[i w] l IH]; intros vocab; cbn [fold_left].
  - simpl. now rewrite orb_false_r.
  - rewrite IH, flag_of_sight. unfold sightings_of. cbn [filter fst snd].
    destruct (str_eqb (lower w) k); cbn [existsb andb fst snd].
    + now rewrite orb_assoc.
    + now rewrite orb_false_r.
Qed.

Lemma fold_sight_NoDup l : forall vocab,
  NoDup (keys vocab) ->
  NoDup (keys (fold_left (fun v x => sight (fst x) (snd x) v) l vocab)).
Proof.
  induction l as [|[i w] l IH]; intros vocab H; cbn [fold_left]; [exact H|].
  apply IH, sight_NoDup, H.
Qed.

Lemma count_of_pos_key k (vocab : vocabulary) :
  Forall (fun e => 1 <= count (snd e)) vocab ->
  (In k (keys vocab) <-> 1 <= count_of k vocab).
Proof.
  intros Hpos. unfold count_of. destruct (lookup k vocab) as [r|] eqn:E.
  - apply lookup_In in E. split.
    + intros _. apply (proj1 (Forall_forall _ _) Hpos (k, r) E).
    + intros _. change k with (fst (k, r)). now apply in_map.
  - split; [|lia]. intros H. now apply lookup_None_keys in E.
Qed.

Lemma sight_counts_pos i word vocab :
  Forall (fun e => 1 <= count (snd e)) vocab ->
  Forall (fun e => 1 <= count (snd e)) (sight i word vocab).
Proof.
  intros H. unfold sight. destruct (lookup (lower word) vocab) as [r|];
    [destruct (classify i word && negb _)|];
    apply store_Forall; auto; simpl; lia.
Qed.

Lemma fold_sight_counts_pos l : forall vocab,
  Forall (fun e => 1 <= count (snd e)) vocab ->
  Forall (fun e => 1 <= count (snd e))
         (fold_left (fun v x => sight (fst x) (snd x) v) l vocab).
Proof.
  induction l as [|[i w] l IH]; intros vocab H; cbn [fold_left]; [exact H|].
  apply IH, sight_counts_pos, H.
Qed.

Lemma extracted_counts_aux (content : str) :
  NoDup (keys (extract_vocabulary_from_usfm content))
  /\ (forall k,
        count_of k (extract_vocabulary_from_usfm content)
        = length (sightings_of k (sightings content)))
  /\ (forall k,
        In k (keys (extract_vocabulary_from_usfm content))
        <-> exists i w, In (i, w) (sightings content) /\ lower w = k).
Proof.
  rewrite extract_fold. split; [|split].
  - apply fold_sight_NoDup. constructor.
  - intros k. now rewrite fold_sight_count.
  - intros k. rewrite count_of_pos_key
      by (apply fold_sight_counts_pos; constructor).
    rewrite fold_sight_count. cbn [count_of lookup Nat.add].
    unfold sightings_of. split.
    + intros H. destruct (filter _ _) as [|[i w] l] eqn:E; [simpl in H; lia|].
      assert (In (i, w) (filter (fun x => str_eqb (lower (snd x)) k)
                                (sightings content))) as Hin
        by (rewrite E; now left).
      apply filter_In in Hin. destruct Hin as [Hin Hk].
      apply str_eqb_true in Hk. now exists i, w.
    + intros (i & w & Hin & Hk).
      assert (In (i, w) (filter (fun x => str_eqb (lower (snd x)) k)
                                (sightings content))) as Hf.
      { apply filter_In. split; [exact Hin|]. now apply str_eqb_true. }
      destruct (filter _ _); [destruct Hf|simpl; lia].
Qed.

(** X3.  The vocabulary extracted from a document has each key once; the
    count recorded for a word is the number of its sightings, whatever
    their letter case, and a string is a key exactly when it was sighted at
    least once. *)
Theorem extracted_counts (content : str) :
  NoDup (keys (extract_vocabulary_from_usfm content))
  /\ (forall k,
        count_of k (extract_vocabulary_from_usfm content)
        = length (sightings_of k (sightings content)))
  /\ (forall k,
        In k (keys (extract_vocabulary_from_usfm content))
        <-> exists i w, In (i, w) (sightings content) /\ lower w = k).
Proof. exact (extracted_counts_aux content). Qed.

(** X4.  A word ends up with preserve-caps exactly when at least one of its
    sightings calls for it: a capitalised sighting that is not first in its
    sentence, or an all-capitals sighting of two letters or more. *)
Theorem extracted_flag (content : str) (k : str) :
  flag_of k (extract_vocabulary_from_usfm content) = true
  <-> exists i w,
        In (i, w) (sightings content) /\ lower w = k
        /\ ((first_isupper w = true /\ 0 < i)
            \/ (isupper w = true /\ 1 < length w)).
Proof.
  rewrite extract_fold, fold_sight_flag. cbn [flag_of lookup orb].
  rewrite existsb_exists. unfold sightings_of. split.
  - intros ([i w] & Hin & Hc). apply filter_In in Hin.
    destruct Hin as [Hin Hk]. apply str_eqb_true in Hk.
    exists i, w. repeat split; auto. cbn [fst snd] in Hc. unfold classify in Hc.
    destruct (first_isupper w && (0 <? i)) eqn:E1.
    + left. apply andb_prop in E1. destruct E1 as [? E1].
      apply Nat.ltb_lt in E1. auto.
    + destruct (isupper w && (1 <? length w)) eqn:E2; [|discriminate].
      right. apply andb_prop in E2. destruct E2 as [? E2].
      apply Nat.ltb_lt in E2. auto.
  - intros (i & w & Hin & Hk & Hc). exists (i, w). split.
    + apply filter_In. split; [exact Hin|]. now apply str_eqb_true.
    + cbn [fst snd]. unfold classify. destruct Hc as [[H1 H2]|[H1 H2]].
      * apply Nat.ltb_lt in H2. now rewrite H1, H2.
      * apply Nat.ltb_lt in H2. rewrite H1, H2.
        now destruct (first_isupper w && (0 <? i)).
Qed.

(** ** The words that extraction sees *)

Lemma finditer_matched (m : matcher) text : forall prev,
  Forall (fun x => exists p t n, m p t = Some (S n) /\ fst x = firstn (S n) t)
         (re_finditer_from m prev 0 text).
Proof.
  remember (length text) as len eqn:Hlen. revert text Hlen.
  induction len as [len IH] using lt_wf_ind. intros text Hlen prev.
  destruct text as [|c rest]; [constructor|].
  rewrite re_finditer_from_step.
  destruct (m prev (c :: rest)) as [[|n]|] eqn:Hm.
  - apply (IH (length rest)); subst; simpl; auto.
  - constructor.
    + exists prev, (c :: rest), n. split; [exact Hm|reflexivity].
    + apply (IH (length (skipn (S n) (c :: rest)))); [|reflexivity].
      subst len. cbn [skipn]. rewrite length_skipn. simpl. lia.
  - apply (IH (length rest)); subst; simpl; auto.
Qed.

Lemma firstn_run_all p text : forall k,
  k <= run p text -> forallb p (firstn k text) = true.
Proof.
  induction text as [|c t IH]; intros k Hk.
  - destruct k; reflexivity.
  - destruct k as [|k]; [reflexivity|]. cbn [run] in Hk.
    destruct (p c) eqn:E; [|lia]. cbn [firstn forallb]. rewrite E.
    apply IH. lia.
Qed.

Lemma plain_word_letters prev text n :
  match_plain_word prev text = Some (S n) ->
  firstn (S n) text <> [] /\ forallb is_letter (firstn (S n) text) = true.
Proof.
  unfold match_plain_word. destruct (boundary prev text); [|discriminate].
  intros H. apply longest_ok_le in H. split.
  - destruct text; [simpl in H; lia|discriminate].
  - apply firstn_run_all. lia.
Qed.

Lemma sentence_words_letters sentence :
  Forall (fun w => w <> [] /\ forallb is_letter w = true)
         (sentence_words sentence).
Proof.
  unfold sentence_words, re_findall, re_finditer. apply Forall_map.
  eapply Forall_impl; [|apply finditer_matched].
  intros [w after] (p & t & n & Hm & E). cbn [fst] in *. subst w.
  now apply (plain_word_letters p).
Qed.

Lemma enumerate_from_snd words : forall i,
  map snd (enumerate_from i words) = words.
Proof.
  induction words as [|w ws IH]; intros i; [reflexivity|].
  cbn [enumerate_from map snd]. now rewrite IH.
Qed.

Lemma sightings_words content :
  map snd (sightings content) = document_words content.
Proof.
  unfold sightings, document_words. rewrite concat_map, map_map.
  f_equal. apply map_ext. intros s. apply enumerate_from_snd.
Qed.

Lemma letter_to_lower c : is_letter c = true -> is_lower (to_lower c) = true.
Proof. each_ascii c; intros H; try reflexivity; discriminate H. Qed.

(** X5.  Every word that extraction sights is a non-empty run of ASCII
    letters, so every key of the extracted vocabulary is a non-empty string
    of lower-case ASCII letters: digits, hyphens, apostrophes and markup
    never get into a key. *)
Theorem extracted_words_are_letters (content : str) :
  Forall (fun w => w <> [] /\ forallb is_letter w = true)
         (document_words content)
  /\ Forall (fun k => k <> [] /\ forallb is_lower k = true)
            (keys (extract_vocabulary_from_usfm content)).
Proof.
  assert (Forall (fun w => w <> [] /\ forallb is_letter w = true)
                 (document_words content)) as Hw.
  { unfold document_words. apply Forall_concat. apply Forall_map.
    apply Forall_forall. intros s _. apply sentence_words_letters. }
  split; [exact Hw|]. apply Forall_forall. intros k Hk.
  apply (proj2 (proj2 (extracted_counts_aux content))) in Hk.
  destruct Hk as (i & w & Hin & <-).
  assert (In w (document_words content)) as Hin'.
  { rewrite <- sightings_words. change w with (snd (i, w)). now apply in_map. }
  apply (proj1 (Forall_forall _ _) Hw) in Hin'. destruct Hin' as [Hne Hl].
  split.
  - destruct w; [congruence|discriminate].
  - unfold lower. apply forallb_forall. intros c Hc.
    apply in_map_iff in Hc. destruct Hc as (c0 & <- & Hc0).
    apply letter_to_lower. now apply (proj1 (forallb_forall _ _) Hl).
Qed.

(** ** Merging, word by word *)

Lemma lookup_merge_entry k w info vocab :
  lookup k (merge_entry vocab (w, info))
  = if str_eqb w k
    then Some {| original :=
                   match lookup k vocab with
                   | Some r =>
                       if preserve_caps info && negb (preserve_caps r)
                       then original info else original r
                   | None => original info
                   end;
                 preserve_caps := flag_of k vocab || preserve_caps info;
                 count := count_of k vocab + count info |}
    else lookup k vocab.
Proof.
  unfold merge_entry, flag_of, count_of.
  destruct (str_eqb w k) eqn:E.
  - apply str_eqb_true in E. subst k.
    destruct (lookup w vocab) as [r|] eqn:El.
    + cbn [preserve_caps count original].
      destruct (preserve_caps info) eqn:Ec; destruct (preserve_caps r) eqn:Ep;
        cbn [andb negb orb]; rewrite lookup_store_same; reflexivity.
    + rewrite lookup_store_same. destruct info; reflexivity.
  - apply str_eqb_false in E.
    destruct (lookup w vocab) as [r|];
      [destruct (preserve_caps info && negb _)|];
      now rewrite lookup_store_other.
Qed.

Lemma count_of_merge_entry k e vocab :
  count_of k (merge_entry vocab e)
  = count_of k vocab + (if str_eqb (fst e) k then count (snd e) else 0).
Proof.
  destruct e as [w info]. unfold count_of at 1. rewrite lookup_merge_entry.
  cbn [fst snd]. destruct (str_eqb w k); cbn [count]; [reflexivity|].
  unfold count_of. lia.
Qed.

Lemma flag_of_merge_entry k e vocab :
  flag_of k (merge_entry vocab e)
  = flag_of k vocab || (str_eqb (fst e) k && preserve_caps (snd e)).
Proof.
  destruct e as [w info]. unfold flag_of at 1. rewrite lookup_merge_entry.
  cbn [fst snd]. destruct (str_eqb w k); cbn [preserve_caps andb].
  - reflexivity.
  - now rewrite orb_false_r.
Qed.

Lemma keys_merge_entry e vocab :
  keys (merge_entry vocab e)
  = if mem (fst e) vocab then keys vocab else keys vocab ++ [fst e].
Proof.
  destruct e as [w info]. unfold merge_entry, mem. cbn [fst].
  destruct (lookup w vocab) as [r|] eqn:E.
  - destruct (preserve_caps info && negb _);
      rewrite keys_store; unfold mem; now rewrite E.
  - rewrite keys_store. unfold mem. now rewrite E.
Qed.

Lemma mem_true_keys {V} (k : str) (d : dict V) :
  mem k d = true <-> In k (keys d).
Proof.
  unfold mem. destruct (lookup k d) as [v|] eqn:E.
  - split; [|reflexivity]. intros _. apply lookup_In in E.
    change k with (fst (k, v)). now apply in_map.
  - split; [discriminate|]. intros H. now apply lookup_None_keys in E.
Qed.

Lemma merge_file_keys file : forall vocab,
  NoDup (keys vocab) ->
  NoDup (keys (merge_file vocab file))
  /\ forall k, In k (keys (merge_file vocab file))
               <-> In k (keys vocab) \/ In k (keys file).
Proof.
  unfold merge_file.
  induction file as [|e file IH]; intros vocab Hnd; cbn [fold_left].
  - split; [exact Hnd|]. intros k. simpl. tauto.
  - assert (NoDup (keys (merge_entry vocab e))) as Hnd'.
    { rewrite keys_merge_entry. destruct (mem (fst e) vocab) eqn:E;
        [exact Hnd|]. apply NoDup_snoc; auto using mem_false_keys. }
    destruct (IH _ Hnd') as [H1 H2]. split; [exact H1|].
    intros k. rewrite H2, keys_merge_entry.
    destruct (mem (fst e) vocab) eqn:E.
    + apply mem_true_keys in E. unfold keys in *. cbn [map]. split.
      * intros [H|H]; [now left|right; now right].
      * intros [H|[<-|H]]; auto.
    + rewrite in_app_iff. unfold keys. simpl. tauto.
Qed.

Lemma list_sum_cons a l : list_sum (a :: l) = a + list_sum l.
Proof. reflexivity. Qed.

Lemma count_of_unique k (d : vocabulary) :
  NoDup (keys d) ->
  list_sum (map (fun e => if str_eqb (fst e) k then count (snd e) else 0) d)
  = count_of k d.
Proof.
  unfold count_of. induction d as [|[k' r] d IH]; intros Hnd; [reflexivity|].
  inversion Hnd as [|? ? Hnot Hnd']; subst.
  cbn [map lookup fst snd]. rewrite list_sum_cons, (IH Hnd').
  destruct (str_eqb k' k) eqn:E.
  - apply str_eqb_true in E. subst k'. rewrite str_eqb_refl.
    apply lookup_None_keys in Hnot. rewrite Hnot. lia.
  - assert (str_eqb k k' = false) as ->.
    { apply str_eqb_false. apply str_eqb_false in E. congruence. }
    reflexivity.
Qed.

Lemma flag_of_unique k (d : vocabulary) :
  NoDup (keys d) ->
  existsb (fun e => str_eqb (fst e) k && preserve_caps (snd e)) d
  = flag_of k d.
Proof.
  unfold flag_of. induction d as [|[k' r] d IH]; intros Hnd; [reflexivity|].
  inversion Hnd as [|? ? Hnot Hnd']; subst.
  cbn [existsb lookup fst snd]. rewrite (IH Hnd').
  destruct (str_eqb k' k) eqn:E.
  - apply str_eqb_true in E. subst k'. rewrite str_eqb_refl.
    apply lookup_None_keys in Hnot. rewrite Hnot. cbn [andb].
    now rewrite orb_false_r.
  - assert (str_eqb k k' = false) as ->.
    { apply str_eqb_false. apply str_eqb_false in E. congruence. }
    reflexivity.
Qed.

Lemma merge_file_count k file : forall vocab,
  count_of k (merge_file vocab file)
  = count_of k vocab
    + list_sum (map (fun e => if str_eqb (fst e) k then count (snd e) else 0)
                    file).
Proof.
  unfold merge_file.
  induction file as [|e file IH]; intros vocab; cbn [fold_left map].
  - simpl. lia.
  - rewrite list_sum_cons, IH, count_of_merge_entry. lia.
Qed.

Lemma merge_file_flag k file : forall vocab,
  flag_of k (merge_file vocab file)
  = flag_of k vocab
    || existsb (fun e => str_eqb (fst e) k && preserve_caps (snd e)) file.
Proof.
  unfold merge_file.
  induction file as [|e file IH]; intros vocab; cbn [fold_left existsb].
  - now rewrite orb_false_r.
  - rewrite IH, flag_of_merge_entry. now rewrite orb_assoc.
Qed.

Lemma merge_from files : forall vocab k,
  NoDup (keys vocab) -> Forall (fun f : vocabulary => NoDup (keys f)) files ->
  NoDup (keys (fold_left merge_file files vocab))
  /\ count_of k (fold_left merge_file files vocab)
     = count_of k vocab + list_sum (map (count_of k) files)
  /\ flag_of k (fold_left merge_file files vocab)
     = flag_of k vocab || existsb (flag_of k) files
  /\ (In k (keys (fold_left merge_file files vocab))
      <-> In k (keys vocab) \/ exists f, In f files /\ In k (keys f)).
Proof.
  induction files as [|f files IH]; intros vocab k Hnd Hall;
    cbn [fold_left map existsb]; rewrite ?list_sum_cons.
  - repeat split; auto; try (simpl; lia).
    + now rewrite orb_false_r.
    + intros [H|(f & [] & _)]. exact H.
  - inversion Hall as [|? ? Hf Hall']; subst.
    destruct (merge_file_keys f vocab Hnd) as [Hnd' Hk].
    destruct (IH (merge_file vocab f) k Hnd' Hall') as (H1 & H2 & H3 & H4).
    split; [exact H1|]. split; [|split].
    + rewrite H2, merge_file_count, count_of_unique by exact Hf. lia.
    + rewrite H3, merge_file_flag, flag_of_unique by exact Hf.
      now rewrite orb_assoc.
    + rewrite H4, Hk. split.
      * intros [[H|H]|(g & Hg & H)]; auto.
        -- right. exists f. split; [now left|exact H].
        -- right. exists g. split; [now right|exact H].
      * intros [H|(g & [<-|Hg] & H)]; auto.
        right. exists g. auto.
Qed.

(** X6.  Merging per-file vocabularies (each with its keys distinct, as a
    dictionary has them) gives a vocabulary with distinct keys in which a
    word's count is the sum of its counts over the files, its preserve-caps
    flag is set exactly when some file sets it, and the keys are those of
    all the files together. *)
Theorem merged_counts (files : list vocabulary) (k : str)
    (H : Forall (fun f : vocabulary => NoDup (keys f)) files) :
  NoDup (keys (merge_vocabularies files))
  /\ count_of k (merge_vocabularies files) = list_sum (map (count_of k) files)
  /\ flag_of k (merge_vocabularies files) = existsb (flag_of k) files
  /\ (In k (keys (merge_vocabularies files))
      <-> exists f, In f files /\ In k (keys f)).
Proof.
  destruct (merge_from files [] k (NoDup_nil _) H) as (H1 & H2 & H3 & H4).
  split; [exact H1|]. split; [exact H2|]. split; [exact H3|].
  unfold merge_vocabularies. rewrite H4. split.
  - intros [[]|H']; exact H'.
  - intros H'. now right.
Qed.

Lemma merged_counts_witness :
  count_of (lit "lord") (merge_vocabularies [demo_vocabulary; lord_vocab]) = 31
  /\ flag_of (lit "lord") (merge_vocabularies [demo_vocabulary; lord_vocab])
     = true.
Proof.
  destruct (merged_counts [demo_vocabulary; lord_vocab] (lit "lord"))
    as (_ & H2 & H3 & _).
  - repeat constructor; simpl; intuition discriminate.
  - split; [rewrite H2|rewrite H3]; reflexivity.
Defined.

(** ** The lexicon builder, further *)

Lemma assign_draws (nonsense_words : list str) i key (lex lex' : lexicon)
    rnd k k' :
  assign nonsense_words i key lex rnd k = Ok (lex', k') ->
  k' = k + (if i <? length nonsense_words then 0 else 4).
Proof.
  unfold assign. destruct (i <? _).
  - destruct (nth_error _ i); [|discriminate]. unfold ret.
    intros [= _ <-]. lia.
  - destruct (nth_error _ 0) as [first|]; [|discriminate]. unfold bind, ret.
    destruct (random_word first rnd k) as [[w k1]| |] eqn:E; try discriminate.
    apply random_word_inv in E. destruct E as [_ ->]. intros [= _ <-]. lia.
Qed.

(** The builder draws four characters for each word beyond the token list,
    and nothing else. *)
Lemma assign_all_draws (nonsense_words : list str) items :
  forall i (lex lex' : lexicon) rnd k k',
  assign_all nonsense_words i items lex rnd k = Ok (lex', k') ->
  k' = k + 4 * (i + length items - Nat.max i (length nonsense_words)).
Proof.
  induction items as [|[key info] items IH]; intros i lex lex' rnd k k'.
  - unfold assign_all, ret. intros [= _ <-]. simpl. lia.
  - cbn [assign_all]. unfold bind.
    destruct (assign nonsense_words i key lex rnd k) as [[l1 k1]| |] eqn:E;
      try discriminate.
    apply assign_draws in E. intros H. apply IH in H. subst k1.
    cbn [length]. unfold str in *.
    destruct (i <? length nonsense_words) eqn:El.
    + apply Nat.ltb_lt in El. lia.
    + apply Nat.ltb_ge in El. lia.
Qed.

Lemma keys_length {V} (d : dict V) : length (keys d) = length d.
Proof. apply length_map. Qed.

Lemma create_lexicon_one_to_one (vocab : vocabulary) (nonsense_words : list str)
    (rnd : nat -> nat) (k : nat)
    (Hkeys : NoDup (keys vocab))
    (Hcover : length vocab <= length nonsense_words)
    (Hdistinct : NoDup nonsense_words) :
  exists lex,
    create_lexicon vocab nonsense_words rnd k = Ok (lex, k)
    /\ one_to_one lex
    /\ (forall key tok, lookup key lex = Some tok -> In tok nonsense_words).
Proof.
  pose proof (sort_desc_perm vocab) as Hperm.
  assert (NoDup (keys (sort_desc vocab))) as Hnd.
  { eapply Permutation_NoDup; [|exact Hkeys].
    symmetry. apply Permutation_map, Hperm. }
  assert (length (sort_desc vocab) = length vocab) as Hlen
    by apply (Permutation_length Hperm).
  destruct (assign_all_ok nonsense_words (sort_desc vocab) 0 [] rnd k)
    as (L & k' & HL & HkL & Hj); [exact Hnd|left; simpl; lia|].
  simpl in HL. pose proof (assign_all_draws _ _ _ _ _ _ _ _ HL) as Hk.
  assert (k' = k) as -> by lia. clear Hk.
  assert (forall key tok, lookup key L = Some tok ->
            exists j, j < length vocab
                      /\ nth_error nonsense_words j = Some tok
                      /\ nth_error L j = Some (key, tok)) as Hpos.
  { intros key tok Hl. apply lookup_In, In_nth_error in Hl.
    destruct Hl as [j Hjn]. exists j.
    assert (j < length L) as Hlt by (apply nth_error_Some; congruence).
    rewrite <- (keys_length L), HkL, keys_length, Hlen in Hlt.
    destruct (nth_error (sort_desc vocab) j) as [[key' info]|] eqn:En;
      [|apply nth_error_None in En; lia].
    destruct (Hj j key' info En) as (tok' & H1 & H2 & _).
    rewrite Hjn in H1. injection H1 as <- <-.
    split; [exact Hlt|]. split; [|exact Hjn]. apply H2. simpl. lia. }
  exists L. split; [exact HL|]. split.
  - intros k1 k2 tok H1 H2.
    destruct (Hpos _ _ H1) as (j1 & B1 & T1 & N1).
    destruct (Hpos _ _ H2) as (j2 & B2 & T2 & N2).
    assert (j1 = j2) as ->.
    { apply (proj1 (NoDup_nth_error nonsense_words) Hdistinct); [lia|].
      congruence. }
    congruence.
  - intros key tok Hl. destruct (Hpos _ _ Hl) as (j & _ & T & _).
    eapply nth_error_In, T.
Qed.

(** X7.  With pairwise distinct tokens, at least as many as there are
    words, the lexicon is built without a single random draw, every word
    gets a token of the list, and no two words get the same token. *)
Theorem lexicon_one_to_one (vocab : vocabulary) (nonsense_words : list str)
    (rnd : nat -> nat) (k : nat)
    (Hkeys : NoDup (keys vocab))
    (Hcover : length vocab <= length nonsense_words)
    (Hdistinct : NoDup nonsense_words) :
  exists lex,
    create_lexicon vocab nonsense_words rnd k = Ok (lex, k)
    /\ one_to_one lex
    /\ (forall key tok, lookup key lex = Some tok -> In tok nonsense_words).
Proof.
  exact (create_lexicon_one_to_one vocab nonsense_words rnd k Hkeys Hcover
           Hdistinct).
Qed.

Lemma lexicon_one_to_one_witness :
  exists lex,
    create_lexicon demo_vocabulary [lit "abcd"; lit "dcba"; lit "aabb"]
      (fun i => i) 0 = Ok (lex, 0)
    /\ one_to_one lex.
Proof.
  destruct (lexicon_one_to_one demo_vocabulary
              [lit "abcd"; lit "dcba"; lit "aabb"] (fun i => i) 0)
    as (lex & H1 & H2 & _).
  - repeat constructor; simpl; intuition discriminate.
  - simpl. lia.
  - repeat constructor; simpl; intuition discriminate.
  - exists lex. split; assumption.
Defined.

Lemma create_lexicon_no_tokens (vocab : vocabulary) rnd k :
  vocab <> [] -> create_lexicon vocab [] rnd k = IndexError.
Proof.
  intros Hne. unfold create_lexicon.
  destruct (sort_desc vocab) as [|[key info] items] eqn:E.
  - apply (f_equal (@length _)) in E.
    rewrite (Permutation_length (sort_desc_perm vocab)) in E.
    destruct vocab; [congruence|discriminate].
  - reflexivity.
Qed.

Lemma generate_no_alphabet fuel chars n rnd k :
  strip_brackets chars = [] ->
  generate_unique_nonsense_words fuel chars n rnd k
  = Ok ({| tokens := []; warned := 0 <? n |}, k).
Proof.
  intros H. unfold generate_unique_nonsense_words, bind, ret. rewrite H.
  simpl. destruct n; simpl; destruct fuel; reflexivity.
Qed.

(** X8.  A run over files that contain at least one word, with an alphabet
    that is empty once its brackets are stripped, gets no token from the
    generator and then fails in [create_lexicon] with an [IndexError]; no
    output is produced. *)
Theorem run_without_alphabet_raises (fuel : nat) (usfm_files : list (str * str))
    (chars : str) (rnd : nat -> nat) (k : nat)
    (Hchars : strip_brackets chars = [])
    (Hwords : merge_vocabularies
                (map (fun f => extract_vocabulary_from_usfm (snd f))
                     usfm_files) <> []) :
  process_usfm_directory fuel usfm_files chars rnd k = IndexError.
Proof.
  unfold process_usfm_directory.
  destruct usfm_files as [|f files]; [now elim Hwords|].
  set (vocab := merge_vocabularies _) in *.
  unfold bind. rewrite generate_no_alphabet by exact Hchars.
  cbn [tokens]. now rewrite create_lexicon_no_tokens.
Qed.

Lemma run_without_alphabet_raises_witness :
  process_usfm_directory 3 [(lit "GEN.usfm", lit "\v 1 In the beginning")]
    (lit "[]") (fun i => i) 0 = IndexError.
Proof.
  apply run_without_alphabet_raises; [reflexivity|].
  vm_compute. discriminate.
Defined.

(** ** A whole run *)







(** ** The word pass, further *)

Section SubFacts.
Variable m : matcher.
Variable r : str -> str -> str.

(** A substitution whose replacements agree with the matches under [f]
    keeps [f] of the whole text, for any [f] that distributes over
    concatenation. *)
Lemma re_sub_from_morph (f : str -> str) :
  (forall a b, f (a ++ b) = f a ++ f b) ->
  (forall prev t n, m prev t = Some (S n) ->
                    f (r prev (firstn (S n) t)) = f (firstn (S n) t)) ->
  forall text prev, f (re_sub_from m r prev 0 text) = f text.
Proof.
  intros Happ Hrepl text.
  remember (length text) as len eqn:Hlen. revert text Hlen.
  induction len as [len IH] using lt_wf_ind. intros text Hlen prev.
  destruct text as [|c rest]; [reflexivity|].
  rewrite re_sub_from_step.
  destruct (m prev (c :: rest)) as [[|n]|] eqn:Hm.
  - change (c :: ?x) with ([c] ++ x). rewrite !Happ. f_equal.
    apply (IH (length rest)); subst; simpl; auto.
  - rewrite Happ, (Hrepl _ _ _ Hm).
    rewrite (IH (length (skipn (S n) (c :: rest)))); [| |reflexivity].
    + now rewrite <- Happ, firstn_skipn.
    + subst len. cbn [skipn]. rewrite length_skipn. simpl. lia.
  - change (c :: ?x) with ([c] ++ x). rewrite !Happ. f_equal.
    apply (IH (length rest)); subst; simpl; auto.
Qed.
End SubFacts.

Lemma match_word_letters prev text n :
  match_word prev text = Some (S n) ->
  firstn (S n) text <> [] /\ forallb is_letter (firstn (S n) text) = true.
Proof.
  rewrite lookbehind_never_rejects. apply plain_word_letters.
Qed.

Lemma filter_letters_nil w :
  forallb is_letter w = true -> filter (fun c => negb (is_letter c)) w = [].
Proof.
  intros H. apply filter_none. intros c Hc.
  apply negb_false_iff. now apply (proj1 (forallb_forall _ _) H).
Qed.

Lemma to_upper_letter c : is_letter (to_upper c) = is_letter c.
Proof. each_ascii c; reflexivity. Qed.

Lemma to_lower_letter c : is_letter (to_lower c) = is_letter c.
Proof. each_ascii c; reflexivity. Qed.

Lemma upper_letters w : forallb is_letter (upper w) = forallb is_letter w.
Proof.
  induction w as [|c w IH]; [reflexivity|].
  cbn [upper map forallb]. fold (upper w). now rewrite to_upper_letter, IH.
Qed.

Lemma lower_letters w : forallb is_letter (lower w) = forallb is_letter w.
Proof.
  induction w as [|c w IH]; [reflexivity|].
  cbn [lower map forallb]. fold (lower w). now rewrite to_lower_letter, IH.
Qed.

Lemma capitalize_letters w :
  forallb is_letter (capitalize w) = forallb is_letter w.
Proof.
  destruct w as [|c w]; [reflexivity|].
  cbn [capitalize forallb]. now rewrite to_upper_letter, lower_letters.
Qed.

Lemma apply_lexicon_letters (lex : lexicon) (vocab : vocabulary) (word : str) :
  Forall (fun e => forallb is_letter (snd e) = true) lex ->
  forallb is_letter word = true ->
  forallb is_letter (apply_lexicon lex vocab word) = true.
Proof.
  intros Hlex Hw. unfold apply_lexicon.
  destruct (lookup (lower word) lex) as [tok|] eqn:E; [|exact Hw].
  apply lookup_In in E.
  pose proof (proj1 (Forall_forall _ _) Hlex _ E) as Ht. cbn [snd] in Ht.
  destruct (lookup (lower word) vocab) as [info|].
  - destruct (preserve_caps info).
    + destruct (first_isupper (original info)), (isupper (original info));
        now rewrite ?upper_letters, ?capitalize_letters.
    + destruct (first_isupper word); [now rewrite capitalize_letters|].
      destruct (isupper word); now rewrite ?upper_letters.
  - destruct (first_isupper word); [now rewrite capitalize_letters|].
    destruct (isupper word); now rewrite ?upper_letters.
Qed.

Lemma word_pass_skeleton (lex : lexicon) (vocab : vocabulary) content :
  Forall (fun e => forallb is_letter (snd e) = true) lex ->
  filter (fun c => negb (is_letter c)) (replace_words lex vocab content)
  = filter (fun c => negb (is_letter c)) content.
Proof.
  intros Hlex. unfold replace_words, re_sub.
  apply re_sub_from_morph; [intros; apply filter_app|].
  intros prev t n Hm. apply match_word_letters in Hm. destruct Hm as [_ Hl].
  rewrite (filter_letters_nil _ Hl). apply filter_letters_nil.
  unfold replace_word. destruct (on_id_line (rev prev)); [exact Hl|].
  now apply apply_lexicon_letters.
Qed.

(** X10.  With a lexicon whose tokens are made of letters, the word pass
    changes letters only: every other character of the document --
    backslashes, digits, punctuation, spaces, line feeds -- is in the
    output, in the same order, and with the same number of line feeds. *)
Theorem word_pass_keeps_other_characters (lex : lexicon) (vocab : vocabulary)
    (content : str)
    (H : Forall (fun e => forallb is_letter (snd e) = true) lex) :
  filter (fun c => negb (is_letter c)) (replace_words lex vocab content)
  = filter (fun c => negb (is_letter c)) content
  /\ count_char is_newline (replace_words lex vocab content)
     = count_char is_newline content.
Proof.
  split; [now apply word_pass_skeleton|].
  unfold count_char.
  assert (forall t, filter is_newline t
                    = filter is_newline
                        (filter (fun c => negb (is_letter c)) t)) as Hf.
  { induction t as [|c t IH]; [reflexivity|]. cbn [filter].
    destruct (is_newline c) eqn:En.
    - rewrite (newline_not_letter c En). cbn [negb filter]. rewrite En.
      now rewrite IH.
    - destruct (is_letter c); cbn [negb filter]; [exact IH|].
      now rewrite En. }
  rewrite Hf, (Hf content). now rewrite word_pass_skeleton.
Qed.

Lemma word_pass_keeps_other_characters_witness :
  filter (fun c => negb (is_letter c))
         (replace_words genesis_lexicon [] (lit "\v 1 The book, Genesis 1:1."))
  = lit "\ 1  ,  1:1.".
Proof.
  destruct (word_pass_keeps_other_characters genesis_lexicon []
              (lit "\v 1 The book, Genesis 1:1.")) as [H _].
  - repeat constructor.
  - rewrite H. reflexivity.
Defined.

Lemma to_lower_upper c : to_lower (to_upper c) = to_lower c.
Proof. each_ascii c; reflexivity. Qed.

Lemma lower_upper w : lower (upper w) = lower w.
Proof.
  unfold lower, upper. rewrite map_map. apply map_ext.
  intros c. apply to_lower_upper.
Qed.

Lemma lower_capitalize w : lower (capitalize w) = lower w.
Proof.
  destruct w as [|c w]; [reflexivity|].
  cbn [capitalize lower map]. fold (lower w) (lower (lower w)).
  now rewrite to_lower_upper, lower_idem.
Qed.

(** X11.  Every occurrence of a word that has a lexicon entry with a token
    of ASCII characters is rendered as the word's token up to letter case:
    whatever the casing of the occurrence and of the stored display form,
    the lower-case form of the replacement is the lower-case form of the
    token. *)
Theorem replacement_is_token_up_to_case (lex : lexicon) (vocab : vocabulary)
    (word tok : str) (H : lookup (lower word) lex = Some tok)
    (Hascii : forallb is_ascii tok = true) :
  lower (apply_lexicon lex vocab word) = lower tok.
Proof.
  clear Hascii. unfold apply_lexicon. rewrite H.
  destruct (lookup (lower word) vocab) as [info|].
  - destruct (preserve_caps info).
    + destruct (first_isupper (original info)), (isupper (original info));
        now rewrite ?lower_upper, ?lower_capitalize.
    + destruct (first_isupper word); [now rewrite lower_capitalize|].
      destruct (isupper word); now rewrite ?lower_upper.
  - destruct (first_isupper word); [now rewrite lower_capitalize|].
    destruct (isupper word); now rewrite ?lower_upper.
Qed.

Lemma replacement_is_token_up_to_case_witness :
  lower (apply_lexicon genesis_lexicon god_vocab (lit "GENESIS"))
  = lower (lit "baba").
Proof.
  apply (replacement_is_token_up_to_case genesis_lexicon god_vocab
           (lit "GENESIS") (lit "baba")); reflexivity.
Defined.

(** X12.  With an empty lexicon the word pass changes nothing, so the
    rewriting of a document is its post-processing alone: words without a
    lexicon entry pass through. *)
Theorem empty_lexicon_passes_words_through (vocab : vocabulary) (content : str) :
  replace_words [] vocab content = content
  /\ transform_usfm_content content [] vocab = post_process content.
Proof.
  assert (replace_words [] vocab content = content) as H.
  { unfold replace_words, re_sub.
    apply (re_sub_from_morph match_word (replace_word [] vocab) (fun x => x));
      [reflexivity|].
    intros prev t n _. unfold replace_word.
    now destruct (on_id_line (rev prev)). }
  split; [exact H|]. unfold transform_usfm_content. now rewrite H.
Qed.

(** X13.  In every rewritten document the spacing is normalised: no word
    character is directly followed by one of [. ! ? ; : ,] or by a
    backslash, and none of those punctuation marks and no double quote is
    directly followed by a word character. *)
Theorem rewritten_text_is_spaced (content : str) (lex : lexicon)
    (vocab : vocabulary) :
  let out := transform_usfm_content content lex vocab in
  pair_free is_word is_punct out = true
  /\ pair_free is_punct is_word out = true
  /\ pair_free is_dquote is_word out = true
  /\ pair_free is_word is_backslash out = true.
Proof. apply fix_spacing_free. Qed.

(** ** Tag stripping and sentence splitting *)

Lemma match_tag_cases prev c rest :
  (match_tag prev (c :: rest) = None
   /\ (is_backslash c = true -> run is_letter rest = 0))
  \/ exists n, match_tag prev (c :: rest) = Some (S n).
Proof.
  unfold match_tag. destruct (is_backslash c).
  - destruct (run is_letter rest) as [|n].
    + left. split; [reflexivity|reflexivity].
    + right. cbv zeta. eexists. reflexivity.
  - left. split; [reflexivity|discriminate].
Qed.

Section TagStrip.
Let strip_from := re_sub_from match_tag (fun _ _ => [space]).

Lemma strip_head_not_letter text prev :
  head_in is_letter text = false ->
  head_in is_letter (strip_from prev 0 text) = false.
Proof.
  unfold strip_from. destruct text as [|c rest]; [reflexivity|]. intros H.
  rewrite re_sub_from_step.
  destruct (match_tag prev (c :: rest)) as [[|n]|]; [exact H|reflexivity|exact H].
Qed.

Lemma strip_no_tag_from text : forall prev,
  tag_names (strip_from prev 0 text) = [].
Proof.
  unfold strip_from.
  remember (length text) as len eqn:Hlen. revert text Hlen.
  induction len as [len IH] using lt_wf_ind. intros text Hlen prev.
  destruct text as [|c rest]; [reflexivity|].
  rewrite re_sub_from_step.
  destruct (match_tag_cases prev c rest) as [[Hm Hrun]|[n Hm]]; rewrite Hm.
  - cbn [tag_names].
    rewrite (IH (length rest)) by (subst; simpl; auto).
    destruct (is_backslash c) eqn:Eb; [|reflexivity].
    rewrite (run_head_false is_letter (re_sub_from _ _ _ 0 rest)).
    + reflexivity.
    + apply strip_head_not_letter, run_zero_head. auto.
  - cbn [app tag_names]. change (is_backslash space) with false.
    cbn [andb].
    apply (IH (length (skipn (S n) (c :: rest)))); [|reflexivity].
    subst len. cbn [skipn]. rewrite length_skipn. simpl. lia.
Qed.
End TagStrip.

(** X14.  After the tag-stripping substitution of line 18 no backslash is
    directly followed by a letter: nothing that looks like a markup tag is
    left in the text from which the words are taken. *)
Theorem stripped_text_has_no_tag (content : str) :
  tag_names (re_sub match_tag (fun _ _ => [space]) content) = [].
Proof. apply strip_no_tag_from. Qed.

Lemma split_from_concat text : forall d cur,
  concat (split_sentences_from d cur text)
  = rev cur ++ filter (fun c => negb (is_sentence_end c)) text.
Proof.
  induction text as [|c rest IH]; intros d cur.
  - simpl. reflexivity.
  - cbn [split_sentences_from filter].
    destruct (is_sentence_end c); cbn [negb].
    + destruct d; [apply IH|]. cbn [concat]. now rewrite IH.
    + rewrite IH. cbn [rev]. now rewrite <- app_assoc.
Qed.

Lemma split_from_free text : forall d cur,
  existsb is_sentence_end cur = false ->
  Forall (fun piece => existsb is_sentence_end piece = false)
         (split_sentences_from d cur text).
Proof.
  assert (forall cur, existsb is_sentence_end cur = false ->
                      existsb is_sentence_end (rev cur) = false) as Hrev.
  { intros cur H. destruct (existsb is_sentence_end (rev cur)) eqn:E;
      [|reflexivity].
    apply existsb_exists in E. destruct E as (x & Hin & Hx).
    apply in_rev in Hin.
    assert (existsb is_sentence_end cur = true)
      by (apply existsb_exists; eauto).
    congruence. }
  induction text as [|c rest IH]; intros d cur Hcur.
  - repeat constructor. now apply Hrev.
  - cbn [split_sentences_from]. destruct (is_sentence_end c) eqn:Ec.
    + destruct d; [now apply IH|]. constructor; [now apply Hrev|].
      now apply IH.
    + apply IH. cbn [existsb]. now rewrite Ec.
Qed.

(** X15.  Splitting a text into sentences loses the sentence terminators
    [. ! ?] and nothing else: the pieces, put together, are the text
    without those characters, and no piece contains one. *)
Theorem split_sentences_loses_only_terminators (text : str) :
  concat (split_sentences text)
  = filter (fun c => negb (is_sentence_end c)) text
  /\ Forall (fun piece => existsb is_sentence_end piece = false)
            (split_sentences text).
Proof.
  split.
  - apply (split_from_concat text false []).
  - now apply split_from_free.
Qed.

(** ** The lexicon file *)

Lemma str_compare_antisym a : forall b,
  str_compare b a = CompOpp (str_compare a b).
Proof.
  induction a as [|x a IH]; intros [|y b]; try reflexivity.
  cbn [str_compare]. rewrite (Nat.compare_antisym (code x) (code y)).
  destruct (code x ?= code y); cbn [CompOpp]; auto.
Qed.

Lemma str_compare_eq a : forall b, str_compare a b = Eq -> a = b.
Proof.
  induction a as [|x a IH]; intros [|y b]; try discriminate; [reflexivity|].
  cbn [str_compare]. destruct (code x ?= code y) eqn:E; try discriminate.
  apply Nat.compare_eq, code_eq in E. intros H. f_equal; auto.
Qed.

Lemma item_leb_total x y : item_leb x y = false -> item_leb y x = true.
Proof.
  unfold item_leb.
  rewrite (str_compare_antisym (fst x) (fst y)),
    (str_compare_antisym (snd x) (snd y)).
  destruct (str_compare (fst x) (fst y)), (str_compare (snd x) (snd y));
    cbn [CompOpp]; congruence.
Qed.

Lemma insert_asc_perm x l : Permutation (insert_asc x l) (x :: l).
Proof.
  induction l as [|y r IH]; simpl; [reflexivity|].
  destruct (item_leb y x); [|reflexivity].
  rewrite IH. apply perm_swap.
Qed.

Lemma insert_asc_hd y x l :
  item_leb y x = true -> HdRel (fun a b => item_leb a b = true) y l ->
  HdRel (fun a b => item_leb a b = true) y (insert_asc x l).
Proof.
  intros Hyx Hl. destruct l as [|z r]; simpl; [now constructor|].
  inversion Hl; subst. destruct (item_leb z x); now constructor.
Qed.

Lemma insert_asc_sorted x l :
  Sorted (fun a b => item_leb a b = true) l ->
  Sorted (fun a b => item_leb a b = true) (insert_asc x l).
Proof.
  induction 1 as [|y r Hr IH Hy]; simpl; [repeat constructor|].
  destruct (item_leb y x) eqn:E.
  - constructor; [exact IH|]. now apply insert_asc_hd.
  - constructor; [now constructor|]. constructor. now apply item_leb_total.
Qed.

Lemma sorted_items_from l : forall acc,
  Sorted (fun a b => item_leb a b = true) acc ->
  Sorted (fun a b => item_leb a b = true)
         (fold_left (fun a x => insert_asc x a) l acc)
  /\ Permutation (fold_left (fun a x => insert_asc x a) l acc) (acc ++ l).
Proof.
  induction l as [|x l IH]; intros acc H; cbn [fold_left].
  - split; [exact H|now rewrite app_nil_r].
  - destruct (IH _ (insert_asc_sorted x acc H)) as [H1 H2].
    split; [exact H1|]. rewrite H2, insert_asc_perm.
    apply Permutation_middle.
Qed.

Lemma sorted_keys_strict (l : list (str * str)) :
  NoDup (map fst l) ->
  Sorted (fun a b => item_leb a b = true) l ->
  Sorted (fun a b => str_compare a b = Lt) (map fst l).
Proof.
  intros Hnd. induction 1 as [|y r Hr IH Hy]; [constructor|].
  cbn [map] in *. inversion Hnd as [|? ? Hnot Hnd']; subst.
  constructor; [now apply IH|].
  destruct r as [|z r]; [constructor|]. constructor.
  inversion Hy as [|? ? Hyz]; subst. unfold item_leb in Hyz.
  destruct (str_compare (fst y) (fst z)) eqn:E; [|reflexivity|discriminate].
  apply str_compare_eq in E. exfalso. apply Hnot. left. now symmetry.
Qed.

(** X16.  The lines of [lexicon.txt] are the entries of the lexicon, each
    once, in ascending order of (word, token) by code point; as the words
    of a lexicon are distinct, the words are in strictly ascending
    order. *)
Theorem lexicon_file_is_sorted (lex : lexicon) (H : NoDup (keys lex)) :
  lexicon_file lex = concat (map lexicon_line (sorted_items lex))
  /\ Permutation (sorted_items lex) lex
  /\ Sorted (fun a b => item_leb a b = true) (sorted_items lex)
  /\ Sorted (fun a b => str_compare a b = Lt) (map fst (sorted_items lex)).
Proof.
  destruct (sorted_items_from lex [] (Sorted_nil _)) as [H1 H2].
  fold (sorted_items lex) in H1, H2. simpl in H2.
  split; [reflexivity|]. split; [exact H2|]. split; [exact H1|].
  apply sorted_keys_strict; [|exact H1].
  eapply Permutation_NoDup; [|exact H].
  symmetry. apply Permutation_map, H2.
Qed.

Lemma lexicon_file_is_sorted_witness :
  lexicon_file genesis_lexicon
  = concat (map lexicon_line
              [(lit "book", lit "aabb"); (lit "gen", lit "abab");
               (lit "genesis", lit "baba")]).
Proof.
  destruct (lexicon_file_is_sorted genesis_lexicon) as (H & _).
  - repeat constructor; simpl; intuition discriminate.
  - rewrite H. reflexivity.
Defined.

(** ** The order of the vocabulary *)

Lemma fold_sight_keys l : forall vocab,
  keys (fold_left (fun v x => sight (fst x) (snd x) v) l vocab)
  = fold_left (fun acc k => if in_dec str_eq_dec k acc then acc
                            else acc ++ [k])
              (map (fun x => lower (snd x)) l) (keys vocab).
Proof.
  induction l as [|[i w] l IH]; intros vocab; cbn [fold_left map];
    [reflexivity|].
  rewrite IH, keys_sight. cbn [fst snd]. f_equal.
  destruct (in_dec str_eq_dec (lower w) (keys vocab)) as [Hin|Hnot].
  - apply mem_true_keys in Hin. now rewrite Hin.
  - destruct (mem (lower w) vocab) eqn:E; [|reflexivity].
    apply mem_true_keys in E. contradiction.
Qed.

(** X17.  The keys of an extracted vocabulary stand in the order in which
    the words were first sighted.  As the lexicon builder sorts stably,
    this is the order in which words of equal count receive their
    tokens. *)
Theorem extracted_keys_in_sighting_order (content : str) :
  keys (extract_vocabulary_from_usfm content)
  = first_occurrences (map lower (document_words content)).
Proof.
  rewrite extract_fold, fold_sight_keys, <- sightings_words, map_map.
  reflexivity.
Qed.

(** ** The capacity of an alphabet *)

Lemma flat_map_length_const {A B} (f : A -> list B) (n : nat) (l : list A) :
  (forall a, length (f a) = n) -> length (flat_map f l) = length l * n.
Proof.
  intros H. induction l as [|a l IH]; [reflexivity|].
  cbn [flat_map]. rewrite length_app, H, IH. simpl. lia.
Qed.

Lemma all_tokens_length cs : length (all_tokens cs) = length cs ^ 4.
Proof.
  unfold all_tokens.
  rewrite (flat_map_length_const _ (length cs * (length cs * length cs))).
  - simpl. lia.
  - intros a.
    rewrite (flat_map_length_const _ (length cs * length cs)); [lia|].
    intros b. rewrite (flat_map_length_const _ (length cs)); [lia|].
    intros c. apply length_map.
Qed.

Lemma all_tokens_complete cs w : token_over cs w -> In w (all_tokens cs).
Proof.
  intros [Hlen Hall].
  destruct w as [|a [|b [|c [|d [|e w]]]]]; try discriminate.
  repeat match goal with
         | H : Forall _ (_ :: _) |- _ => inversion H; subst; clear H
         end.
  unfold all_tokens.
  apply in_flat_map. exists a. split; [assumption|].
  apply in_flat_map. exists b. split; [assumption|].
  apply in_flat_map. exists c. split; [assumption|].
  apply in_map_iff. exists d. split; [reflexivity|assumption].
Qed.

(** No more than [|A|^4] distinct tokens exist over an alphabet [A]. *)
Lemma distinct_tokens_bound cs (ws : list str) :
  NoDup ws -> Forall (token_over cs) ws -> length ws <= length cs ^ 4.
Proof.
  intros Hnd Hall. rewrite <- all_tokens_length.
  apply NoDup_incl_length; [exact Hnd|].
  intros w Hw. apply all_tokens_complete.
  now apply (proj1 (Forall_forall _ _) Hall).
Qed.

Lemma token_over_sub cs first tok :
  token_over cs first -> token_over first tok -> token_over cs tok.
Proof.
  intros [_ Hf] [Hlen Ht]. split; [exact Hlen|].
  eapply Forall_impl; [|exact Ht]. intros c Hc.
  now apply (proj1 (Forall_forall _ _) Hf).
Qed.

Lemma one_to_one_values (lex : lexicon) :
  NoDup (keys lex) -> one_to_one lex -> NoDup (map snd lex).
Proof.
  intros Hnd Hone.
  assert (forall k1 k2 t, In (k1, t) lex -> In (k2, t) lex -> k1 = k2) as Hin.
  { intros k1 k2 t H1 H2. apply (Hone k1 k2 t); now apply In_lookup. }
  clear Hone. induction lex as [|[k t] lex IH]; [constructor|].
  inversion Hnd as [|? ? Hnot Hnd']; subst. cbn [map snd]. constructor.
  - intros Ht. apply in_map_iff in Ht. destruct Ht as ([k' t'] & Et & Hk').
    cbn [snd] in Et. subst t'.
    assert (k = k') by (apply (Hin k k' t); [now left|now right]).
    subst k'. apply Hnot. change k with (fst (k, t)). now apply in_map.
  - apply IH; [exact Hnd'|]. intros k1 k2 t0 H1 H2.
    apply (Hin k1 k2 t0); now right.
Qed.

Lemma create_lexicon_tokens_over cs (vocab : vocabulary)
    (nonsense_words : list str) rnd k lex k' :
  NoDup (keys vocab) ->
  Forall (token_over cs) nonsense_words ->
  create_lexicon vocab nonsense_words rnd k = Ok (lex, k') ->
  Forall (token_over cs) (map snd lex) /\ length lex = length vocab
  /\ NoDup (keys lex).
Proof.
  intros Hkeys Htok Hrun.
  pose proof (sort_desc_perm vocab) as Hperm.
  assert (NoDup (keys (sort_desc vocab))) as Hnd.
  { eapply Permutation_NoDup; [|exact Hkeys].
    symmetry. apply Permutation_map, Hperm. }
  destruct (assign_all_ok nonsense_words (sort_desc vocab) 0 [] rnd k Hnd)
    as (L & k1 & HL & HkL & Hj).
  - destruct nonsense_words as [|first rest].
    + left. destruct vocab as [|e vocab]; [reflexivity|].
      rewrite create_lexicon_no_tokens in Hrun by discriminate.
      discriminate.
    + right. exists first, rest. split; [reflexivity|].
      inversion Htok as [|? ? [Hlen _] _]; subst. intros ->. discriminate.
  - unfold create_lexicon in Hrun. rewrite HL in Hrun. simpl in Hrun.
    injection Hrun as <- _.
    assert (length L = length vocab) as Hlen.
    { rewrite <- (keys_length L), HkL, keys_length.
      apply (Permutation_length Hperm). }
    split; [|split; [exact Hlen|now rewrite HkL]].
    apply Forall_forall. intros t Ht. apply in_map_iff in Ht.
    destruct Ht as ([key tok] & <- & Hin). cbn [snd].
    apply In_nth_error in Hin. destruct Hin as [j Hjn].
    assert (j < length L) as Hlt by (apply nth_error_Some; congruence).
    rewrite <- (keys_length L), HkL, keys_length in Hlt.
    destruct (nth_error (sort_desc vocab) j) as [[key' info]|] eqn:En;
      [|apply nth_error_None in En; lia].
    destruct (Hj j key' info En) as (tok' & H1 & H2 & H3).
    rewrite Hjn in H1. injection H1 as <- <-.
    change (0 + j) with j in H2, H3.
    destruct (Nat.lt_ge_cases j (length nonsense_words)) as [Hc|Hc].
    + apply (proj1 (Forall_forall _ _) Htok). eapply nth_error_In, H2, Hc.
    + destruct (H3 Hc) as (first & Hf & Hover).
      apply (token_over_sub cs first); [|exact Hover].
      apply (proj1 (Forall_forall _ _) Htok). eapply nth_error_In, Hf.
Qed.

(** X18.  Over an alphabet [A] there are no more than [|A|^4] distinct
    tokens.  So when the vocabulary has more words than that, a lexicon
    built from tokens over [A] -- those of the list and the fallback
    tokens drawn from the first of them -- cannot give every word its own
    token: two words share one. *)
Theorem oversized_vocabulary_collides (cs : str) (vocab : vocabulary)
    (nonsense_words : list str) (rnd : nat -> nat) (k : nat)
    (lex : lexicon) (k' : nat)
    (Hkeys : NoDup (keys vocab))
    (Htokens : Forall (token_over cs) nonsense_words)
    (Hbig : length cs ^ 4 < length vocab)
    (Hrun : create_lexicon vocab nonsense_words rnd k = Ok (lex, k')) :
  ~ one_to_one lex.
Proof.
  intros Hone.
  destruct (create_lexicon_tokens_over cs vocab nonsense_words rnd k lex k'
              Hkeys Htokens Hrun) as (Hover & Hlen & Hnd).
  pose proof (distinct_tokens_bound cs (map snd lex)
                (one_to_one_values lex Hnd Hone) Hover) as Hb.
  rewrite length_map in Hb. lia.
Qed.

Lemma oversized_vocabulary_collides_witness :
  ~ one_to_one
      [(lit "the", lit "aaaa"); (lit "lord", lit "aaaa");
       (lit "said", lit "aaaa")].
Proof.
  apply (oversized_vocabulary_collides (lit "a") demo_vocabulary [lit "aaaa"]
           (fun i => i) 0 _ 8).
  - repeat constructor; simpl; intuition discriminate.
  - repeat constructor.
  - simpl. lia.
  - reflexivity.
Defined.

(** ** Markup tags under the word pass *)







Section TagsKept.
Variable lex : lexicon.
Variable vocab : vocabulary.
Hypothesis tokens_letters :
  Forall (fun e => forallb is_letter (snd e) = true) lex.

Let pass := re_sub_from match_word (replace_word lex vocab).





End TagsKept.



(** ** The display form *)

Lemma wf_display k (vocab : vocabulary) :
  wf_vocabulary vocab -> flag_of k vocab = false -> display_of k vocab = k.
Proof.
  intros Hwf. unfold flag_of, display_of.
  destruct (lookup k vocab) as [r|] eqn:E; [|reflexivity].
  apply lookup_In in E. intros Hp.
  apply (proj1 (Forall_forall _ _) Hwf (k, r) E). exact Hp.
Qed.

Lemma display_of_sight k i word vocab :
  wf_vocabulary vocab ->
  display_of k (sight i word vocab)
  = if str_eqb (lower word) k
    then if flag_of k vocab then display_of k vocab
         else if classify i word then word else k
    else display_of k vocab.
Proof.
  intros Hwf. unfold display_of at 1. rewrite lookup_sight.
  destruct (str_eqb (lower word) k) eqn:E; [|reflexivity].
  apply str_eqb_true in E. cbn [original].
  pose proof (wf_display k vocab Hwf) as Hd.
  unfold flag_of, display_of in *.
  destruct (lookup k vocab) as [r|].
  - destruct (preserve_caps r); cbn [negb]; [now rewrite andb_false_r|].
    rewrite andb_true_r. destruct (classify i word); auto.
  - now destruct (classify i word).
Qed.

Lemma fold_sight_wf l : forall vocab,
  wf_vocabulary vocab ->
  wf_vocabulary (fold_left (fun v x => sight (fst x) (snd x) v) l vocab).
Proof.
  induction l as [|[i w] l IH]; intros vocab H; cbn [fold_left]; [exact H|].
  apply IH, sight_wf, H.
Qed.

Lemma fold_sight_display k l : forall vocab,
  wf_vocabulary vocab ->
  display_of k (fold_left (fun v x => sight (fst x) (snd x) v) l vocab)
  = if flag_of k vocab then display_of k vocab
    else match find preserving (sightings_of k l) with
         | Some x => snd x
         | None => k
         end.
Proof.
  induction l as [|[i w] l IH]; intros vocab Hwf; cbn [fold_left fst snd].
  - cbn [sightings_of filter find].
    destruct (flag_of k vocab) eqn:E; [reflexivity|]. now apply wf_display.
  - rewrite (IH _ (sight_wf i w vocab Hwf)).
    rewrite flag_of_sight, (display_of_sight k i w vocab Hwf).
    unfold sightings_of. cbn [filter fst snd].
    destruct (str_eqb (lower w) k) eqn:E; cbn [andb].
    + destruct (flag_of k vocab); cbn [orb]; [reflexivity|].
      cbn [find]. unfold preserving at 2. cbn [fst snd].
      destruct (classify i w); reflexivity.
    + rewrite orb_false_r. reflexivity.
Qed.

(** X20.  The display form recorded for a word is the form of its first
    sighting that calls for preserve-caps; a word with no such sighting is
    recorded in lower case. *)
Theorem display_form_is_first_preserving_sighting (content : str) (k : str) :
  display_of k (extract_vocabulary_from_usfm content)
  = match find preserving (sightings_of k (sightings content)) with
    | Some x => snd x
    | None => k
    end.
Proof.
  rewrite extract_fold, fold_sight_display by constructor. reflexivity.
Qed.

(** X21.  For a word that has a lexicon entry and is recorded with
    preserve-caps, the replacement does not depend on the casing of the
    occurrence: all occurrences of the word are rendered alike. *)
Theorem preserved_word_rendered_alike (lex : lexicon) (vocab : vocabulary)
    (w1 w2 tok : str)
    (Hsame : lower w1 = lower w2)
    (Hentry : lookup (lower w1) lex = Some tok)
    (Hflag : flag_of (lower w1) vocab = true) :
  apply_lexicon lex vocab w1 = apply_lexicon lex vocab w2.
Proof.
  unfold apply_lexicon. rewrite <- Hsame, Hentry. unfold flag_of in Hflag.
  destruct (lookup (lower w1) vocab) as [info|]; [|discriminate].
  now rewrite Hflag.
Qed.

Lemma preserved_word_rendered_alike_witness :
  apply_lexicon [(lit "god", lit "abcd")] god_vocab (lit "GOD")
  = apply_lexicon [(lit "god", lit "abcd")] god_vocab (lit "god").
Proof.
  apply (preserved_word_rendered_alike [(lit "god", lit "abcd")] god_vocab
           (lit "GOD") (lit "god") (lit "abcd")); reflexivity.
Defined.

(** ** The two word patterns *)

Lemma word_sub_agree (r : str -> str -> str) text : forall prev skip,
  re_sub_from match_word r prev skip text
  = re_sub_from match_plain_word r prev skip text.
Proof.
  induction text as [|c rest IH]; intros prev skip; [reflexivity|].
  cbn [re_sub_from]. rewrite lookbehind_never_rejects.
  destruct skip; [|apply IH].
  destruct (match_plain_word prev (c :: rest)) as [[|n]|]; now rewrite IH.
Qed.

Lemma word_finditer_agree text : forall prev skip,
  re_finditer_from match_word prev skip text
  = re_finditer_from match_plain_word prev skip text.
Proof.
  induction text as [|c rest IH]; intros prev skip; [reflexivity|].
  cbn [re_finditer_from]. rewrite lookbehind_never_rejects.
  destruct skip; [|apply IH].
  destruct (match_plain_word prev (c :: rest)) as [[|n]|]; now rewrite IH.
Qed.

(** X22.  The look-behind of the rewriter's word pattern (line 138) has no
    effect: at every position it matches exactly what the extraction
    pattern of line 25 matches, so both find the same words in a text and
    a substitution with either gives the same result. *)
Theorem word_patterns_agree :
  (forall prev text, match_word prev text = match_plain_word prev text)
  /\ (forall text, re_findall match_word text
                   = re_findall match_plain_word text)
  /\ (forall r text, re_sub match_word r text
                     = re_sub match_plain_word r text).
Proof.
  split; [apply lookbehind_never_rejects|]. split.
  - intros text. unfold re_findall, re_finditer.
    now rewrite word_finditer_agree.
  - intros r text. apply word_sub_agree.
Qed.
